(** * dc.graph.js: layout reconciliation, constraint translation, port placement

    A shallow embedding of [dc_graph.diagram]'s [redraw] and of
    [dc_graph.place_ports] (file [src/place_ports.js]).

    Conventions of the embedding:
    - a JS number is a real number ([R]); array positions, the [index] and
      [parallel] fields are natural numbers; [undefined] is [None];
    - a JS object used as a dictionary ([_nodes], [_edges], [keep_node],
      [keep_edge]) is a finite map or set over string keys; keys are assumed
      not to be names of [Object.prototype] members;
    - wrapper objects live in a heap indexed by locations, so that object
      identity is equality of locations and aliasing is visible;
    - functions that the file calls and does not define ([JSON.stringify],
      [crossfilter.quicksort.by], [dc_graph.wheel_edges], [between_angles])
      are parameters; [normalize_angle] follows the spec;
    - the layout engine (cola.js) is not part of the file: the calls on it
      are recorded as signals, and what it reports back is a list of
      events, constrained by what the handlers do to it ([engine_run]). *)

From Stdlib Require Import Reals Lra Lia.
From stdpp Require Import gmap strings list fin_maps.

(** Keys of records and identities of wrapper objects. *)
Abbreviation key := string.
Abbreviation loc := nat.

(** ** The diagram: wrapper objects and the persistent store *)

Module Diagram.

(** The wrapper [v1] that [wrap_node] keeps for a node key. A field that
    was never assigned is [None]. *)
Record node_obj (NodeRec : Type) := NodeObj {
  orig : option NodeRec;
  index : option nat;
  x : option R;
  y : option R;
  fixed : option bool
}.
Arguments NodeObj {NodeRec}.
Arguments orig {NodeRec}.
Arguments index {NodeRec}.
Arguments x {NodeRec}.
Arguments y {NodeRec}.
Arguments fixed {NodeRec}.

(** The wrapper [e1] that [wrap_edge] keeps for an edge key; [source] and
    [target] are references to node wrappers. *)
Record edge_obj (EdgeRec : Type) := EdgeObj {
  e_orig : option EdgeRec;
  source : option loc;
  target : option loc;
  parallel : option nat
}.
Arguments EdgeObj {EdgeRec}.
Arguments e_orig {EdgeRec}.
Arguments source {EdgeRec}.
Arguments target {EdgeRec}.
Arguments parallel {EdgeRec}.

(** The object literal [{}]. *)
Definition empty_node {NodeRec} : node_obj NodeRec := NodeObj None None None None None.
Definition empty_edge {EdgeRec} : edge_obj EdgeRec := EdgeObj None None None None.

(** The variables of the closure of [dc_graph.diagram] that [redraw] reads
    and writes, and the two heaps of wrapper objects. [_d3cola] records
    whether the layout engine object exists ([null] before [initLayout]). *)
Record store (NodeRec EdgeRec : Type) := Store {
  _nodes : gmap string loc;
  _edges : gmap string loc;
  nheap : gmap nat (node_obj NodeRec);
  eheap : gmap nat (edge_obj EdgeRec);
  nnext : loc;
  enext : loc;
  _nodes_snapshot : option string;
  _edges_snapshot : option string;
  _d3cola : bool
}.
Arguments Store {NodeRec EdgeRec}.
Arguments _nodes {NodeRec EdgeRec}.
Arguments _edges {NodeRec EdgeRec}.
Arguments nheap {NodeRec EdgeRec}.
Arguments eheap {NodeRec EdgeRec}.
Arguments nnext {NodeRec EdgeRec}.
Arguments enext {NodeRec EdgeRec}.
Arguments _nodes_snapshot {NodeRec EdgeRec}.
Arguments _edges_snapshot {NodeRec EdgeRec}.
Arguments _d3cola {NodeRec EdgeRec}.

(** [var _nodes = {}, _edges = {}], no snapshot yet. *)
Definition init_store {NodeRec EdgeRec} : store NodeRec EdgeRec :=
  Store ∅ ∅ ∅ ∅ 0 0 None None false.

(** What an accessor for a fixed position returns when it is truthy. *)
Record coord := Coord { cx : option R; cy : option R }.

(** A layout constraint as [constrain] returns it and as [redraw] rewrites
    it. [ref] is what the constraint names a node by: its key before the
    translation, its [index] after. [Gap] is a constraint without [type]
    and with a truthy [axis]; [Other] is any further object, which
    [redraw] passes on untouched. The nodes of an [Ordering] stay keys. *)
Inductive constraint (NodeRec sortkey ref : Type) :=
| Alignment (axis : string) (offsets : list (ref * R))
| Circle (distance : option R) (nodes : list ref)
| Ordering (ordering : NodeRec → sortkey) (nodes : list key) (axis : string) (gap : R)
| Gap (axis : string) (left right : ref) (gap : R)
| Other (type_ : option string).
Arguments Alignment {NodeRec sortkey ref}.
Arguments Circle {NodeRec sortkey ref}.
Arguments Ordering {NodeRec sortkey ref}.
Arguments Gap {NodeRec sortkey ref}.
Arguments Other {NodeRec sortkey ref}.

(** The properties of the chart that [redraw] consults. An accessor that
    is [null] is [None]; a falsy result of [nodeFixedAccessor] is [None]. *)
Record chart (NodeRec EdgeRec sortkey : Type) := Chart {
  nodeKeyAccessor : NodeRec → key;
  edgeKeyAccessor : EdgeRec → key;
  sourceAccessor : EdgeRec → key;
  targetAccessor : EdgeRec → key;
  nodeFixedAccessor : option (NodeRec → option coord);
  nodeOrdering : option (NodeRec → sortkey);
  edgeOrdering : option (EdgeRec → sortkey);
  edgeIsLayoutAccessor : EdgeRec → bool;
  constrain : list (node_obj NodeRec) → list (edge_obj EdgeRec)
              → list (constraint NodeRec sortkey key);
  induceNodes : bool;
  initLayoutOnRedraw : bool;
  layoutUnchanged : bool;
  parallelEdgeOffset : R;
  baseLength : R;
  timeLimit : Z;
  showLayoutSteps : bool
}.
Arguments Chart {NodeRec EdgeRec sortkey}.
Arguments nodeKeyAccessor {NodeRec EdgeRec sortkey}.
Arguments edgeKeyAccessor {NodeRec EdgeRec sortkey}.
Arguments sourceAccessor {NodeRec EdgeRec sortkey}.
Arguments targetAccessor {NodeRec EdgeRec sortkey}.
Arguments nodeFixedAccessor {NodeRec EdgeRec sortkey}.
Arguments nodeOrdering {NodeRec EdgeRec sortkey}.
Arguments edgeOrdering {NodeRec EdgeRec sortkey}.
Arguments edgeIsLayoutAccessor {NodeRec EdgeRec sortkey}.
Arguments constrain {NodeRec EdgeRec sortkey}.
Arguments induceNodes {NodeRec EdgeRec sortkey}.
Arguments initLayoutOnRedraw {NodeRec EdgeRec sortkey}.
Arguments layoutUnchanged {NodeRec EdgeRec sortkey}.
Arguments parallelEdgeOffset {NodeRec EdgeRec sortkey}.
Arguments baseLength {NodeRec EdgeRec sortkey}.
Arguments timeLimit {NodeRec EdgeRec sortkey}.
Arguments showLayoutSteps {NodeRec EdgeRec sortkey}.

(** An element of the array [dc_graph.wheel_edges] returns. *)
Record wheel_edge := WheelEdge {
  sourcename : key;
  targetname : key;
  distance : option R
}.

(** What [_d3cola.links] receives: an edge wrapper, or the object
    [{internal: e, source: .., target: ..}] built for a wheel edge. *)
Inductive link :=
| EdgeLink (e1 : loc)
| WheelLink (internal : wheel_edge) (wsource wtarget : option loc).

(** Calls on the layout engine, on the dispatcher and on [draw]. *)
Inductive signal (NodeRec sortkey : Type) :=
| EngineStop
| InitLayout
| EngineStart (nodes : list loc) (links : list link) (constraints : list (constraint NodeRec sortkey nat))
| Draw
| DispatchEnd.
Arguments EngineStop {NodeRec sortkey}.
Arguments InitLayout {NodeRec sortkey}.
Arguments EngineStart {NodeRec sortkey}.
Arguments Draw {NodeRec sortkey}.
Arguments DispatchEnd {NodeRec sortkey}.

Record outcome (NodeRec sortkey : Type) := Outcome {
  nodes1 : list loc;
  edges1 : list loc;
  _stats : nat * nat;
  skip_layout : bool;
  signals : list (signal NodeRec sortkey)
}.
Arguments Outcome {NodeRec sortkey}.
Arguments nodes1 {NodeRec sortkey}.
Arguments edges1 {NodeRec sortkey}.
Arguments _stats {NodeRec sortkey}.
Arguments skip_layout {NodeRec sortkey}.
Arguments signals {NodeRec sortkey}.

(** What the engine reports back: an iteration, with the value of
    [Date.now() - startTime] when the handler runs, or the end. *)
Inductive engine_event :=
| Tick (elapsed : Z)
| End.

Section redraw.
Context {NodeRec EdgeRec sortkey : Type}.
(** The property reads [v.x] and [v.y] on a raw node record. *)
Variable node_x node_y : NodeRec → option R.
Variable _chart : chart NodeRec EdgeRec sortkey.

Local Abbreviation store := (store NodeRec EdgeRec).
Local Abbreviation node_obj := (node_obj NodeRec).
Local Abbreviation edge_obj := (edge_obj EdgeRec).
Local Abbreviation constraint := (constraint NodeRec sortkey).
Local Abbreviation signal := (signal NodeRec sortkey).
Local Abbreviation outcome := (outcome NodeRec sortkey).

Definition set_nheap (h : gmap nat node_obj) (σ : store) : store :=
  Store (_nodes σ) (_edges σ) h (eheap σ) (nnext σ) (enext σ)
        (_nodes_snapshot σ) (_edges_snapshot σ) (_d3cola σ).
Definition set_eheap (h : gmap nat edge_obj) (σ : store) : store :=
  Store (_nodes σ) (_edges σ) (nheap σ) h (nnext σ) (enext σ)
        (_nodes_snapshot σ) (_edges_snapshot σ) (_d3cola σ).
Definition set_nodes (m : gmap string loc) (σ : store) : store :=
  Store m (_edges σ) (nheap σ) (eheap σ) (nnext σ) (enext σ)
        (_nodes_snapshot σ) (_edges_snapshot σ) (_d3cola σ).
Definition set_edges (m : gmap string loc) (σ : store) : store :=
  Store (_nodes σ) m (nheap σ) (eheap σ) (nnext σ) (enext σ)
        (_nodes_snapshot σ) (_edges_snapshot σ) (_d3cola σ).

(** [if(!_nodes[key]) _nodes[key] = {}; var v1 = _nodes[key];] *)
Definition node_wrapper (k : key) (σ : store) : loc * store :=
  match _nodes σ !! k with
  | Some l => (l, σ)
  | None =>
      (nnext σ,
       Store (<[k := nnext σ]> (_nodes σ)) (_edges σ)
             (<[nnext σ := empty_node]> (nheap σ)) (eheap σ)
             (S (nnext σ)) (enext σ)
             (_nodes_snapshot σ) (_edges_snapshot σ) (_d3cola σ))
  end.

(** [if(!_edges[key]) _edges[key] = {}; var e1 = _edges[key];] *)
Definition edge_wrapper (k : key) (σ : store) : loc * store :=
  match _edges σ !! k with
  | Some l => (l, σ)
  | None =>
      (enext σ,
       Store (_nodes σ) (<[k := enext σ]> (_edges σ))
             (nheap σ) (<[enext σ := empty_edge]> (eheap σ))
             (nnext σ) (S (enext σ))
             (_nodes_snapshot σ) (_edges_snapshot σ) (_d3cola σ))
  end.

(** [fixed] of [wrap_node]: left [undefined] without an accessor. *)
Definition fixed_of (v : NodeRec) : option coord :=
  match nodeFixedAccessor _chart with
  | Some f => f v
  | None => None
  end.

(** The assignments of [wrap_node] to the fields of [v1]. *)
Definition assign_node (v : NodeRec) (i : nat) (v1 : node_obj) : node_obj :=
  match fixed_of v with
  | Some _ => NodeObj (Some v) (Some i) (node_x v) (node_y v) (Some true)
  | None => NodeObj (Some v) (Some i) (x v1) (y v1) (Some false)
  end.

(** [wrap_node(v, i)]: returns the wrapper; the store and [keep_node]
    are threaded. *)
Definition wrap_node (v : NodeRec) (i : nat) (s : store * gset string)
  : loc * (store * gset string) :=
  let k := nodeKeyAccessor _chart v in
  let '(l, σ1) := node_wrapper k s.1 in
  (l, (set_nheap (alter (assign_node v i) l (nheap σ1)) σ1, {[k]} ∪ s.2)).

(** The assignments of [wrap_edge] to the fields of [e1]; [_nodes] is
    read as it is when the edge is wrapped. *)
Definition assign_edge (nodes : gmap string loc) (e : EdgeRec) (e1 : edge_obj)
  : edge_obj :=
  EdgeObj (Some e) (nodes !! sourceAccessor _chart e)
          (nodes !! targetAccessor _chart e) (parallel e1).

Definition wrap_edge (e : EdgeRec) (s : store * gset string)
  : loc * (store * gset string) :=
  let k := edgeKeyAccessor _chart e in
  let '(l, σ1) := edge_wrapper k s.1 in
  (l, (set_eheap (alter (assign_edge (_nodes σ1) e) l (eheap σ1)) σ1,
       {[k]} ∪ s.2)).

(** [nodes.map(wrap_node)], the callback receiving the array position. *)
Fixpoint map_wrap_node (vs : list NodeRec) (i : nat) (s : store * gset string)
  : list loc * (store * gset string) :=
  match vs with
  | [] => ([], s)
  | v :: vs' =>
      let '(l, s1) := wrap_node v i s in
      let '(ls, s2) := map_wrap_node vs' (S i) s1 in
      (l :: ls, s2)
  end.

(** [edges.map(wrap_edge)]. *)
Fixpoint map_wrap_edge (es : list EdgeRec) (s : store * gset string)
  : list loc * (store * gset string) :=
  match es with
  | [] => ([], s)
  | e :: es' =>
      let '(l, s1) := wrap_edge e s in
      let '(ls, s2) := map_wrap_edge es' s1 in
      (l :: ls, s2)
  end.

(** [for(var k in m) if(!keep[k]) delete m[k];] *)
Definition sweep (keep : gset string) (m : gmap string loc) : gmap string loc :=
  filter (λ kv, kv.1 ∈ keep) m.

(** [e.source!==undefined && e.target!==undefined] on the wrapper at [l]. *)
Definition has_endpoints (h : gmap nat edge_obj) (l : loc) : bool :=
  match h !! l with
  | Some e1 => bool_decide (is_Some (source e1)) && bool_decide (is_Some (target e1))
  | None => false
  end.

(** The reconciliation of [redraw], statement by statement: wrap the
    nodes, sweep [_nodes] with [keep_node], sweep [_edges] with
    [keep_edge] (which no call of [wrap_edge] has filled yet), wrap the
    edges and keep those with both endpoints. *)
Definition reconcile (nodes : list NodeRec) (edges : list EdgeRec) (σ : store)
  : list loc * list loc * store :=
  let keep_node : gset string := ∅ in
  let keep_edge : gset string := ∅ in
  let '(nodes1, (σ1, keep_node)) := map_wrap_node nodes 0 (σ, keep_node) in
  let σ2 := set_nodes (sweep keep_node (_nodes σ1)) σ1 in
  let σ3 := set_edges (sweep keep_edge (_edges σ2)) σ2 in
  let '(wrapped, (σ4, keep_edge)) := map_wrap_edge edges (σ3, keep_edge) in
  let edges1 := filter (λ l, has_endpoints (eheap σ4) l = true) wrapped in
  (nodes1, edges1, σ4).

(** *** Functions that the file calls and does not define *)

(** [crossfilter.quicksort.by(f)(a.slice(0), 0, a.length)]. *)
Variable quicksort_by : ∀ A : Type, (A → sortkey) → list A → list A.
(** [JSON.stringify] on the arrays of [orig] references. *)
Variable JSON_stringify_nodes : list (option NodeRec) → string.
Variable JSON_stringify_edges : list (option EdgeRec) → string.

(** [dc_graph.wheel_edges(namef, nindices, R)]; the radius is [None]
    when the code computes it to something that is not a real number of
    this model (see [ring_radius]). *)
Variable wheel_edges : (nat → option key) → list nat → option R → list wheel_edge.

(** *** The record sets that reach [wrap_node] and [wrap_edge] *)

(** [if(_chart.induceNodes())]: only nodes that some edge names. *)
Definition induce (nodes : list NodeRec) (edges : list EdgeRec) : list NodeRec :=
  if induceNodes _chart then
    let keeps : gset string :=
      foldr (λ e ks, {[sourceAccessor _chart e]} ∪ ({[targetAccessor _chart e]} ∪ ks))
            ∅ edges in
    filter (λ n, nodeKeyAccessor _chart n ∈ keeps) nodes
  else nodes.

Definition ordered {A} (ordering : option (A → sortkey)) (l : list A) : list A :=
  match ordering with
  | Some f => quicksort_by A f l
  | None => l
  end.

Definition effective_nodes (nodes : list NodeRec) (edges : list EdgeRec) : list NodeRec :=
  ordered (nodeOrdering _chart) (induce nodes edges).
Definition effective_edges (edges : list EdgeRec) : list EdgeRec :=
  ordered (edgeOrdering _chart) edges.

(** *** Change detection *)

(** [nodes1.map(original)] and [edges1.map(original)]. *)
Definition node_origs (σ : store) (nodes1 : list loc) : list (option NodeRec) :=
  map (λ l, nheap σ !! l ≫= orig) nodes1.
Definition edge_origs (σ : store) (edges1 : list loc) : list (option EdgeRec) :=
  map (λ l, eheap σ !! l ≫= e_orig) edges1.

Definition set_snapshots (ns es : option string) (σ : store) : store :=
  Store (_nodes σ) (_edges σ) (nheap σ) (eheap σ) (nnext σ) (enext σ) ns es (_d3cola σ).

(** [_chart.relayout]: forget both snapshots. *)
Definition relayout (σ : store) : store := set_snapshots None None σ.

(** The block guarded by [if(!_chart.layoutUnchanged())]: returns
    [skip_layout] and stores the new snapshots. *)
Definition detect_unchanged (nodes1 edges1 : list loc) (σ : store) : bool * store :=
  if layoutUnchanged _chart then (false, σ)
  else
    let nodes_snapshot := JSON_stringify_nodes (node_origs σ nodes1) in
    let edges_snapshot := JSON_stringify_edges (edge_origs σ edges1) in
    (bool_decide (Some nodes_snapshot = _nodes_snapshot σ)
     && bool_decide (Some edges_snapshot = _edges_snapshot σ),
     set_snapshots (Some nodes_snapshot) (Some edges_snapshot) σ).

(** *** Parallel edges *)

(** A number used as a condition. *)
Definition truthy (r : R) : bool := if Req_dec_T r 0 then false else true.

(** [em[a][b]++]: the old entry and the updated matrix; outside the
    matrix [em[a]] is [undefined] and the statement throws. *)
Definition post_increment (em : list (list nat)) (a b : nat)
  : option (nat * list (list nat)) :=
  row ← em !! a;
  c ← row !! b;
  Some (c, <[a := <[b := S c]> row]> em).

(** [e.source.index] and [e.target.index]. *)
Definition endpoint_indices (σ : store) (e1 : edge_obj) : option (nat * nat) :=
  s ← source e1; t ← target e1;
  sn ← nheap σ !! s; tn ← nheap σ !! t;
  si ← index sn; ti ← index tn;
  Some (si, ti).

Definition set_parallel (p : nat) (e1 : edge_obj) : edge_obj :=
  EdgeObj (e_orig e1) (source e1) (target e1) (Some p).

(** The body of [edges1.forEach] in the parallel-edge block. *)
Fixpoint mark_parallel (edges1 : list loc) (em : list (list nat)) (σ : store)
  : option store :=
  match edges1 with
  | [] => Some σ
  | l :: ls =>
      e1 ← eheap σ !! l;
      '(si, ti) ← endpoint_indices σ e1;
      '(p, em') ← post_increment em (si `min` ti) (si `max` ti);
      mark_parallel ls em' (set_eheap (<[l := set_parallel p e1]> (eheap σ)) σ)
  end.

(** [if(_chart.parallelEdgeOffset())] with the zero matrix [em]. *)
Definition parallel_edges (nodes1 edges1 : list loc) (σ : store) : option store :=
  if truthy (parallelEdgeOffset _chart) then
    mark_parallel edges1 (replicate (length nodes1) (replicate (length nodes1) 0)) σ
  else Some σ.

(** *** Constraints: from keys to indices *)

(** [_nodes[k].index]; a key without wrapper makes the read throw. *)
Definition node_index (σ : store) (k : key) : option nat :=
  l ← _nodes σ !! k; v1 ← nheap σ !! l; index v1.

(** The body of the first [constraints.forEach]. *)
Definition translate_refs (σ : store) (c : constraint key) : option (constraint nat) :=
  match c with
  | Alignment axis offsets =>
      offs ← mapM (λ o : key * R, i ← node_index σ o.1; Some (i, o.2)) offsets;
      Some (Alignment axis offs)
  | Circle d nodes =>
      ns ← mapM (node_index σ) nodes; Some (Circle d ns)
  | Ordering f nodes axis gap => Some (Ordering f nodes axis gap)
  | Gap axis l r gap =>
      li ← node_index σ l; ri ← node_index σ r; Some (Gap axis li ri gap)
  | Other t => Some (Other t)
  end.

Definition is_circle {ref} (c : constraint ref) : bool :=
  match c with Circle _ _ => true | _ => false end.
Definition is_ordering {ref} (c : constraint ref) : bool :=
  match c with Ordering _ _ _ _ => true | _ => false end.

(** *** Circle constraints become wheel links *)

(** [c.distance || _chart.baseLength()*4]. *)
Definition distance_or_default (d : option R) : R :=
  match d with
  | Some r => if truthy r then r else baseLength _chart * 4
  | None => baseLength _chart * 4
  end.

(** [var R = (c.distance || _chart.baseLength()*4) / (2*Math.sin(Math.PI/c.nodes.length))].
    For two nodes or more the quotient is a real number. For no node the
    code divides π by 0 and gets [NaN]; for one node it divides by what
    rounding leaves of sin(π), which real arithmetic makes 0. Neither
    result is a number of this model: [None]. *)
Definition ring_radius (d : option R) (n : nat) : option R :=
  if decide (2 ≤ n) then Some (distance_or_default d / (2 * sin (PI / INR n)))%R
  else None.

(** [namef]: the key of [nodes1[i]]. *)
Definition namef (σ : store) (nodes1 : list loc) (i : nat) : option key :=
  l ← nodes1 !! i; v1 ← nheap σ !! l; v ← orig v1; Some (nodeKeyAccessor _chart v).

(** The array [wheel] of one circle constraint. *)
Definition wheel (σ : store) (nodes1 : list loc) (c : constraint nat) : list link :=
  match c with
  | Circle d nodes =>
      map (λ e, WheelLink e (_nodes σ !! sourcename e) (_nodes σ !! targetname e))
          (wheel_edges (namef σ nodes1) nodes (ring_radius d (length nodes)))
  | _ => []
  end.

(** *** Ordering constraints become chains of gaps *)

(** [sorted.forEach] once [left] is set. *)
Fixpoint gaps_from (axis : string) (gap : R) (left : NodeRec * nat)
  (rest : list (NodeRec * nat)) : list (constraint nat) :=
  match rest with
  | [] => []
  | n :: rest' => Gap axis left.2 n.2 gap :: gaps_from axis gap n rest'
  end.

(** A wrapper as the ordering step reads it: its [orig] and [index]. *)
Definition wrapper_of (σ : store) (k : key) : option (NodeRec * nat) :=
  l ← _nodes σ !! k; v1 ← nheap σ !! l; v ← orig v1; i ← index v1; Some (v, i).

(** The constraints one ordering constraint pushes. [c.nodes.map] puts
    [undefined] where a key has no wrapper. With two keys or more every
    element of the array is read, by the sort accessor ([x.orig]) and by
    [left.index] or [(left = n).index], and an [undefined] among them
    throws. An array of one element is sorted without a call of the
    accessor, and [forEach] only sets [left]: nothing is pushed and
    nothing thrown, also when the one key has no wrapper. *)
Definition ordered_gaps (σ : store) (c : constraint nat) : option (list (constraint nat)) :=
  match c with
  | Ordering f nodes axis gap =>
      match mapM (wrapper_of σ) nodes with
      | Some ws =>
          match quicksort_by _ (λ w : NodeRec * nat, f w.1) ws with
          | [] => Some []
          | n :: rest => Some (gaps_from axis gap n rest)
          end
      | None => if decide (length nodes = 1) then Some [] else None
      end
  | _ => Some []
  end.

(** [layout_edges], [constraints] after the blocks "1. non-layout edges",
    "2. type=circle constraints" and "3. ordered alignment". *)
Definition is_layout (σ : store) (l : loc) : bool :=
  match eheap σ !! l ≫= e_orig with
  | Some e => edgeIsLayoutAccessor _chart e
  | None => false
  end.

Definition layout_links (σ : store) (nodes1 edges1 : list loc)
  (constraints : list (constraint nat)) : list link :=
  foldl (λ acc c, acc ++ wheel σ nodes1 c)
        (map EdgeLink (filter (λ l, is_layout σ l = true) edges1))
        (filter (λ c, is_circle c = true) constraints).

Definition engine_constraints (σ : store) (constraints : list (constraint nat))
  : option (list (constraint nat)) :=
  let constraints1 := filter (λ c, is_circle c = false) constraints in
  let ordered_constraints := filter (λ c, is_ordering c = true) constraints1 in
  let constraints2 := filter (λ c, is_ordering c = false) constraints1 in
  pushed ← mapM (ordered_gaps σ) ordered_constraints;
  Some (constraints2 ++ concat pushed).

(** *** The layout driver *)

Definition set_d3cola (b : bool) (σ : store) : store :=
  Store (_nodes σ) (_edges σ) (nheap σ) (eheap σ) (nnext σ) (enext σ)
        (_nodes_snapshot σ) (_edges_snapshot σ) b.

Definition objects {A} (h : gmap nat A) (ls : list loc) : list A :=
  omap (λ l, h !! l) ls.

(** [_chart.redraw]: [nodes] and [edges] are what [nodeGroup().all()]
    and [edgeGroup().all()] return. The d3 selections are not modelled.
    [None] is a [TypeError] ([_d3cola] still [null], a constraint naming
    a key without wrapper, [em] read outside its bounds). *)
Definition redraw (nodes : list NodeRec) (edges : list EdgeRec) (σ : store)
  : option (outcome * store) :=
  let stop := if _d3cola σ then [EngineStop] else [] in
  let init := if initLayoutOnRedraw _chart then [InitLayout] else [] in
  let σ0 := set_d3cola (_d3cola σ || initLayoutOnRedraw _chart) σ in
  let nodes' := effective_nodes nodes edges in
  let edges' := effective_edges edges in
  let '(nodes1, edges1, σ1) := reconcile nodes' edges' σ0 in
  let '(skip_layout, σ2) := detect_unchanged nodes1 edges1 σ1 in
  σ3 ← parallel_edges nodes1 edges1 σ2;
  if _d3cola σ3 then
    constraints ←
      mapM (translate_refs σ3)
           (constrain _chart (objects (nheap σ3) nodes1) (objects (eheap σ3) edges1));
    let layout_edges := layout_links σ3 nodes1 edges1 constraints in
    constraints' ← engine_constraints σ3 constraints;
    Some (Outcome nodes1 edges1 (length nodes1, length edges1) skip_layout
            (stop ++ init ++
             (if skip_layout then [DispatchEnd]
              else [EngineStart nodes1 layout_edges constraints'])),
          σ3)
  else None.

(** [_chart.timeLimit() && elapsed > _chart.timeLimit()]. *)
Definition over_limit (elapsed : Z) : bool :=
  bool_decide (timeLimit _chart ≠ 0%Z) && bool_decide (timeLimit _chart < elapsed)%Z.

(** The handler of ['tick']. *)
Definition on_tick (elapsed : Z) : list signal :=
  (if showLayoutSteps _chart then [Draw] else [])
  ++ (if over_limit elapsed then [EngineStop; DispatchEnd] else []).

(** The handler of ['end']. *)
Definition on_end : list signal :=
  (if showLayoutSteps _chart then [] else [Draw]) ++ [DispatchEnd].

Definition handle (ev : engine_event) : list signal :=
  match ev with
  | Tick elapsed => on_tick elapsed
  | End => on_end
  end.

(** Whether the handler of an event dispatches [end]. *)
Definition dispatches_end (ev : engine_event) : bool :=
  match ev with
  | Tick elapsed => over_limit elapsed
  | End => true
  end.

(** All signals of one redraw cycle: those of the call, then those of
    the handlers for the events the engine delivers. *)
Definition cycle_signals (o : outcome) (events : list engine_event) : list signal :=
  signals o ++ flat_map handle events.

Definition is_end (s : signal) : bool :=
  match s with DispatchEnd => true | _ => false end.
Definition is_start (s : signal) : bool :=
  match s with EngineStart _ _ _ => true | _ => false end.

(** How many times [_dispatch.end()] runs. *)
Definition ends_dispatched (l : list signal) : nat :=
  length (filter (λ s, is_end s = true) l).

Definition is_stop (s : signal) : bool :=
  match s with EngineStop => true | _ => false end.

(** Whether the handler of an event calls [_d3cola.stop()]. *)
Definition stops (ev : engine_event) : bool := existsb is_stop (handle ev).

(** Whether some handler of the cycle stopped the engine: the cycle was
    cancelled. *)
Definition cancelled (events : list engine_event) : bool := existsb stops events.

(** The engine's side of a cycle. The engine (cola.js) is not part of
    the file; what it reports depends on what the handlers do to it: it
    reports iterations for as long as no handler has stopped it, and then
    the end; once a handler has called [stop()], its next report is the
    end as well, and its last. *)
Inductive engine_run : list engine_event → Prop :=
| converges : engine_run [End]
| iterates t events :
    stops (Tick t) = false → engine_run events → engine_run (Tick t :: events)
| stopped t :
    stops (Tick t) = true → engine_run [Tick t; End].

(** The events of a cycle: none on the skip path, where the engine is
    not started; a run of the engine otherwise. *)
Inductive terminates : bool → list engine_event → Prop :=
| skipped : terminates true []
| started events : engine_run events → terminates false events.

End redraw.

End Diagram.

(** ** Port placement *)

Module PlacePorts.

Local Open Scope R_scope.

(** Modelled from the spec: [normalize_angle], a helper of the repository
    that [place_ports.js] calls and does not define; the spec has it as the
    canonical normalization of an angle to the interval (-π, π]. The
    integer [1 - up ((PI - theta) / (2 * PI))] is the ceiling of
    [(theta - PI) / (2 * PI)]. *)
Definition normalize_angle (theta : R) : R :=
  theta - 2 * PI * IZR (1 - up ((PI - theta) / (2 * PI))).

(** A node wrapper as [place_ports] reads it: its identity and its
    position [cola.x], [cola.y]. *)
Record wnode := WNode { n_ref : loc; cola_x : R; cola_y : R }.

(** An edge wrapper: [source] and [target]. *)
Record wedge := WEdge { e_source : wnode; e_target : wnode }.

Record vector := Vector { dx : R; dy : R }.

(** What [p.vec] is assigned: the mean of the edge directions, or
    [p.theta || undefined] for a port without edges. *)
Inductive port_vec :=
| VecMean (v : vector)
| VecTheta (theta : R)
| VecUndefined.

Record point := Point { px : R; py : R }.

(** A port wrapper. [p_orig] tells whether the port has a specification
    ([p.orig] truthy). *)
Record port := Port {
  p_orig : bool;
  p_edges : list wedge;
  theta : option R;
  bounds : option (R * R);
  p_vec : port_vec;
  pos : option point
}.

Definition hypot (a b : R) : R := sqrt (a * a + b * b).

(** [norm(v)] *)
Definition norm (v : vector) : vector :=
  let c := hypot (dx v) (dy v) in Vector (dx v / c) (dy v / c).

(** [vec(n, e)]: [e.source !== n] compares object identities. *)
Definition vec (n : wnode) (e : wedge) : vector :=
  let dy := cola_y (e_target e) - cola_y (e_source e) in
  let dx := cola_x (e_target e) - cola_x (e_source e) in
  if decide (n_ref (e_source e) = n_ref n) then norm (Vector dx dy)
  else norm (Vector (- dx) (- dy)).

(** [angle(v)], which would turn a vector into an angle, is not embedded:
    nothing in [place_ports] calls it (and its first statement reads a
    variable [e] that is not in scope). *)

(** [d3.sum(angs, f)] *)
Definition sum (f : vector → R) (angs : list vector) : R :=
  foldr (λ v acc, f v + acc) 0 angs.

(** [clip_angle(theta, a, b)] *)
Definition clip_angle (theta a b : R) : R :=
  if Rlt_dec (Rabs (normalize_angle (theta - a))) (Rabs (normalize_angle (theta - b)))
  then a else b.

(** The three arrays [inside], [outside] and [unplaced]. *)
Inductive placement := Inside | Outside | Unplaced.

Global Instance placement_eq_dec : EqDecision placement.
Proof. solve_decision. Defined.

Section place_ports.
(** [between_angles], [normalize_angle_delta] and [point_on_shape] are
    helpers the file does not define; [portBounds] is [diagram.portBounds.eval];
    [random k] is what the [k]-th call of [Math.random()] returns. *)
Variable between_angles : R → R → R → bool.
Variable normalize_angle_delta : R → R.
Variable point_on_shape : wnode → R → R → point.
Variable portBounds : port → option (R * R).
Variable random : nat → R.

Definition truthy (r : R) : bool := if Req_dec_T r 0 then false else true.

Definition set_vec (v : port_vec) (p : port) : port :=
  Port (p_orig p) (p_edges p) (theta p) (bounds p) v (pos p).
Definition set_bounds (b : R * R) (p : port) : port :=
  Port (p_orig p) (p_edges p) (theta p) (Some b) (p_vec p) (pos p).

(** The first [nports.forEach]: [p.vec], then [p.bounds] for a port
    with a specification. [p.theta] is not assigned. *)
Definition direct (n : wnode) (p : port) : port :=
  let angs := map (vec n) (p_edges p) in
  let p1 :=
    set_vec
      match angs with
      | [] => match theta p with
              | Some t => if truthy t then VecTheta t else VecUndefined
              | None => VecUndefined
              end
      | _ => VecMean (Vector (sum dx angs / INR (length angs))
                             (sum dy angs / INR (length angs)))
      end p in
  if p_orig p1 then
    match portBounds p1 with
    | Some (a, b) => set_bounds (normalize_angle a, normalize_angle b) p1
    | None => p1
    end
  else p1.

(** The second [nports.forEach]: which of the arrays [inside], [outside]
    and [unplaced] receives [p]. *)
Definition classify (p : port) : placement :=
  match theta p with
  | None => Unplaced
  | Some t =>
      match bounds p with
      | Some (a, b) => if between_angles t a b then Inside else Outside
      | None => Inside
      end
  end.

Definition set_theta (t : R) (p : port) : port :=
  Port (p_orig p) (p_edges p) (Some t) (bounds p) (p_vec p) (pos p).

(** The body of [outside.forEach], on a port of [outside]. *)
Definition shunt (p : port) : port :=
  match theta p, bounds p with
  | Some t, Some (a, b) => set_theta (clip_angle t a b) p
  | _, _ => p
  end.

(** The body of [unplaced.forEach] with the random number [u]. *)
Definition place_randomly (u : R) (p : port) : port :=
  let '(low, high) := match bounds p with
                      | Some (a, b) => (a, b)
                      | None => (- PI, PI)
                      end in
  set_theta (normalize_angle (low + u * normalize_angle_delta (high - low))) p.

(** The array [inside] after [outside.forEach]: the ports classified
    inside, then the clipped ports of [outside]. The sort that follows
    permutes this local array, which nothing reads afterwards. *)
Definition inside_after_shunt (nports : list port) : list port :=
  filter (λ p, classify p = Inside) nports
  ++ map shunt (filter (λ p, classify p = Outside) nports).

(** The ports of a node after [outside.forEach] and [unplaced.forEach];
    [k] counts the calls of [Math.random()] so far. *)
Fixpoint resolve (nports : list port) (k : nat) : list port * nat :=
  match nports with
  | [] => ([], k)
  | p :: ps =>
      match classify p with
      | Inside => let '(ps', k') := resolve ps k in (p :: ps', k')
      | Outside => let '(ps', k') := resolve ps k in (shunt p :: ps', k')
      | Unplaced =>
          let '(ps', k') := resolve ps (S k) in (place_randomly (random k) p :: ps', k')
      end
  end.

(** The last [nports.forEach]: [p.pos]. *)
Definition project (n : wnode) (p : port) : port :=
  match theta p with
  | Some t =>
      Port (p_orig p) (p_edges p) (theta p) (bounds p) (p_vec p)
           (Some (point_on_shape n (cos t * 1000) (sin t * 1000)))
  | None => p
  end.

(** One iteration of [for(var nid in node_ports)]. The loop over [wedges]
    that follows copies the positions to the edge ends and is not
    embedded. *)
Definition place_node_ports (n : wnode) (nports : list port) (k : nat)
  : list port * nat :=
  let '(ps, k') := resolve (map (direct n) nports) k in
  (map (project n) ps, k').

End place_ports.

End PlacePorts.

(** ** A table of wrappers, for the proofs

    [_nodes] with the node heap and [_edges] with the edge heap are two
    instances of one structure: a dictionary from keys to objects that are
    created on first sight and then mutated in place. The lemmas about
    [wrap_node] and [wrap_edge] are proved once, on this structure. *)

Module Table.

Record t (A : Type) := Tbl { dict : gmap string loc; heap : gmap nat A; next : loc }.
Arguments Tbl {A}.
Arguments dict {A}.
Arguments heap {A}.
Arguments next {A}.

Section table.
Context {A : Type}.
Variable empty : A.
Local Abbreviation t := (t A).

(** Look the key up or create its object, then mutate the object by [f]. *)
Definition touch (k : key) (f : A → A) (tb : t) : loc * t :=
  match dict tb !! k with
  | Some l => (l, Tbl (dict tb) (alter f l (heap tb)) (next tb))
  | None =>
      (next tb,
       Tbl (<[k := next tb]> (dict tb))
           (alter f (next tb) (<[next tb := empty]> (heap tb)))
           (S (next tb)))
  end.

Fixpoint touch_all (items : list (key * (A → A))) (tb : t) : list loc * t :=
  match items with
  | [] => ([], tb)
  | it :: items' =>
      let '(l, tb1) := touch it.1 it.2 tb in
      let '(ls, tb2) := touch_all items' tb1 in
      (l :: ls, tb2)
  end.

(** Every key has an object, every object lies below [next], and two keys
    never share an object. *)
Definition wf (tb : t) : Prop :=
  (∀ k l, dict tb !! k = Some l → is_Some (heap tb !! l))
  ∧ (∀ l, is_Some (heap tb !! l) → l < next tb)
  ∧ (∀ k1 k2 l, dict tb !! k1 = Some l → dict tb !! k2 = Some l → k1 = k2).

(** The object of key [k], or [{}] when the key has none yet. *)
Definition object_of (tb : t) (k : key) : A :=
  default empty (dict tb !! k ≫= λ l, heap tb !! l).

(** All the mutations that [items] holds for key [k], in order. *)
Definition mutate (k : key) (items : list (key * (A → A))) (o : A) : A :=
  foldl (λ o it, if decide (it.1 = k) then it.2 o else o) o items.

End table.

End Table.

(** ** The store as two tables, and its invariant *)

Module Views.
Import Diagram.

Section views.
Context {NodeRec EdgeRec sortkey : Type}.
Variable node_x node_y : NodeRec → option R.
Variable _chart : chart NodeRec EdgeRec sortkey.
Local Abbreviation store := (store NodeRec EdgeRec).

Definition ntable (σ : store) : Table.t (node_obj NodeRec) :=
  Table.Tbl (_nodes σ) (nheap σ) (nnext σ).
Definition etable (σ : store) : Table.t (edge_obj EdgeRec) :=
  Table.Tbl (_edges σ) (eheap σ) (enext σ).

Definition with_ntable (tb : Table.t (node_obj NodeRec)) (σ : store) : store :=
  Store (Table.dict tb) (_edges σ) (Table.heap tb) (eheap σ) (Table.next tb) (enext σ)
        (_nodes_snapshot σ) (_edges_snapshot σ) (_d3cola σ).
Definition with_etable (tb : Table.t (edge_obj EdgeRec)) (σ : store) : store :=
  Store (_nodes σ) (Table.dict tb) (nheap σ) (Table.heap tb) (nnext σ) (Table.next tb)
        (_nodes_snapshot σ) (_edges_snapshot σ) (_d3cola σ).

(** The mutations [nodes.map(wrap_node)] performs, per key. *)
Fixpoint node_items (vs : list NodeRec) (i : nat)
  : list (key * (node_obj NodeRec → node_obj NodeRec)) :=
  match vs with
  | [] => []
  | v :: vs' =>
      (nodeKeyAccessor _chart v, assign_node node_x node_y _chart v i)
      :: node_items vs' (S i)
  end.

(** The mutations [edges.map(wrap_edge)] performs, per key. *)
Definition edge_items (nodes : gmap string loc) (es : list EdgeRec)
  : list (key * (edge_obj EdgeRec → edge_obj EdgeRec)) :=
  map (λ e, (edgeKeyAccessor _chart e, assign_edge _chart nodes e)) es.

(** The invariant of the store between two calls of [redraw]. *)
Definition store_wf (σ : store) : Prop :=
  Table.wf (ntable σ) ∧ Table.wf (etable σ).

(** The last record of a list that has key [k]. *)
Definition last_with_key {A} (key_of : A → key) (k : key) (l : list A) : option A :=
  last (filter (λ a, key_of a = k) l).

(** [reconcile] on the two tables: the node table after
    [nodes.map(wrap_node)], the dictionary [_nodes] after its sweep, and
    the edge table after [edges.map(wrap_edge)], which starts from the
    dictionary that the sweep of [_edges] has emptied. *)
Definition nodes_run (nodes : list NodeRec) (σ : store) :=
  Table.touch_all empty_node (node_items nodes 0) (ntable σ).
Definition nodes_kept (nodes : list NodeRec) (σ : store) : gmap string loc :=
  sweep (list_to_set (nodeKeyAccessor _chart <$> nodes)) (Table.dict (nodes_run nodes σ).2).
Definition edges_run (nodes : list NodeRec) (edges : list EdgeRec) (σ : store) :=
  Table.touch_all empty_edge (edge_items (nodes_kept nodes σ) edges)
    (Table.Tbl ∅ (eheap σ) (enext σ)).

(** Two stores that differ at most in the edge heap. *)
Definition same_but_eheap (σ σ' : store) : Prop :=
  _nodes σ' = _nodes σ ∧ _edges σ' = _edges σ ∧ nheap σ' = nheap σ
  ∧ nnext σ' = nnext σ ∧ enext σ' = enext σ
  ∧ _nodes_snapshot σ' = _nodes_snapshot σ ∧ _edges_snapshot σ' = _edges_snapshot σ
  ∧ _d3cola σ' = _d3cola σ.

(** *** Parallel edges, as the spec words them *)

(** Two pairs of endpoint indices that are the same unordered pair. *)
Definition same_pair (p q : nat * nat) : Prop :=
  (p.1 = q.1 ∧ p.2 = q.2) ∨ (p.1 = q.2 ∧ p.2 = q.1).

Global Instance same_pair_dec p q : Decision (same_pair p q).
Proof. unfold same_pair. apply _. Defined.

(** The running count: for every edge in encounter order, how many of
    the edges seen before it join the same unordered pair. [seen] holds
    the pairs of the edges already met. *)
Fixpoint ranks_from (seen ps : list (nat * nat)) : list nat :=
  match ps with
  | [] => []
  | p :: ps' =>
      length (filter (λ q, same_pair q p) seen) :: ranks_from (seen ++ [p]) ps'
  end.

(** The [parallel] fields and the endpoint indices of the edges of
    [edges1], in encounter order. *)
Definition parallels (σ : store) (edges1 : list loc) : list (option nat) :=
  (λ l, eheap σ !! l ≫= parallel) <$> edges1.

(** The entry [em[a][b]], and a square matrix of side [n]. *)
Definition entry (em : list (list nat)) (a b : nat) : nat :=
  default 0 (em !! a ≫= λ row, row !! b).
Definition square (n : nat) (em : list (list nat)) : Prop :=
  length em = n ∧ Forall (λ row, length row = n) em.


(** *** Constraint translation, as the spec words it *)

(** One gap constraint for each adjacent pair of the sorted nodes, from
    the index of the left node to the index of the right node. *)
Definition adjacent_gaps (axis : string) (gap : R) (sorted : list (NodeRec * nat))
  : list (constraint NodeRec sortkey nat) :=
  (λ p : (NodeRec * nat) * (NodeRec * nat), Gap axis p.1.2 p.2.2 gap)
    <$> zip sorted (tail sorted).

(** The gap constraints that stand for one ordering constraint: those
    of the adjacent pairs of the named nodes, sorted by the ordering key. *)
Definition ordering_gaps (quicksort_by : ∀ A : Type, (A → sortkey) → list A → list A)
  (σ : store) (c : constraint NodeRec sortkey nat) : list (constraint NodeRec sortkey nat) :=
  match c with
  | Ordering f keys axis gap =>
      adjacent_gaps axis gap
        (quicksort_by _ (λ w : NodeRec * nat, f w.1) (omap (wrapper_of σ) keys))
  | _ => []
  end.

(** The ring radius with the constraint's distance, or 4×baseLength when
    the distance is absent. *)
Definition radius_as_specified (d : option R) (n : nat) : R :=
  (default (4 * baseLength _chart) d / (2 * sin (PI / INR n)))%R.

(** The same with a distance of zero counted as absent. *)
Definition radius_as_amended (d : option R) (n : nat) : R :=
  ((match d with
    | Some r => if Req_dec_T r 0 then 4 * baseLength _chart else r
    | None => 4 * baseLength _chart
    end) / (2 * sin (PI / INR n)))%R.

(** The wheel links of one circle constraint over the nodes at [ns],
    for a ring of radius [r]. *)
Definition ring_links (wheel_edges : (nat → option key) → list nat → option R → list wheel_edge)
  (σ : store) (nodes1 : list loc) (ns : list nat) (r : R) : list link :=
  (λ e, WheelLink e (_nodes σ !! sourcename e) (_nodes σ !! targetname e))
    <$> wheel_edges (namef _chart σ nodes1) ns (Some r).

(** *** Between two calls of [redraw] *)

(** What the layout engine (or a drag) may do to the store between two
    calls: it writes [x], [y] and [fixed] of node wrappers, nothing else. *)
Definition engine_moved (σ σ' : store) : Prop :=
  _nodes σ' = _nodes σ ∧ _edges σ' = _edges σ ∧ eheap σ' = eheap σ
  ∧ nnext σ' = nnext σ ∧ enext σ' = enext σ
  ∧ _nodes_snapshot σ' = _nodes_snapshot σ ∧ _edges_snapshot σ' = _edges_snapshot σ
  ∧ _d3cola σ' = _d3cola σ
  ∧ ∀ l, match nheap σ !! l, nheap σ' !! l with
         | Some v1, Some v1' => orig v1' = orig v1 ∧ index v1' = index v1
         | None, None => True
         | _, _ => False
         end.

(** An edge record whose wrapper passes the filter of [edges1]: the last
    record of its key names two keys of the node records. *)
Definition visible (nodes : list NodeRec) (edges : list EdgeRec) (e : EdgeRec) : Prop :=
  match last_with_key (edgeKeyAccessor _chart) (edgeKeyAccessor _chart e) edges with
  | Some e' =>
      sourceAccessor _chart e' ∈ nodeKeyAccessor _chart <$> nodes
      ∧ targetAccessor _chart e' ∈ nodeKeyAccessor _chart <$> nodes
  | None => False
  end.

Global Instance visible_dec nodes edges e : Decision (visible nodes edges e).
Proof. unfold visible. destruct (last_with_key _ _ _); apply _. Defined.

(** An edge wrapper keeps its endpoints when only [parallel] fields change. *)
Definition same_edge (e1 e1' : edge_obj EdgeRec) : Prop :=
  source e1' = source e1 ∧ target e1' = target e1 ∧ e_orig e1' = e_orig e1.

(** What the proofs need of [crossfilter.quicksort.by]: it returns its
    input in another order. *)
Definition sort_permutes (quicksort_by : ∀ A : Type, (A → sortkey) → list A → list A)
  : Prop :=
  ∀ A f (l : list A), quicksort_by A f l ≡ₚ l.

End views.

End Views.

(** ** A concrete diagram for the examples

    Records as a crossfilter group returns them, with the default
    accessors of the chart; an insertion sort (what
    [crossfilter.quicksort] runs on short arrays) and a serializer stand
    for the library functions. *)

Module Example.
Import Diagram.

Record node_kv := NodeKV {
  nkey : string;
  nfixed : option coord;
  nx : option R;
  ny : option R;
  nrank : nat
}.
Record edge_kv := EdgeKV {
  ekey : string;
  esource : string;
  etarget : string;
  notLayout : bool
}.

Fixpoint insert_by {A} (f : A → nat) (a : A) (l : list A) : list A :=
  match l with
  | [] => [a]
  | b :: l' => if decide (f a < f b) then a :: b :: l' else b :: insert_by f a l'
  end.
Definition insertionsort_by (A : Type) (f : A → nat) (l : list A) : list A :=
  foldl (λ acc a, insert_by f a acc) [] l.

Definition stringify {A} (name : A → string) (l : list (option A)) : string :=
  String.concat "," (map (λ o, match o with Some a => name a | None => "null" end) l).

(** A closed cycle over the ring, for [dc_graph.wheel_edges]. *)
Definition ring (namef : nat → option key) (nindices : list nat) (r : option R)
  : list wheel_edge :=
  match nindices with
  | [] => []
  | i0 :: rest =>
      omap (λ p : nat * nat, s ← namef p.1; t ← namef p.2; Some (WheelEdge s t None))
           (zip nindices (rest ++ [i0]))
  end.

(** The chart with its default properties, and [constrain] as given. *)
Definition chart_with
  (constrain : list (node_obj node_kv) → list (edge_obj edge_kv)
               → list (constraint node_kv nat key))
  (limit : Z) : chart node_kv edge_kv nat :=
  Chart nkey ekey esource etarget (Some nfixed) None None (λ e, negb (notLayout e))
        constrain false false false 5%R 30%R limit true.

Definition chart0 : chart node_kv edge_kv nat := chart_with (λ _ _, []) 0.

Definition redraw_with c :=
  redraw nx ny c insertionsort_by (stringify nkey) (stringify ekey) ring.
Definition redraw0 := redraw_with chart0.

(** The store once [render()] has made [initLayout] create the engine. *)
Definition rendered : store node_kv edge_kv :=
  Store ∅ ∅ ∅ ∅ 0 0 None None true.

(** The engine assigns the position ([px], [py]) to the node wrapper [l]. *)
Definition place (l : loc) (px py : R) (σ : store node_kv edge_kv)
  : store node_kv edge_kv :=
  set_nheap (alter (λ v1, NodeObj (orig v1) (index v1) (Some px) (Some py) (fixed v1))
                   l (nheap σ)) σ.

(** The outcome and the store of a call of [redraw] that returned. *)
Definition outcome_of (r : option (outcome node_kv nat * store node_kv edge_kv))
  : outcome node_kv nat :=
  match r with
  | Some (o, _) => o
  | None => Outcome [] [] (0, 0) false []
  end.
Definition store_of (r : option (outcome node_kv nat * store node_kv edge_kv))
  : store node_kv edge_kv :=
  match r with
  | Some (_, σ) => σ
  | None => rendered
  end.

(** The chart with a time limit of 100 ms. *)
Definition chart_limit : chart node_kv edge_kv nat := chart_with (λ _ _, []) 100.

Definition A := NodeKV "A" None None None 0.
Definition B := NodeKV "B" None None None 1.
Definition C := NodeKV "C" None None None 2.
Definition D := NodeKV "D" None None None 3.
(** A node the fixed accessor marks fixed, at (3, 4); the record itself
    has no fields [x] and [y]. *)
Definition F := NodeKV "F" (Some (Coord (Some 3%R) (Some 4%R))) None None 4.
Definition e1 := EdgeKV "e1" "A" "B" false.
Definition e2 := EdgeKV "e2" "A" "B" false.
Definition e3 := EdgeKV "e3" "B" "C" false.

(** The first redraw of the nodes A, B with the edge e1. *)
Definition first_AB := redraw0 [A; B] [e1] rendered.
(** The same records redrawn once more. *)
Definition second_AB := redraw0 [A; B] [e1] (store_of first_AB).

(** The nodes A, B, C with the edges e1, e2 (both from A to B) and e3. *)
Definition first_ABC := redraw0 [A; B; C] [e1; e2; e3] rendered.
(** Then C and the edges e2, e3 leave the record sets. *)
Definition then_AB := redraw0 [A; B] [e1] (store_of first_ABC).

(** Cycles under a time limit of 100 ms. *)
Definition limited := redraw_with chart_limit [A; B] [e1] rendered.
Definition limited_again := redraw_with chart_limit [A; B] [e1] (store_of limited).

(** A chart whose [constrain] orders C, A, B by rank along x, 50 apart,
    and the nodes A, B, C drawn with it. *)
Definition chart_ordered : chart node_kv edge_kv nat :=
  chart_with (λ _ _, [Ordering nrank ["C"; "A"; "B"] "x" 50%R]) 0.
Definition ordered_ABC := redraw_with chart_ordered [A; B; C] [e1; e2; e3] rendered.

(** A chart whose [constrain] puts A, B, C, D on a circle, with no
    distance given, and the four nodes drawn with it. *)
Definition chart_circle : chart node_kv edge_kv nat :=
  chart_with (λ _ _, [Circle None ["A"; "B"; "C"; "D"]]) 0.
Definition circled := redraw_with chart_circle [A; B; C; D] [e1] rendered.

(** The fixed node F is drawn, the engine puts its wrapper at (100, 50),
    and the same records are redrawn. *)
Definition first_F := redraw0 [F] [] rendered.
Definition moved_F := place 0 100 50 (store_of first_F).
Definition second_F := redraw0 [F] [] moved_F.

(** The nodes A and B are not fixed: the engine moves A, the records are
    redrawn, and A stays where the engine left it. *)
Definition moved_AB := place 0 100 50 (store_of first_AB).
Definition again_AB := redraw0 [A; B] [e1] moved_AB.

(** Port placement: the node at the origin with one port, whose single
    edge goes to a node at (10, 0); the port has no preset theta and no
    bounds. *)
Definition origin : PlacePorts.wnode := PlacePorts.WNode 0 0 0.
Definition east : PlacePorts.wnode := PlacePorts.WNode 1 10 0.
Definition east_port : PlacePorts.port :=
  PlacePorts.Port false [PlacePorts.WEdge origin east] None None
    PlacePorts.VecUndefined None.

(** A port with bounds [0, π/2] and theta π, and a test of an angle
    against bounds [a ≤ b] that stands for [between_angles]. *)
Definition west_port : PlacePorts.port :=
  PlacePorts.Port true [] (Some PI) (Some (0%R, (PI / 2)%R)) PlacePorts.VecUndefined None.
Definition between_closed (t a b : R) : bool :=
  if Rle_dec a t then (if Rle_dec t b then true else false) else false.

End Example.

(** ** Port names

    [port_name] and [split_port_name], the two functions at the head of
    [src/place_ports.js], and the dictionary [node_ports] that
    [dc_graph.place_ports] assembles and returns. A string is the sequence
    of its code units. *)

Module PortNames.
Import Stdlib.Strings.Ascii.

(** The separator of the parts of a port name. *)
Definition slash : ascii := "/"%char.

(** A key or [null] used as a condition: [null] and the empty string are
    falsy. *)
Definition truthy_key (i : option key) : bool :=
  match i with
  | Some s => negb (String.eqb s EmptyString)
  | None => false
  end.

(** A key or [null] as an operand of a string concatenation. *)
Definition to_string (i : option key) : string := default "null" i.

(** [port_name(nodeId, edgeId, portName)] *)
Definition port_name (nodeId edgeId : option key) (portName : string) : string :=
  ((if truthy_key nodeId then "node/" +:+ to_string nodeId
    else "edge/" +:+ to_string edgeId) +:+ "/") +:+ portName.

(** [s.split(sep)] for a separator of one code unit: the pieces between
    the separators, of which there is always at least one. *)
Fixpoint split (sep : Ascii.ascii) (s : string) : list string :=
  match s with
  | EmptyString => [EmptyString]
  | String c s' =>
      if decide (c = sep) then EmptyString :: split sep s'
      else match split sep s' with
           | p :: ps => String c p :: ps
           | [] => [String c EmptyString]
           end
  end.

(** What [split_port_name] returns: an object with the fields [nodeKey]
    and [name], or one with the fields [edgeKey] and [name]. A part that
    the array does not have is [undefined]. *)
Inductive port_ref :=
| NodePort (nodeKey name : option string)
| EdgePort (edgeKey name : option string).

Global Instance port_ref_eq_dec : EqDecision port_ref.
Proof. solve_decision. Defined.

(** [split_port_name(portname)] *)
Definition split_port_name (portname : string) : port_ref :=
  let parts := split slash portname in
  if decide (parts !! 0 = Some "node") then NodePort (parts !! 1) (parts !! 2)
  else EdgePort (parts !! 1) (parts !! 2).

(** Whether a string holds the code unit [c]. *)
Fixpoint occurs (c : Ascii.ascii) (s : string) : bool :=
  match s with
  | EmptyString => false
  | String c' s' => bool_decide (c' = c) || occurs c s'
  end.

(** The kind and the identifier that [port_name] puts into the name. *)
Definition kind_of (nodeId : option key) : string :=
  if truthy_key nodeId then "node" else "edge".
Definition id_of (nodeId edgeId : option key) : string :=
  if truthy_key nodeId then to_string nodeId else to_string edgeId.

Section node_ports.
Context {P : Type}.
(** [diagram.nodeKey.eval(p.node)] *)
Variable nodeKey : P → key.

(** The body of [wports.forEach]:
    [var np = node_ports[nid] = node_ports[nid] || []; np.push(p);] *)
Definition push (node_ports : gmap string (list P)) (p : P) : gmap string (list P) :=
  let nid := nodeKey p in
  <[nid := default [] (node_ports !! nid) ++ [p]]> node_ports.

(** [node_ports] once [wports.forEach] has run. *)
Definition node_ports (wports : list P) : gmap string (list P) :=
  foldl push ∅ wports.

End node_ports.

End PortNames.

(** ** Port placement: what the properties of the directions need *)

Module PortViews.
Import PlacePorts.
Local Open Scope R_scope.

(** The positions of the two ends of an edge differ. *)
Definition proper (e : wedge) : Prop :=
  (cola_x (e_target e) - cola_x (e_source e), cola_y (e_target e) - cola_y (e_source e))
  ≠ (0, 0).

End PortViews.

(** ** Identifiers of edge elements *)

Module EdgeId.
Import Stdlib.Strings.Ascii.
Import Diagram.

(** The code units [-] and [_]. *)
Definition dash : ascii := "-"%char.
Definition underscore : ascii := "_"%char.

(** The class [\w]: a letter, a digit or the underscore. *)
Definition word_char (c : Ascii.ascii) : bool :=
  let n := Ascii.nat_of_ascii c in
  ((48 <=? n) && (n <=? 57)) || ((65 <=? n) && (n <=? 90))
  || ((97 <=? n) && (n <=? 122)) || (n =? 95).

(** A code unit that [/[^\w-_]/] does not match: [\w], [-] or [_]. *)
Definition kept (c : Ascii.ascii) : bool :=
  word_char c || bool_decide (c = dash) || bool_decide (c = underscore).

(** [s.replace(/[^\w-_]/g, '-')] *)
Fixpoint replace_unsafe (s : string) : string :=
  match s with
  | EmptyString => EmptyString
  | String c s' => String (if kept c then c else dash) (replace_unsafe s')
  end.

Section edge_id.
Context {NodeRec EdgeRec sortkey : Type}.
Variable _chart : chart NodeRec EdgeRec sortkey.

(** [edge_id(d)]: the key accessor is applied to [d.orig], and reading
    the key of a wrapper without [orig] throws. *)
Definition edge_id (d : edge_obj EdgeRec) : option string :=
  e ← e_orig d; Some ("edge-" +:+ replace_unsafe (edgeKeyAccessor _chart e)).

End edge_id.

(** The code units of a string. *)
Fixpoint units (s : string) : list Ascii.ascii :=
  match s with
  | EmptyString => []
  | String c s' => c :: units s'
  end.

End EdgeId.

(** ** The shape of a node *)

Module BuildNode.

Local Open Scope R_scope.

(** What [this.getBBox()] returns for the label. *)
Record bbox := BBox { b_width : R; b_height : R }.

(** The fields that the callback of [.each] in [_buildNode] assigns to
    the node wrapper [d]. *)
Record node_shape := NodeShape {
  dcg_rx : R;
  dcg_ry : R;
  width : R;
  height : R
}.

Section build.
(** [_chart.nodePadding()] *)
Variable nodePadding : R.

(** The callback of [.each] in [_chart._buildNode]: [r] is what the
    radius accessor returns for [d], [fit] what [nodeFitLabelAccessor]
    returns, [label] the bounding box of the text element. The result is
    [None] when the numbers that the code assigns are not real numbers:
    with a fitted label and [r = 0] the code divides by zero; with a
    label as high as the node or higher, [1 - y_over_B*y_over_B] is zero
    or negative, and [rx] is a quotient by zero ([Infinity]) or by the
    root of a negative number ([NaN]). *)
Definition _buildNode (r : R) (fit : bool) (label : bbox) : option node_shape :=
  let rplus := r * 2 + nodePadding in
  let bbox := if fit then Some label else None in
  let fitx := 0 in
  match bbox with
  | Some b =>
      if Diagram.truthy (b_width b) && Diagram.truthy (b_height b) then
        let y_over_B := b_height b / 2 / r in
        if Diagram.truthy r then
          if Rlt_dec 0 (1 - y_over_B * y_over_B) then
            let rx := b_width b / 2 / sqrt (1 - y_over_B * y_over_B) in
            let fitx := rx * 2 + nodePadding in
            Some (NodeShape (Rmax rx r) r (Rmax fitx rplus) rplus)
          else None
        else None
      else Some (NodeShape r r (Rmax fitx rplus) rplus)
  | None => Some (NodeShape r r (Rmax fitx rplus) rplus)
  end.

End build.

End BuildNode.

(** ** The side of a parallel edge *)

Module EdgePath.

(** [!d.parallel]: the edge is drawn as a straight line. *)
Definition straight (parallel : option nat) : bool :=
  match parallel with
  | None | Some 0 => true
  | Some (S _) => false
  end.

(** [var dir = (!!(d.parallel%2) === (d.source.x < d.target.x)) ? -1 : 1] *)
Definition dir (parallel : nat) (source_x target_x : R) : Z :=
  if Bool.eqb (negb (parallel mod 2 =? 0))
              (if Rlt_dec source_x target_x then true else false)
  then (-1)%Z else 1%Z.

(** [port = Math.floor((d.parallel+1)/2) * dir] *)
Definition port (parallel : nat) (source_x target_x : R) : Z :=
  (Z.of_nat ((parallel + 1) / 2) * dir parallel source_x target_x)%Z.

End EdgePath.

(** ** Rendering

    [_chart.render], and what the properties of a redraw cycle count. *)

Module Rendering.
Import Diagram.

Section render.
Context {NodeRec EdgeRec sortkey : Type}.
Variable node_x node_y : NodeRec → option R.
Variable _chart : chart NodeRec EdgeRec sortkey.
Variable quicksort_by : ∀ A : Type, (A → sortkey) → list A → list A.
Variable JSON_stringify_nodes : list (option NodeRec) → string.
Variable JSON_stringify_edges : list (option EdgeRec) → string.
Variable wheel_edges : (nat → option key) → list nat → option R → list wheel_edge.
Local Abbreviation store := (store NodeRec EdgeRec).
Local Abbreviation signal := (signal NodeRec sortkey).
Local Abbreviation outcome := (outcome NodeRec sortkey).

(** [_chart.render]: [initLayout()] unless [redraw] is to call it, then
    [redraw()]. The reset of the SVG element and the legend are not
    modelled. *)
Definition render (nodes : list NodeRec) (edges : list EdgeRec) (σ : store)
  : option (outcome * store) :=
  let init : list signal := if initLayoutOnRedraw _chart then [] else [InitLayout] in
  let σ0 := if initLayoutOnRedraw _chart then σ else set_d3cola true σ in
  r ← redraw node_x node_y _chart quicksort_by JSON_stringify_nodes JSON_stringify_edges
         wheel_edges nodes edges σ0;
  Some (Outcome (nodes1 r.1) (edges1 r.1) (_stats r.1) (skip_layout r.1)
                (init ++ signals r.1), r.2).

(** Whether the handler of an event calls [draw]. *)
Definition draws_at (ev : engine_event) : bool :=
  match ev with
  | Tick _ => showLayoutSteps _chart
  | End => negb (showLayoutSteps _chart)
  end.

End render.

Definition is_draw {NodeRec sortkey} (s : signal NodeRec sortkey) : bool :=
  match s with Draw => true | _ => false end.
Definition is_init {NodeRec sortkey} (s : signal NodeRec sortkey) : bool :=
  match s with InitLayout => true | _ => false end.

(** How many times [draw] and [initLayout] run. *)
Definition draws {NodeRec sortkey} (l : list (signal NodeRec sortkey)) : nat :=
  length (filter (λ s, is_draw s = true) l).
Definition inits {NodeRec sortkey} (l : list (signal NodeRec sortkey)) : nat :=
  length (filter (λ s, is_init s = true) l).

(** The keys that the translation of a constraint looks up in [_nodes]:
    those of the offsets of an alignment, of the nodes of a circle, and
    the left and right node of a constraint with an axis. *)
Definition named {NodeRec sortkey} (c : constraint NodeRec sortkey key) : list key :=
  match c with
  | Alignment _ offsets => offsets.*1
  | Circle _ nodes => nodes
  | Gap _ l r _ => [l; r]
  | Ordering _ _ _ _ | Other _ => []
  end.

End Rendering.

(** ** Selection ([src/select_things.js]) *)

Module SelectThings.

(** [add_array(a, v)] *)
Definition add_array (a : list key) (v : key) : list key :=
  if decide (v ∈ a) then a else a ++ [v].

(** [toggle_array(a, v)] *)
Definition toggle_array (a : list key) (v : key) : list key :=
  if decide (v ∈ a) then filter (λ x, x ≠ v) a else a ++ [v].

(** The modifier keys of [d3.event]. *)
Record event := Event { shiftKey : bool; metaKey : bool; ctrlKey : bool }.

(** A node wrapper as the brush reads it: [orig.key], [cola.x], [cola.y]. *)
Record node := Node { n_key : key; n_x : R; n_y : R }.

Section select_things.
(** [navigator.platform] names a Mac. *)
Variable is_a_mac : bool.

Definition isUnion (ev : event) : bool := shiftKey ev.
Definition isToggle (ev : event) : bool := if is_a_mac then metaKey ev else ctrlKey ev.

(** The filter of [brushmove]: the node lies strictly inside the extent
    [[x0, y0], [x1, y1]]; an element without datum is dropped. *)
Definition in_extent (ext : (R * R) * (R * R)) (n : option node) : bool :=
  match n with
  | Some n =>
      (if Rlt_dec ext.1.1 (n_x n) then true else false)
      && (if Rlt_dec (n_x n) ext.2.1 then true else false)
      && (if Rlt_dec ext.1.2 (n_y n) then true else false)
      && (if Rlt_dec (n_y n) ext.2.2 then true else false)
  | None => false
  end.

(** [rectSelect]: the keys of the nodes inside the extent. *)
Definition rectSelect (ext : (R * R) * (R * R)) (data : list (option node)) : list key :=
  omap (λ n : option node, n_key <$> n) (filter (λ n, in_extent ext n = true) data).

(** [brushmove(ext)]: the selection that is passed to [set_changed]. *)
Definition brushmove (ext : (R * R) * (R * R)) (data : list (option node))
  (ev : event) (_oldSelected : list key) : list key :=
  if isUnion ev then foldl add_array _oldSelected (rectSelect ext data)
  else if isToggle ev then foldl toggle_array _oldSelected (rectSelect ext data)
  else rectSelect ext data.

(** The block guarded by [autoCropSelection]: the selection that is
    passed to [set_changed], when one is. *)
Definition crop (present _selected : list key) : option (list key) :=
  let now_selected := filter (λ k, k ∈ present) _selected in
  if decide (length _selected ≠ length now_selected) then Some now_selected else None.

End select_things.

End SelectThings.

(** ** Spline paths ([draw_spline_paths]) *)

Module SplinePaths.
Local Open Scope R_scope.

(** An element of a path, by what [pathreader.elementType] says of it. *)
Inductive element :=
| NodeElement (nodeKey : key)
| EdgeElement
| OtherElement.

(** A position [{x, y}]. *)
Record position := Position { p_x : R; p_y : R }.

Section spline.
(** [_chart.getNodeAllInfo(key)], reduced to the position [cola.x],
    [cola.y] of the node; [null] for a key the chart does not show. *)
Variable getNodeAllInfo : key → option position.

(** [getNodePosition(path)] *)
Definition getNodePosition (path : list element) : list position :=
  omap (λ el, match el with
              | NodeElement k => getNodeAllInfo k
              | EdgeElement | OtherElement => None
              end) path.

(** [pathExists(paths)] *)
Definition pathExists (paths : list (list element)) : bool :=
  bool_decide (0 < foldl (λ nodesCount d, nodesCount + length (getNodePosition d)) 0 paths)%nat.

End spline.

(** [_distance(node1, node2)] *)
Definition _distance (node1 node2 : position) : R :=
  sqrt ((p_x node1 - p_x node2) ^ 2 + (p_y node1 - p_y node2) ^ 2).

Definition offset : R := 10.

(** The inserted point for the positions [(x1, y1)] and [(x2, y2)]: their
    middle, moved by [offset] along [(v1, v2)]. *)
Definition insert_plus (a b : position) : position :=
  let dx := p_x a - p_x b in
  let dy := p_y a - p_y b in
  let v1 := dy / sqrt (dx * dx + dy * dy) in
  let v2 := - dx / sqrt (dx * dx + dy * dy) in
  Position ((p_x a + p_x b) / 2 + offset * v1) ((p_y a + p_y b) / 2 + offset * v2).

(** The same, moved the other way. *)
Definition insert_minus (a b : position) : position :=
  let dx := p_x a - p_x b in
  let dy := p_y a - p_y b in
  let v1 := dy / sqrt (dx * dx + dy * dy) in
  let v2 := - dx / sqrt (dx * dx + dy * dy) in
  Position ((p_x a + p_x b) / 2 - offset * v1) ((p_y a + p_y b) / 2 - offset * v2).

(** One iteration of the loop of [parsePath] that inserts the dummy
    nodes: what it pushes to [new_path_coord] at position [i]. *)
Definition pushed (path_coord : list position) (i : nat) (p : position) : list position :=
  match i with
  | 0%nat => [p]
  | S j =>
      match path_coord !! j, path_coord !! S i with
      | Some prev, Some next =>
          if (if Req_dec_T (p_x prev) (p_x next) then true else false)
             && (if Req_dec_T (p_y prev) (p_y next) then true else false)
          then [insert_plus prev p; p; insert_minus prev p]
          else if Rlt_dec (_distance prev next) 20
          then [insert_plus prev p; p; insert_plus p next]
          else [p]
      | _, _ => [p]
      end
  end.

(** [new_path_coord] at the end of the loop. *)
Definition new_path_coord (path_coord : list position) : list position :=
  concat (imap (pushed path_coord) path_coord).

End SplinePaths.

(** ** Concrete inputs for the examples of port placement and selection *)

Module Samples.
Import PlacePorts.
Local Open Scope R_scope.

(** The edge from the node at the origin to the node at (10, 0). *)
Definition eastward : wedge := WEdge Example.origin Example.east.

(** A port that comes with the angle 1 and without bounds. *)
Definition set_port : port := Port false [] (Some 1) None VecUndefined None.

(** Stand-ins for the helpers [point_on_shape] and
    [normalize_angle_delta], for a port specification without bounds and
    for [Math.random()]. *)
Definition on_shape (n : wnode) (x y : R) : point := Point (cola_x n + x) (cola_y n + y).
Definition delta (a : R) : R := a.
Definition unbounded (p : port) : option (R * R) := None.
Definition half (k : nat) : R := 1 / 2.

End Samples.

(** ** Further charts for the examples *)

Module Charts.
Import Diagram Example.

(** The chart with [layoutUnchanged] set. *)
Definition chart_always : chart node_kv edge_kv nat :=
  Chart nkey ekey esource etarget (Some nfixed) None None (λ e, negb (notLayout e))
        (λ _ _, []) false false true 5%R 30%R 0 true.

(** The chart that draws at the end only, with a time limit of 100 ms. *)
Definition chart_quiet : chart node_kv edge_kv nat :=
  Chart nkey ekey esource etarget (Some nfixed) None None (λ e, negb (notLayout e))
        (λ _ _, []) false false false 5%R 30%R 100 false.

(** The chart that shows only the nodes that an edge names. *)
Definition chart_induced : chart node_kv edge_kv nat :=
  Chart nkey ekey esource etarget (Some nfixed) None None (λ e, negb (notLayout e))
        (λ _ _, []) true false false 5%R 30%R 0 true.

(** A chart whose [constrain] asks for a gap between A and a node Z. *)
Definition chart_gap : chart node_kv edge_kv nat :=
  chart_with (λ _ _, [Gap "x" "A" "Z" 10%R]) 0.

(** The first render of the nodes A, B with the edge e1. *)
Definition rendered_AB :=
  Rendering.render nx ny chart0 insertionsort_by (stringify nkey) (stringify ekey) ring
    [A; B] [e1] init_store.

(** The records A, B, e1 redrawn after [relayout()]. *)
Definition relaid_AB := redraw0 [A; B] [e1] (relayout (store_of first_AB)).

(** The records redrawn twice while [layoutUnchanged] is set. *)
Definition always_AB := redraw_with chart_always [A; B] [e1] rendered.
Definition always_again := redraw_with chart_always [A; B] [e1] (store_of always_AB).

(** A cycle of the chart that draws at the end only. *)
Definition quiet_AB := redraw_with chart_quiet [A; B] [e1] rendered.

(** An edge from A to a node that is not among the records. *)
Definition dangling := EdgeKV "e9" "A" "Z" false.

(** The nodes A, B, C with e1 and the dangling edge. *)
Definition with_dangling := redraw0 [A; B; C] [e1; dangling] rendered.

(** C leaves the records (as in [then_AB]), the engine moves A, and C
    returns. *)
Definition moved_then := place 0 100 50 (store_of then_AB).
Definition back_ABC := redraw0 [A; B; C] [e1; e2; e3] moved_then.

End Charts.

(** * Theorems *)

Import Diagram Views.

Section table_facts.
Context {A : Type}.
Variable empty : A.
Implicit Types (tb : Table.t A) (k : key) (f : A → A) (l : loc).
Import Table.

Lemma touch_dict_key tb k f :
  dict (touch empty k f tb).2 !! k = Some (touch empty k f tb).1.
Proof.
  unfold touch. destruct (dict tb !! k) eqn:E; simpl; [done|].
  by rewrite lookup_insert_eq.
Qed.

Lemma touch_dict_other tb k f k' :
  k' ≠ k → dict (touch empty k f tb).2 !! k' = dict tb !! k'.
Proof.
  intros Hne. unfold touch. destruct (dict tb !! k) eqn:E; simpl; [done|].
  by rewrite lookup_insert_ne.
Qed.

Lemma touch_dict_mono tb k f k' l :
  dict tb !! k' = Some l → dict (touch empty k f tb).2 !! k' = Some l.
Proof.
  intros H. destruct (decide (k' = k)) as [->|Hne].
  - rewrite touch_dict_key. unfold touch. by rewrite H.
  - by rewrite touch_dict_other.
Qed.

Lemma touch_fresh tb k f :
  dict tb !! k = None → (touch empty k f tb).1 = next tb.
Proof. intros H. unfold touch. by rewrite H. Qed.

Lemma touch_next tb k f : next tb ≤ next (touch empty k f tb).2.
Proof. unfold touch. destruct (dict tb !! k); simpl; lia. Qed.

Lemma touch_heap_other tb k f l :
  l ≠ (touch empty k f tb).1 → heap (touch empty k f tb).2 !! l = heap tb !! l.
Proof.
  unfold touch. destruct (dict tb !! k) eqn:E; simpl; intros Hne.
  - by rewrite lookup_alter_ne.
  - rewrite lookup_alter_ne by done. by rewrite lookup_insert_ne.
Qed.

Lemma touch_heap_key tb k f :
  wf tb →
  heap (touch empty k f tb).2 !! (touch empty k f tb).1 = Some (f (object_of empty tb k)).
Proof.
  intros (Hex & _ & _). unfold touch, object_of.
  destruct (dict tb !! k) as [l|] eqn:E; simpl.
  - destruct (Hex _ _ E) as [o Ho]. rewrite lookup_alter_eq. simpl. rewrite !Ho. done.
  - rewrite lookup_alter_eq, lookup_insert_eq. done.
Qed.

Lemma touch_wf tb k f : wf tb → wf (touch empty k f tb).2.
Proof.
  intros (Hex & Hlt & Hinj). unfold touch.
  destruct (dict tb !! k) as [l|] eqn:E; simpl; repeat split; simpl.
  - intros k' l' H'. rewrite lookup_alter_is_Some. eauto.
  - intros l'. rewrite lookup_alter_is_Some. eauto.
  - done.
  - intros k' l' H'. rewrite lookup_alter_is_Some.
    destruct (decide (k' = k)) as [->|Hne].
    + rewrite lookup_insert_eq in H'. simplify_eq. rewrite lookup_insert_eq. eauto.
    + rewrite lookup_insert_ne in H' by done.
      destruct (decide (l' = next tb)) as [->|]; [rewrite lookup_insert_eq; eauto|].
      rewrite lookup_insert_ne by done. eauto.
  - intros l'. rewrite lookup_alter_is_Some.
    destruct (decide (l' = next tb)) as [->|]; [lia|].
    rewrite lookup_insert_ne by done. intros H'%Hlt. lia.
  - intros k1 k2 l' H1 H2.
    destruct (decide (k1 = k)) as [->|Hne1], (decide (k2 = k)) as [->|Hne2]; try done.
    + rewrite lookup_insert_eq in H1. rewrite lookup_insert_ne in H2 by done.
      simplify_eq. apply Hex, Hlt in H2. lia.
    + rewrite lookup_insert_eq in H2. rewrite lookup_insert_ne in H1 by done.
      simplify_eq. apply Hex, Hlt in H1. lia.
    + rewrite lookup_insert_ne in H1, H2 by done. eauto.
Qed.

(** The object of another key is not the one [touch] mutates. *)
Lemma touch_object_other tb k f k' :
  wf tb → k' ≠ k → object_of empty (touch empty k f tb).2 k' = object_of empty tb k'.
Proof.
  intros Hwf Hne. unfold object_of. rewrite touch_dict_other by done.
  destruct (dict tb !! k') as [l'|] eqn:E'; simpl; [|done].
  rewrite touch_heap_other; [done|].
  destruct Hwf as (Hex & Hlt & Hinj). unfold touch.
  destruct (dict tb !! k) as [l|] eqn:E; simpl.
  - intros ->. apply Hne. eauto.
  - intros ->. apply Hex, Hlt in E'. lia.
Qed.

Lemma touch_object_key tb k f :
  wf tb → object_of empty (touch empty k f tb).2 k = f (object_of empty tb k).
Proof.
  intros Hwf. unfold object_of at 1. rewrite touch_dict_key. simpl.
  by rewrite touch_heap_key.
Qed.

Lemma touch_all_cons it items tb :
  touch_all empty (it :: items) tb =
  ((touch empty it.1 it.2 tb).1 :: (touch_all empty items (touch empty it.1 it.2 tb).2).1,
   (touch_all empty items (touch empty it.1 it.2 tb).2).2).
Proof.
  simpl. destruct (touch empty it.1 it.2 tb) as [l tb1]. simpl.
  by destruct (touch_all empty items tb1).
Qed.

Lemma touch_all_wf items tb : wf tb → wf (touch_all empty items tb).2.
Proof.
  revert tb. induction items as [|it items IH]; intros tb Hwf; [done|].
  rewrite touch_all_cons. simpl. by apply IH, touch_wf.
Qed.

Lemma touch_all_next items tb : next tb ≤ next (touch_all empty items tb).2.
Proof.
  revert tb. induction items as [|it items IH]; intros tb; [done|].
  rewrite touch_all_cons. simpl. etrans; [apply (touch_next tb it.1 it.2)|apply IH].
Qed.

Lemma touch_all_dict_mono items tb k l :
  dict tb !! k = Some l → dict (touch_all empty items tb).2 !! k = Some l.
Proof.
  revert tb. induction items as [|it items IH]; intros tb H; [done|].
  rewrite touch_all_cons. simpl. by apply IH, touch_dict_mono.
Qed.

Lemma touch_all_dict_other items tb k :
  k ∉ items.*1 → dict (touch_all empty items tb).2 !! k = dict tb !! k.
Proof.
  revert tb. induction items as [|it items IH]; intros tb H; [done|].
  rewrite touch_all_cons. simpl. rewrite fmap_cons in H.
  apply not_elem_of_cons in H as [H1 H2].
  rewrite IH by done. by apply touch_dict_other.
Qed.

Lemma touch_all_dict_key items tb k :
  k ∈ items.*1 → is_Some (dict (touch_all empty items tb).2 !! k).
Proof.
  revert tb. induction items as [|it items IH]; intros tb H.
  - by apply elem_of_nil in H.
  - rewrite touch_all_cons. simpl. rewrite fmap_cons in H.
    apply elem_of_cons in H as [->|H]; [|by apply IH].
    eexists. apply touch_all_dict_mono, touch_dict_key.
Qed.

(** The wrappers returned are those the dictionary holds at the end. *)
Lemma touch_all_result items tb :
  Forall2 (λ it l, dict (touch_all empty items tb).2 !! it.1 = Some l)
          items (touch_all empty items tb).1.
Proof.
  revert tb. induction items as [|it items IH]; intros tb; [constructor|].
  rewrite touch_all_cons. simpl. constructor; [|apply IH].
  apply touch_all_dict_mono, touch_dict_key.
Qed.

(** A key that had no wrapper gets one that did not exist before. *)
Lemma touch_all_fresh items tb k l :
  wf tb → dict tb !! k = None → dict (touch_all empty items tb).2 !! k = Some l →
  next tb ≤ l.
Proof.
  revert tb. induction items as [|it items IH]; intros tb Hwf Hn H.
  - simpl in H. congruence.
  - rewrite touch_all_cons in H. simpl in H.
    destruct (decide (k = it.1)) as [->|Hne].
    + pose proof (touch_dict_key tb it.1 it.2) as Hk.
      apply (touch_all_dict_mono items) in Hk. rewrite Hk in H. simplify_eq.
      by rewrite touch_fresh.
    + etrans; [apply (touch_next tb it.1 it.2)|].
      apply IH; [by apply touch_wf| |done].
      by rewrite touch_dict_other.
Qed.

(** The object of a key at the end: its object at the start, or [{}],
    after the mutations recorded for that key, in order. *)
Lemma touch_all_object items tb k :
  wf tb →
  object_of empty (touch_all empty items tb).2 k
  = mutate k items (object_of empty tb k).
Proof.
  revert tb. induction items as [|it items IH]; intros tb Hwf; [done|].
  rewrite touch_all_cons. simpl. rewrite IH by by apply touch_wf.
  f_equal. case_decide as Hk.
  - subst k. by apply touch_object_key.
  - by apply touch_object_other.
Qed.

(** An object whose key [items] does not mention is left as it was. *)
Lemma touch_all_heap_frame items tb l :
  wf tb → l < next tb → (∀ k, dict tb !! k = Some l → k ∉ items.*1) →
  heap (touch_all empty items tb).2 !! l = heap tb !! l.
Proof.
  revert tb. induction items as [|it items IH]; intros tb Hwf Hl Hno; [done|].
  rewrite touch_all_cons. simpl.
  assert (l ≠ (touch empty it.1 it.2 tb).1) as Hne.
  { unfold touch. destruct (dict tb !! it.1) as [l'|] eqn:E; simpl; [|lia].
    intros ->. apply (Hno _ E). rewrite fmap_cons. apply elem_of_cons. by left. }
  rewrite IH.
  - by apply touch_heap_other.
  - by apply touch_wf.
  - pose proof (touch_next tb it.1 it.2). lia.
  - intros k Hk. destruct (decide (k = it.1)) as [->|Hk'].
    + rewrite touch_dict_key in Hk. simplify_eq.
    + rewrite touch_dict_other in Hk by done.
      specialize (Hno _ Hk). rewrite fmap_cons in Hno.
      by apply not_elem_of_cons in Hno as [_ ?].
Qed.

Lemma object_of_lookup tb k l :
  wf tb → dict tb !! k = Some l → heap tb !! l = Some (object_of empty tb k).
Proof.
  intros (Hex & _) H. unfold object_of. rewrite H. simpl.
  by destruct (Hex _ _ H) as [o ->].
Qed.

End table_facts.

Section bridge.
Context {NodeRec EdgeRec sortkey : Type}.
Variable node_x node_y : NodeRec → option R.
Variable _chart : chart NodeRec EdgeRec sortkey.
Local Abbreviation store := (store NodeRec EdgeRec).
Local Abbreviation wrap_node := (wrap_node node_x node_y _chart).
Local Abbreviation wrap_edge := (wrap_edge _chart).
Local Abbreviation map_wrap_node := (map_wrap_node node_x node_y _chart).
Local Abbreviation map_wrap_edge := (map_wrap_edge _chart).
Local Abbreviation node_items := (node_items node_x node_y _chart).
Local Abbreviation edge_items := (edge_items _chart).
Local Abbreviation reconcile := (reconcile node_x node_y _chart).

Lemma ntable_with_ntable tb (σ : store) : ntable (with_ntable tb σ) = tb.
Proof. by destruct tb. Qed.
Lemma etable_with_etable tb (σ : store) : etable (with_etable tb σ) = tb.
Proof. by destruct tb. Qed.
Lemma with_ntable_twice tb1 tb2 (σ : store) :
  with_ntable tb2 (with_ntable tb1 σ) = with_ntable tb2 σ.
Proof. done. Qed.
Lemma with_etable_twice tb1 tb2 (σ : store) :
  with_etable tb2 (with_etable tb1 σ) = with_etable tb2 σ.
Proof. done. Qed.
Lemma with_ntable_id (σ : store) : with_ntable (ntable σ) σ = σ.
Proof. by destruct σ. Qed.
Lemma with_etable_id (σ : store) : with_etable (etable σ) σ = σ.
Proof. by destruct σ. Qed.

Lemma wrap_node_touch v i (σ : store) keep :
  wrap_node v i (σ, keep) =
  let r := Table.touch empty_node (nodeKeyAccessor _chart v)
             (assign_node node_x node_y _chart v i) (ntable σ) in
  (r.1, (with_ntable r.2 σ, {[nodeKeyAccessor _chart v]} ∪ keep)).
Proof.
  unfold Diagram.wrap_node, node_wrapper, Table.touch. simpl.
  destruct σ as [n e nh eh nn en ns es d]; simpl.
  by destruct (n !! nodeKeyAccessor _chart v).
Qed.

Lemma map_wrap_node_touch_all vs i (σ : store) keep :
  map_wrap_node vs i (σ, keep) =
  let r := Table.touch_all empty_node (node_items vs i) (ntable σ) in
  (r.1, (with_ntable r.2 σ, list_to_set (nodeKeyAccessor _chart <$> vs) ∪ keep)).
Proof.
  revert i σ keep. induction vs as [|v vs IH]; intros i σ keep.
  - simpl. rewrite with_ntable_id. do 2 f_equal. simpl. by rewrite (left_id_L ∅ (∪)).
  - cbn [Diagram.map_wrap_node Views.node_items]. rewrite wrap_node_touch.
    rewrite touch_all_cons. cbn zeta. cbn [fst snd].
    rewrite IH. cbn zeta. rewrite ntable_with_ntable, with_ntable_twice.
    do 2 f_equal. rewrite fmap_cons. simpl. by rewrite (assoc_L (∪)), (comm_L (∪) (list_to_set _) {[_]}).
Qed.

Lemma wrap_edge_touch e (σ : store) keep :
  wrap_edge e (σ, keep) =
  let r := Table.touch empty_edge (edgeKeyAccessor _chart e)
             (assign_edge _chart (_nodes σ) e) (etable σ) in
  (r.1, (with_etable r.2 σ, {[edgeKeyAccessor _chart e]} ∪ keep)).
Proof.
  unfold Diagram.wrap_edge, edge_wrapper, Table.touch. simpl.
  destruct σ as [n ed nh eh nn en ns es d]; simpl.
  by destruct (ed !! edgeKeyAccessor _chart e).
Qed.

Lemma map_wrap_edge_touch_all es (σ : store) keep :
  map_wrap_edge es (σ, keep) =
  let r := Table.touch_all empty_edge (edge_items (_nodes σ) es) (etable σ) in
  (r.1, (with_etable r.2 σ, list_to_set (edgeKeyAccessor _chart <$> es) ∪ keep)).
Proof.
  revert σ keep. induction es as [|e es IH]; intros σ keep.
  - simpl. rewrite with_etable_id. do 2 f_equal. simpl. by rewrite (left_id_L ∅ (∪)).
  - cbn [Diagram.map_wrap_edge Views.edge_items map]. rewrite wrap_edge_touch.
    rewrite touch_all_cons. cbn zeta. cbn [fst snd].
    rewrite IH. cbn zeta. rewrite etable_with_etable, with_etable_twice.
    do 2 f_equal. rewrite fmap_cons. simpl. by rewrite (assoc_L (∪)), (comm_L (∪) (list_to_set _) {[_]}).
Qed.

End bridge.

Section reconcile_facts.
Context {NodeRec EdgeRec sortkey : Type}.
Variable node_x node_y : NodeRec → option R.
Variable _chart : chart NodeRec EdgeRec sortkey.
Local Abbreviation store := (store NodeRec EdgeRec).
Local Abbreviation node_items := (node_items node_x node_y _chart).
Local Abbreviation edge_items := (edge_items _chart).
Local Abbreviation reconcile := (reconcile node_x node_y _chart).
Local Abbreviation fixed_of := (fixed_of _chart).
Local Abbreviation node_keys := (fmap (M:=list) (nodeKeyAccessor _chart)).
Local Abbreviation edge_keys := (fmap (M:=list) (edgeKeyAccessor _chart)).

Lemma sweep_lookup (keep : gset string) (m : gmap string loc) k :
  sweep keep m !! k = if decide (k ∈ keep) then m !! k else None.
Proof.
  unfold sweep. case_decide as Hk.
  - destruct (m !! k) as [l|] eqn:E.
    + by apply map_lookup_filter_Some.
    + apply map_lookup_filter_None. left. done.
  - apply map_lookup_filter_None. right. intros l _. done.
Qed.

Lemma sweep_empty_keep (m : gmap string loc) : sweep ∅ m = ∅.
Proof.
  apply map_eq. intros k. rewrite sweep_lookup, lookup_empty.
  case_decide as Hk; [|done]. by apply not_elem_of_empty in Hk.
Qed.

Lemma node_items_keys vs i : (node_items vs i).*1 = node_keys vs.
Proof. revert i. induction vs as [|v vs IH]; intros i; simpl; [done|]. by rewrite IH. Qed.

Lemma edge_items_keys nodes es : (edge_items nodes es).*1 = edge_keys es.
Proof. induction es as [|e es IH]; simpl; [done|]. f_equal. apply IH. Qed.

Local Abbreviation nodes_run := (nodes_run node_x node_y _chart).
Local Abbreviation nodes_kept := (nodes_kept node_x node_y _chart).
Local Abbreviation edges_run := (edges_run node_x node_y _chart).

Lemma reconcile_eq nodes edges (σ : store) :
  reconcile nodes edges σ =
  ((nodes_run nodes σ).1,
   filter (λ l, has_endpoints (Table.heap (edges_run nodes edges σ).2) l = true)
          (edges_run nodes edges σ).1,
   Store (nodes_kept nodes σ) (Table.dict (edges_run nodes edges σ).2)
         (Table.heap (nodes_run nodes σ).2) (Table.heap (edges_run nodes edges σ).2)
         (Table.next (nodes_run nodes σ).2) (Table.next (edges_run nodes edges σ).2)
         (_nodes_snapshot σ) (_edges_snapshot σ) (_d3cola σ)).
Proof.
  unfold Diagram.reconcile. rewrite map_wrap_node_touch_all. cbn zeta.
  rewrite (right_id_L ∅ (∪)).
  rewrite map_wrap_edge_touch_all. cbn zeta.
  unfold Views.edges_run, Views.nodes_kept, Views.nodes_run. simpl.
  rewrite sweep_empty_keep. done.
Qed.

End reconcile_facts.

Section redraw_facts.
Context {NodeRec EdgeRec sortkey : Type}.
Variable node_x node_y : NodeRec → option R.
Variable _chart : chart NodeRec EdgeRec sortkey.
Variable quicksort_by : ∀ A : Type, (A → sortkey) → list A → list A.
Variable JSON_stringify_nodes : list (option NodeRec) → string.
Variable JSON_stringify_edges : list (option EdgeRec) → string.
Variable wheel_edges : (nat → option key) → list nat → option R → list wheel_edge.
Local Abbreviation store := (store NodeRec EdgeRec).
Local Abbreviation reconcile := (reconcile node_x node_y _chart).
Local Abbreviation redraw :=
  (redraw node_x node_y _chart quicksort_by JSON_stringify_nodes JSON_stringify_edges
          wheel_edges).
Local Abbreviation detect_unchanged :=
  (detect_unchanged _chart JSON_stringify_nodes JSON_stringify_edges).
Local Abbreviation effective_nodes := (effective_nodes _chart quicksort_by).
Local Abbreviation effective_edges := (effective_edges _chart quicksort_by).
Local Abbreviation node_keys := (fmap (M:=list) (nodeKeyAccessor _chart)).
Local Abbreviation edge_keys := (fmap (M:=list) (edgeKeyAccessor _chart)).

Local Abbreviation same_but_eheap := (@same_but_eheap NodeRec EdgeRec).

Lemma mark_parallel_same edges1 em (σ σ' : store) :
  mark_parallel edges1 em σ = Some σ' → same_but_eheap σ σ'.
Proof.
  revert em σ. induction edges1 as [|l ls IH]; intros em σ H; simpl in H.
  - by simplify_eq.
  - destruct (eheap σ !! l) as [e1|]; simpl in H; [|done].
    destruct (endpoint_indices σ e1) as [[si ti]|]; simpl in H; [|done].
    destruct (post_increment em (si `min` ti) (si `max` ti)) as [[p em']|];
      simpl in H; [|done].
    apply IH in H. exact H.
Qed.

Lemma parallel_edges_same nodes1 edges1 (σ σ' : store) :
  parallel_edges _chart nodes1 edges1 σ = Some σ' → same_but_eheap σ σ'.
Proof.
  unfold parallel_edges. destruct (truthy _); intros H.
  - by apply mark_parallel_same in H.
  - by simplify_eq.
Qed.

(** What a call of [redraw] that returns did, phase by phase. *)
Lemma redraw_inv nodes edges (σ : store) o σ' :
  redraw nodes edges σ = Some (o, σ') →
  let σ0 := set_d3cola (_d3cola σ || initLayoutOnRedraw _chart) σ in
  let r := reconcile (effective_nodes nodes edges) (effective_edges edges) σ0 in
  let d := detect_unchanged r.1.1 r.1.2 r.2 in
  nodes1 o = r.1.1 ∧ edges1 o = r.1.2 ∧ skip_layout o = d.1
  ∧ parallel_edges _chart r.1.1 r.1.2 d.2 = Some σ'
  ∧ _d3cola σ' = true
  ∧ ∃ links cs,
      signals o =
        (if _d3cola σ then [EngineStop] else [])
        ++ (if initLayoutOnRedraw _chart then [InitLayout] else [])
        ++ (if d.1 then [DispatchEnd] else [EngineStart r.1.1 links cs]).
Proof.
  unfold Diagram.redraw. intros H. cbn zeta.
  destruct (reconcile _ _ _) as [[ns es] σ1]. simpl.
  destruct (detect_unchanged ns es σ1) as [skip σ2]. simpl in *.
  destruct (parallel_edges _chart ns es σ2) as [σ3|]; simpl in H; [|done].
  destruct (_d3cola σ3) eqn:Hd; [|done].
  destruct (mapM _ _) as [cs|]; simpl in H; [|done].
  destruct (engine_constraints _ _ _) as [cs'|]; simpl in H; [|done].
  simplify_eq. simpl. repeat split; eauto.
Qed.

(** What a call of [redraw] that returns hands to the engine: the
    translated constraints after the circle and the ordering step, and
    the layout edges with the wheel links. *)
Lemma redraw_start nodes edges (σ : store) o σ' :
  redraw nodes edges σ = Some (o, σ') →
  ∃ constraints cs,
    mapM (translate_refs σ')
         (constrain _chart (objects (nheap σ') (nodes1 o)) (objects (eheap σ') (edges1 o)))
    = Some constraints
    ∧ engine_constraints quicksort_by σ' constraints = Some cs
    ∧ signals o =
        (if _d3cola σ then [EngineStop] else [])
        ++ (if initLayoutOnRedraw _chart then [InitLayout] else [])
        ++ (if skip_layout o then [DispatchEnd]
            else [EngineStart (nodes1 o)
                    (layout_links _chart wheel_edges σ' (nodes1 o) (edges1 o) constraints)
                    cs]).
Proof.
  unfold Diagram.redraw. intros H.
  destruct (reconcile _ _ _) as [[ns es] σ1].
  destruct (detect_unchanged ns es σ1) as [skip σ2].
  destruct (parallel_edges _chart ns es σ2) as [σ3|]; simpl in H; [|done].
  destruct (_d3cola σ3) eqn:Hd; [|done].
  destruct (mapM _ _) as [constraints|] eqn:Htr; simpl in H; [|done].
  destruct (engine_constraints _ _ _) as [cs|] eqn:Hcs; simpl in H; [|done].
  simplify_eq. simpl. exists constraints, cs. done.
Qed.

Lemma detect_unchanged_same nodes1 edges1 (σ : store) :
  let σ' := (detect_unchanged nodes1 edges1 σ).2 in
  _nodes σ' = _nodes σ ∧ _edges σ' = _edges σ ∧ nheap σ' = nheap σ
  ∧ eheap σ' = eheap σ ∧ nnext σ' = nnext σ ∧ enext σ' = enext σ
  ∧ _d3cola σ' = _d3cola σ.
Proof. unfold Diagram.detect_unchanged. by destruct (layoutUnchanged _chart). Qed.

End redraw_facts.

Section claims.
Context {NodeRec EdgeRec sortkey : Type}.
Variable node_x node_y : NodeRec → option R.
Variable _chart : chart NodeRec EdgeRec sortkey.
Variable quicksort_by : ∀ A : Type, (A → sortkey) → list A → list A.
Variable JSON_stringify_nodes : list (option NodeRec) → string.
Variable JSON_stringify_edges : list (option EdgeRec) → string.
Variable wheel_edges : (nat → option key) → list nat → option R → list wheel_edge.
Local Abbreviation store := (store NodeRec EdgeRec).
Local Abbreviation reconcile := (reconcile node_x node_y _chart).
Local Abbreviation wrap_node := (wrap_node node_x node_y _chart).
Local Abbreviation redraw :=
  (redraw node_x node_y _chart quicksort_by JSON_stringify_nodes JSON_stringify_edges
          wheel_edges).
Local Abbreviation detect_unchanged :=
  (detect_unchanged _chart JSON_stringify_nodes JSON_stringify_edges).
Local Abbreviation effective_nodes := (effective_nodes _chart quicksort_by).
Local Abbreviation effective_edges := (effective_edges _chart quicksort_by).
Local Abbreviation node_keys := (fmap (M:=list) (nodeKeyAccessor _chart)).
Local Abbreviation edge_keys := (fmap (M:=list) (edgeKeyAccessor _chart)).
Local Abbreviation nodes_run := (nodes_run node_x node_y _chart).
Local Abbreviation nodes_kept := (nodes_kept node_x node_y _chart).
Local Abbreviation edges_run := (edges_run node_x node_y _chart).

Local Abbreviation sort_permutes := (sort_permutes quicksort_by).

Lemma induce_subset nodes edges v : v ∈ induce _chart nodes edges → v ∈ nodes.
Proof.
  unfold induce. destruct (induceNodes _chart); [|done].
  intros H%list_elem_of_filter. tauto.
Qed.

Lemma effective_nodes_subset nodes edges v :
  sort_permutes → v ∈ effective_nodes nodes edges → v ∈ nodes.
Proof.
  intros Hp. unfold Views.sort_permutes in Hp. unfold Diagram.effective_nodes, ordered.
  destruct (nodeOrdering _chart); [rewrite Hp|]; apply induce_subset.
Qed.

Lemma effective_edges_subset edges e :
  sort_permutes → e ∈ effective_edges edges → e ∈ edges.
Proof.
  intros Hp. unfold Views.sort_permutes in Hp. unfold Diagram.effective_edges, ordered.
  destruct (edgeOrdering _chart); [by rewrite Hp|done].
Qed.

Lemma reconcile_nodes_dom nodes edges (σ : store) k :
  is_Some (_nodes (reconcile nodes edges σ).2 !! k) → k ∈ node_keys nodes.
Proof.
  rewrite reconcile_eq. simpl. unfold Views.nodes_kept. rewrite sweep_lookup.
  case_decide as Hk; [|by intros [? ?]]. intros _. by apply elem_of_list_to_set in Hk.
Qed.

Lemma reconcile_edges_dom nodes edges (σ : store) k :
  is_Some (_edges (reconcile nodes edges σ).2 !! k) → k ∈ edge_keys edges.
Proof.
  rewrite reconcile_eq. simpl. intros H.
  destruct (decide (k ∈ edge_keys edges)) as [|Hn]; [done|]. exfalso.
  unfold Views.edges_run in H. rewrite touch_all_dict_other in H.
  - simpl in H. rewrite lookup_empty in H. by destruct H.
  - by rewrite edge_items_keys.
Qed.

(** C8: after a redraw that returns, a key that is not among the node
    records has no entry in [_nodes], and a key that is not among the edge
    records has no entry in [_edges]. *)
Theorem garbage_collection nodes edges (σ : store) o σ' :
  sort_permutes →
  redraw nodes edges σ = Some (o, σ') →
  (∀ k, k ∉ node_keys nodes → _nodes σ' !! k = None)
  ∧ (∀ k, k ∉ edge_keys edges → _edges σ' !! k = None).
Proof.
  intros Hp H. apply redraw_inv in H. cbn zeta in H.
  destruct H as (_ & _ & _ & Hpar & _).
  apply parallel_edges_same in Hpar as (Hn & He & _).
  destruct (detect_unchanged_same _chart JSON_stringify_nodes JSON_stringify_edges
    (reconcile (effective_nodes nodes edges) (effective_edges edges)
       (set_d3cola (_d3cola σ || initLayoutOnRedraw _chart) σ)).1.1
    (reconcile (effective_nodes nodes edges) (effective_edges edges)
       (set_d3cola (_d3cola σ || initLayoutOnRedraw _chart) σ)).1.2
    (reconcile (effective_nodes nodes edges) (effective_edges edges)
       (set_d3cola (_d3cola σ || initLayoutOnRedraw _chart) σ)).2) as (Hn' & He' & _).
  rewrite Hn, He, Hn', He'. split; intros k Hk.
  - apply eq_None_not_Some. intros Hs%reconcile_nodes_dom. apply Hk.
    apply list_elem_of_fmap in Hs as (v & -> & Hv).
    apply list_elem_of_fmap. exists v. split; [done|].
    by eapply effective_nodes_subset.
  - apply eq_None_not_Some. intros Hs%reconcile_edges_dom. apply Hk.
    apply list_elem_of_fmap in Hs as (e & -> & He'').
    apply list_elem_of_fmap. exists e. split; [done|].
    by eapply effective_edges_subset.
Qed.

(** C10: [wrap_node] sets [fixed] to [false] when there is no
    [nodeFixedAccessor] or it returns a falsy value, whatever [fixed] was
    before; when the accessor returns a truthy value [c], [fixed] is
    [true] and [x], [y] are the fields [x], [y] of the record, not those
    of [c]. *)
Theorem wrap_node_fixed v i (σ : store) keep :
  store_wf σ →
  ∃ v1, nheap (wrap_node v i (σ, keep)).2.1 !! (wrap_node v i (σ, keep)).1 = Some v1
    ∧ (nodeFixedAccessor _chart = None → fixed v1 = Some false)
    ∧ (∀ f, nodeFixedAccessor _chart = Some f → f v = None → fixed v1 = Some false)
    ∧ (∀ f c, nodeFixedAccessor _chart = Some f → f v = Some c →
         fixed v1 = Some true ∧ x v1 = node_x v ∧ y v1 = node_y v).
Proof.
  intros [Hwf _]. rewrite wrap_node_touch. cbn zeta. simpl.
  eexists. split; [by apply touch_heap_key|].
  unfold assign_node, Diagram.fixed_of. split; [|split].
  - by intros ->.
  - by intros f -> ->.
  - by intros f c -> ->.
Qed.

End claims.

(** *** The matrix of parallel-edge counts *)

Lemma same_pair_refl p : same_pair p p.
Proof. left. done. Qed.




Lemma square_replicate n : square n (replicate n (replicate n 0)).
Proof.
  split; [by rewrite length_replicate|].
  apply Forall_replicate. by rewrite length_replicate.
Qed.

Lemma post_increment_spec n em a b :
  square n em → a < n → b < n →
  ∃ em', post_increment em a b = Some (entry em a b, em')
    ∧ square n em'
    ∧ ∀ a' b', a' < n → b' < n →
        entry em' a' b' = entry em a' b' + (if decide (a' = a ∧ b' = b) then 1 else 0).
Proof.
  intros [Hlen Hrows] Ha Hb.
  destruct (lookup_lt_is_Some_2 em a) as [row Hrow]; [lia|].
  assert (length row = n) as Hr.
  { rewrite Forall_forall in Hrows. apply Hrows. by eapply list_elem_of_lookup_2. }
  destruct (lookup_lt_is_Some_2 row b) as [c Hc]; [lia|].
  exists (<[a := <[b := S c]> row]> em).
  unfold post_increment, entry. rewrite Hrow. simpl. rewrite Hc. simpl.
  split; [done|]. split.
  - split; [by rewrite length_insert|].
    apply Forall_insert; [done|]. by rewrite length_insert.
  - intros a' b' Ha' Hb'. destruct (decide (a' = a)) as [->|Hne].
    + rewrite list_lookup_insert_eq by lia. simpl. rewrite Hrow. simpl.
      destruct (decide (b' = b)) as [->|Hne'].
      * rewrite list_lookup_insert_eq by lia. rewrite Hc. simpl.
        rewrite decide_True by done. lia.
      * rewrite list_lookup_insert_ne by done.
        rewrite decide_False by tauto. lia.
    + rewrite list_lookup_insert_ne by done.
      rewrite decide_False by tauto. lia.
Qed.



Lemma ranks_from_length seen ps : length (ranks_from seen ps) = length ps.
Proof. revert seen. induction ps as [|p ps IH]; intros seen; simpl; [done|]. by rewrite IH. Qed.

Lemma Forall2_impl_elem {A B} (P Q : A → B → Prop) (l : list A) (k : list B) :
  Forall2 P l k → (∀ a b, a ∈ l → P a b → Q a b) → Forall2 Q l k.
Proof.
  induction 1 as [|a b l k Hab Hlk IH]; intros HPQ; constructor.
  - apply HPQ; [left|done].
  - apply IH. intros a' b' Hin. apply HPQ. by right.
Qed.

Section parallel_facts.
Context {NodeRec EdgeRec sortkey : Type}.
Variable node_x node_y : NodeRec → option R.
Variable _chart : chart NodeRec EdgeRec sortkey.
Local Abbreviation store := (store NodeRec EdgeRec).

Lemma endpoint_indices_ext (σ σ' : store) e1 e1' :
  nheap σ' = nheap σ → same_edge e1 e1' →
  endpoint_indices σ' e1' = endpoint_indices σ e1.
Proof. intros Hn (Hs & Ht & _). unfold endpoint_indices. by rewrite Hn, Hs, Ht. Qed.


End parallel_facts.

Section mutate_facts.
Context {NodeRec EdgeRec sortkey : Type}.
Variable node_x node_y : NodeRec → option R.
Variable _chart : chart NodeRec EdgeRec sortkey.
Local Abbreviation store := (store NodeRec EdgeRec).
Local Abbreviation node_items := (node_items node_x node_y _chart).
Local Abbreviation edge_items := (edge_items _chart).
Local Abbreviation fixed_of := (fixed_of _chart).
Local Abbreviation node_keys := (fmap (M:=list) (nodeKeyAccessor _chart)).
Local Abbreviation edge_keys := (fmap (M:=list) (edgeKeyAccessor _chart)).

Lemma mutate_snoc {A} k (items : list (key * (A → A))) it o :
  Table.mutate k (items ++ [it]) o
  = if decide (it.1 = k) then it.2 (Table.mutate k items o) else Table.mutate k items o.
Proof. unfold Table.mutate. by rewrite foldl_app. Qed.

Lemma node_items_snoc vs v i :
  node_items (vs ++ [v]) i
  = node_items vs i
    ++ [(nodeKeyAccessor _chart v, assign_node node_x node_y _chart v (i + length vs))].
Proof.
  revert i. induction vs as [|w vs IH]; intros i; simpl.
  - by rewrite Nat.add_0_r.
  - rewrite IH. replace (S i + length vs) with (i + S (length vs)) by lia. done.
Qed.

Lemma edge_items_snoc nodes es e :
  edge_items nodes (es ++ [e])
  = edge_items nodes es ++ [(edgeKeyAccessor _chart e, assign_edge _chart nodes e)].
Proof. unfold Views.edge_items. by rewrite map_app. Qed.

Lemma last_with_key_snoc {A} (key_of : A → key) k l a :
  last_with_key key_of k (l ++ [a])
  = if decide (key_of a = k) then Some a else last_with_key key_of k l.
Proof.
  unfold last_with_key. rewrite filter_app, filter_cons, filter_nil.
  case_decide; [by rewrite last_snoc|by rewrite app_nil_r].
Qed.

Lemma last_with_key_is_Some {A} (key_of : A → key) k (l : list A) :
  k ∈ key_of <$> l → ∃ a, last_with_key key_of k l = Some a ∧ a ∈ l ∧ key_of a = k.
Proof.
  induction l as [|a l IH] using rev_ind; intros H.
  - by apply elem_of_nil in H.
  - rewrite last_with_key_snoc. rewrite fmap_app in H.
    case_decide as Hk.
    + exists a. split; [done|]. split; [|done]. apply elem_of_app. right. by left.
    + apply elem_of_app in H as [H|H].
      * destruct (IH H) as (b & Hb & Hin & Hkb). exists b. split; [done|].
        split; [|done]. apply elem_of_app. by left.
      * apply list_elem_of_singleton in H. congruence.
Qed.

(** [orig] of a node wrapper is the last record wrapped for its key. *)
Lemma mutate_node_orig k vs i o :
  orig (Table.mutate k (node_items vs i) o)
  = match last_with_key (nodeKeyAccessor _chart) k vs with
    | Some v => Some v
    | None => orig o
    end.
Proof.
  induction vs as [|v vs IH] using rev_ind; [done|].
  rewrite node_items_snoc, mutate_snoc, last_with_key_snoc. simpl.
  case_decide; [|done]. unfold assign_node. by destruct (Diagram.fixed_of _ _).
Qed.

(** [index] of a wrapped node is a position of the array. *)
Lemma mutate_node_index k vs i o :
  k ∈ node_keys vs →
  ∃ j, index (Table.mutate k (node_items vs i) o) = Some j ∧ i ≤ j < i + length vs.
Proof.
  induction vs as [|v vs IH] using rev_ind; intros H.
  - by apply elem_of_nil in H.
  - rewrite node_items_snoc, mutate_snoc, length_app. simpl.
    case_decide as Hk.
    + exists (i + length vs). split; [|lia].
      unfold assign_node. by destruct (Diagram.fixed_of _ _).
    + rewrite fmap_app in H. apply elem_of_app in H as [H|H].
      * destruct (IH H) as (j & Hj & ?). exists j. split; [done|lia].
      * apply list_elem_of_singleton in H. congruence.
Qed.

(** [x] and [y] survive unless a record of the key is marked fixed. *)
Lemma mutate_node_position k vs i o :
  (∀ v, v ∈ vs → nodeKeyAccessor _chart v = k → fixed_of v = None) →
  x (Table.mutate k (node_items vs i) o) = x o
  ∧ y (Table.mutate k (node_items vs i) o) = y o.
Proof.
  induction vs as [|v vs IH] using rev_ind; intros H; [done|].
  rewrite node_items_snoc, mutate_snoc. simpl.
  destruct IH as [IHx IHy].
  { intros w Hw. apply H. apply elem_of_app. by left. }
  case_decide as Hk; [|done]. unfold assign_node.
  rewrite (H v); [done| |done]. apply elem_of_app. right. by left.
Qed.

(** An edge wrapper holds what the last record of its key says. *)
Lemma mutate_edge nodes k es o e :
  last_with_key (edgeKeyAccessor _chart) k es = Some e →
  e_orig (Table.mutate k (edge_items nodes es) o) = Some e
  ∧ source (Table.mutate k (edge_items nodes es) o) = nodes !! sourceAccessor _chart e
  ∧ target (Table.mutate k (edge_items nodes es) o) = nodes !! targetAccessor _chart e.
Proof.
  induction es as [|e' es IH] using rev_ind; [done|].
  rewrite edge_items_snoc, mutate_snoc, last_with_key_snoc. simpl.
  case_decide; [|done]. intros [= ->]. done.
Qed.

End mutate_facts.

Section reconcile_post.
Context {NodeRec EdgeRec sortkey : Type}.
Variable node_x node_y : NodeRec → option R.
Variable _chart : chart NodeRec EdgeRec sortkey.
Local Abbreviation store := (store NodeRec EdgeRec).
Local Abbreviation node_items := (node_items node_x node_y _chart).
Local Abbreviation edge_items := (edge_items _chart).
Local Abbreviation reconcile := (reconcile node_x node_y _chart).
Local Abbreviation fixed_of := (fixed_of _chart).
Local Abbreviation node_keys := (fmap (M:=list) (nodeKeyAccessor _chart)).
Local Abbreviation edge_keys := (fmap (M:=list) (edgeKeyAccessor _chart)).
Local Abbreviation nodes_run := (nodes_run node_x node_y _chart).
Local Abbreviation nodes_kept := (nodes_kept node_x node_y _chart).
Local Abbreviation edges_run := (edges_run node_x node_y _chart).

Lemma nodes_run_wf nodes (σ : store) : store_wf σ → Table.wf (nodes_run nodes σ).2.
Proof. intros [H _]. by apply touch_all_wf. Qed.

Lemma swept_wf {A} keep d (h : gmap nat A) n :
  Table.wf (Table.Tbl d h n) → Table.wf (Table.Tbl (sweep keep d) h n).
Proof.
  intros (Hex & Hlt & Hinj). repeat split; simpl in *.
  - intros k l. rewrite sweep_lookup. case_decide; [apply Hex|done].
  - done.
  - intros k1 k2 l. rewrite !sweep_lookup. repeat case_decide; try done. apply Hinj.
Qed.

Lemma emptied_wf {A} d (h : gmap nat A) n :
  Table.wf (Table.Tbl d h n) → Table.wf (Table.Tbl ∅ h n).
Proof.
  intros (Hex & Hlt & Hinj). repeat split; simpl in *; [|done|].
  - intros k l. by rewrite lookup_empty.
  - intros k1 k2 l. by rewrite lookup_empty.
Qed.

Lemma edges_run_wf nodes edges (σ : store) :
  store_wf σ → Table.wf (edges_run nodes edges σ).2.
Proof. intros [_ H]. apply touch_all_wf. by eapply emptied_wf. Qed.

Lemma reconcile_wf nodes edges (σ : store) :
  store_wf σ → store_wf (reconcile nodes edges σ).2.
Proof.
  intros Hwf. rewrite reconcile_eq. split.
  - pose proof (nodes_run_wf nodes σ Hwf) as H.
    destruct (nodes_run nodes σ).2 as [d h n] eqn:E.
    unfold ntable, Views.nodes_kept. simpl. rewrite E. simpl. by apply swept_wf.
  - pose proof (edges_run_wf nodes edges σ Hwf) as H.
    unfold etable. simpl. by destruct (edges_run nodes edges σ).2.
Qed.

Lemma reconcile_nodes_lookup nodes edges (σ : store) k l :
  _nodes (reconcile nodes edges σ).2 !! k = Some l ↔
  k ∈ node_keys nodes ∧ Table.dict (nodes_run nodes σ).2 !! k = Some l.
Proof.
  rewrite reconcile_eq. simpl. unfold Views.nodes_kept. rewrite sweep_lookup.
  case_decide as Hk.
  - apply elem_of_list_to_set in Hk. tauto.
  - rewrite elem_of_list_to_set in Hk. split; [done|tauto].
Qed.

(** A node key that is among the records keeps the wrapper it had. *)
Lemma reconcile_node_identity nodes edges (σ : store) k l :
  _nodes σ !! k = Some l → k ∈ node_keys nodes →
  _nodes (reconcile nodes edges σ).2 !! k = Some l.
Proof.
  intros Hl Hk. apply reconcile_nodes_lookup. split; [done|].
  by apply touch_all_dict_mono.
Qed.

(** The wrapper of a node key after [reconcile]. *)
Lemma reconcile_node_object nodes edges (σ : store) k l :
  store_wf σ → _nodes (reconcile nodes edges σ).2 !! k = Some l →
  nheap (reconcile nodes edges σ).2 !! l
  = Some (Table.mutate k (node_items nodes 0) (Table.object_of empty_node (ntable σ) k)).
Proof.
  intros Hwf [Hk Hl]%reconcile_nodes_lookup. rewrite reconcile_eq. simpl.
  rewrite (object_of_lookup empty_node _ k l); [|by apply nodes_run_wf|done].
  f_equal. apply touch_all_object. by destruct Hwf.
Qed.

(** A node wrapper that no record names is left as it was. *)
Lemma reconcile_node_frame nodes edges (σ : store) l :
  store_wf σ → l < nnext σ → (∀ k, _nodes σ !! k = Some l → k ∉ node_keys nodes) →
  nheap (reconcile nodes edges σ).2 !! l = nheap σ !! l.
Proof.
  intros [Hwf _] Hl Hno. rewrite reconcile_eq. simpl.
  apply (touch_all_heap_frame empty_node _ (ntable σ)); [done|done|].
  intros k Hk. rewrite node_items_keys. by apply Hno.
Qed.

Lemma Forall2_keys {A B} (key_of : A → key) (items : list (key * B)) (vs : list A)
    (ls : list loc) (d : gmap string loc) :
  items.*1 = key_of <$> vs →
  Forall2 (λ it l, d !! it.1 = Some l) items ls →
  Forall2 (λ v l, d !! key_of v = Some l) vs ls.
Proof.
  intros Hk Hf. revert vs Hk.
  induction Hf as [|it l' items ls' Hit _ IH]; intros [|v vs] Hk; simplify_eq/=.
  - constructor.
  - constructor; [congruence|]. by apply IH.
Qed.

Lemma reconcile_nodes1 nodes edges (σ : store) :
  Forall2 (λ v l, _nodes (reconcile nodes edges σ).2 !! nodeKeyAccessor _chart v = Some l)
          nodes (reconcile nodes edges σ).1.1.
Proof.
  pose proof (touch_all_result empty_node (node_items nodes 0) (ntable σ)) as H.
  apply (Forall2_keys (nodeKeyAccessor _chart) _ nodes) in H; [|apply node_items_keys].
  eapply Forall2_impl_elem; [|intros v l Hv Hl; apply reconcile_nodes_lookup;
    split; [apply list_elem_of_fmap; eauto|exact Hl]].
  rewrite reconcile_eq. exact H.
Qed.

Lemma reconcile_nodes1_length nodes edges (σ : store) :
  length (reconcile nodes edges σ).1.1 = length nodes.
Proof. symmetry. eapply Forall2_length, reconcile_nodes1. Qed.

(** The wrappers [edges.map(wrap_edge)] returns, before the filter. *)
Lemma reconcile_wrapped nodes edges (σ : store) :
  Forall2 (λ e l, _edges (reconcile nodes edges σ).2 !! edgeKeyAccessor _chart e = Some l)
          edges (edges_run nodes edges σ).1.
Proof.
  rewrite reconcile_eq. simpl.
  eapply (Forall2_keys (edgeKeyAccessor _chart));
    [apply edge_items_keys|apply touch_all_result].
Qed.

Lemma reconcile_edges1 nodes edges (σ : store) :
  (reconcile nodes edges σ).1.2
  = filter (λ l, has_endpoints (eheap (reconcile nodes edges σ).2) l = true)
           (edges_run nodes edges σ).1.
Proof. by rewrite reconcile_eq. Qed.

Lemma reconcile_edges_lookup nodes edges (σ : store) k :
  _edges (reconcile nodes edges σ).2 !! k = Table.dict (edges_run nodes edges σ).2 !! k.
Proof. by rewrite reconcile_eq. Qed.

(** Every edge wrapper of a redraw is created in that redraw. *)
Lemma reconcile_edge_fresh nodes edges (σ : store) k l :
  store_wf σ → _edges (reconcile nodes edges σ).2 !! k = Some l → enext σ ≤ l.
Proof.
  intros [_ Hwf]. rewrite reconcile_edges_lookup. unfold Views.edges_run. intros H.
  eapply (touch_all_fresh empty_edge _ (Table.Tbl ∅ (eheap σ) (enext σ)) k l) in H;
    [done|by eapply emptied_wf|done].
Qed.

(** No edge key keeps the wrapper it had: [_edges] is swept while
    [keep_edge] is still empty, so [wrap_edge] finds no entry. *)
Lemma reconcile_edge_never_reused nodes edges (σ : store) k l :
  store_wf σ → _edges σ !! k = Some l →
  _edges (reconcile nodes edges σ).2 !! k ≠ Some l.
Proof.
  intros Hwf Hl Hl'. pose proof (reconcile_edge_fresh _ _ _ _ _ Hwf Hl') as Hfresh.
  destruct Hwf as [_ (Hex & Hlt & _)]. apply Hex, Hlt in Hl. simpl in Hl. lia.
Qed.

(** The wrapper of an edge key after [reconcile]. *)
Lemma reconcile_edge_object nodes edges (σ : store) k l :
  store_wf σ → _edges (reconcile nodes edges σ).2 !! k = Some l →
  eheap (reconcile nodes edges σ).2 !! l
  = Some (Table.mutate k (edge_items (_nodes (reconcile nodes edges σ).2) edges) empty_edge).
Proof.
  intros Hwf. rewrite reconcile_edges_lookup. intros Hl. rewrite reconcile_eq. simpl.
  rewrite (object_of_lookup empty_edge _ k l); [|by apply edges_run_wf|done].
  f_equal. unfold Views.edges_run. rewrite touch_all_object.
  - unfold Table.object_of. simpl. by rewrite lookup_empty.
  - destruct Hwf as [_ Hwf]. by eapply emptied_wf.
Qed.



End reconcile_post.



Section parallel_claim.
Context {NodeRec EdgeRec sortkey : Type}.
Variable node_x node_y : NodeRec → option R.
Variable _chart : chart NodeRec EdgeRec sortkey.
Variable JSON_stringify_nodes : list (option NodeRec) → string.
Variable JSON_stringify_edges : list (option EdgeRec) → string.
Local Abbreviation store := (store NodeRec EdgeRec).
Local Abbreviation node_items := (node_items node_x node_y _chart).
Local Abbreviation edge_items := (edge_items _chart).
Local Abbreviation reconcile := (reconcile node_x node_y _chart).
Local Abbreviation detect_unchanged :=
  (detect_unchanged _chart JSON_stringify_nodes JSON_stringify_edges).
Local Abbreviation node_keys := (fmap (M:=list) (nodeKeyAccessor _chart)).
Local Abbreviation edge_keys := (fmap (M:=list) (edgeKeyAccessor _chart)).
Local Abbreviation edges_run := (edges_run node_x node_y _chart).

(** An endpoint of a wrapped edge is a wrapped node, with its position
    in [nodes1] as [index]. *)
Lemma reconcile_endpoint nodes edges (σ : store) k s :
  store_wf σ → _nodes (reconcile nodes edges σ).2 !! k = Some s →
  ∃ v1 j, nheap (reconcile nodes edges σ).2 !! s = Some v1
    ∧ index v1 = Some j ∧ j < length nodes.
Proof.
  intros Hwf Hs. rewrite (reconcile_node_object _ _ _ _ _ _ k) by done.
  apply reconcile_nodes_lookup in Hs as [Hk _].
  destruct (mutate_node_index node_x node_y _chart k nodes 0
              (Table.object_of empty_node (ntable σ) k) Hk) as (j & Hj & ?).
  eexists _, j. split; [done|]. split; [done|lia].
Qed.

(** Every edge of [edges1] has both endpoint indices, within [nodes1]. *)
Lemma reconcile_endpoints nodes edges (σ : store) l :
  store_wf σ → l ∈ (reconcile nodes edges σ).1.2 →
  ∃ e1 p, eheap (reconcile nodes edges σ).2 !! l = Some e1
    ∧ endpoint_indices (reconcile nodes edges σ).2 e1 = Some p
    ∧ p.1 < length nodes ∧ p.2 < length nodes.
Proof.
  intros Hwf. rewrite reconcile_edges1. intros [Hend Hin]%list_elem_of_filter.
  apply list_elem_of_lookup in Hin as [i Hi].
  destruct (Forall2_lookup_r _ _ _ _ _ (reconcile_wrapped node_x node_y _chart nodes edges σ) Hi)
    as (e & He & Hl).
  pose proof (reconcile_edge_object _ _ _ nodes edges σ _ _ Hwf Hl) as Hobj.
  assert (edgeKeyAccessor _chart e ∈ edge_keys edges) as Hk.
  { apply list_elem_of_fmap. exists e. split; [done|]. by eapply list_elem_of_lookup_2. }
  destruct (last_with_key_is_Some (edgeKeyAccessor _chart) _ edges Hk) as (e' & Hlast & _).
  destruct (mutate_edge _chart (_nodes (reconcile nodes edges σ).2) _ edges empty_edge e' Hlast)
    as (_ & Hsrc & Htgt).
  unfold has_endpoints in Hend. rewrite Hobj in Hend.
  apply andb_prop in Hend as [[s Hs]%bool_decide_eq_true [t Ht]%bool_decide_eq_true].
  rewrite Hsrc in Hs. rewrite Htgt in Ht.
  destruct (reconcile_endpoint nodes edges σ _ s Hwf Hs) as (sn & si & Hsn & Hsi & ?).
  destruct (reconcile_endpoint nodes edges σ _ t Hwf Ht) as (tn & ti & Htn & Hti & ?).
  eexists _, (si, ti). split; [done|]. split; [|done].
  unfold endpoint_indices. rewrite Hsrc, Htgt, Hs, Ht. simpl.
  rewrite Hsn, Htn. simpl. rewrite Hsi, Hti. done.
Qed.


End parallel_claim.

Section constraint_claims.
Context {NodeRec EdgeRec sortkey : Type}.
Variable node_x node_y : NodeRec → option R.
Variable _chart : chart NodeRec EdgeRec sortkey.
Variable quicksort_by : ∀ A : Type, (A → sortkey) → list A → list A.
Variable JSON_stringify_nodes : list (option NodeRec) → string.
Variable JSON_stringify_edges : list (option EdgeRec) → string.
Variable wheel_edges : (nat → option key) → list nat → option R → list wheel_edge.
Local Abbreviation store := (store NodeRec EdgeRec).
Local Abbreviation constraint := (constraint NodeRec sortkey).
Local Abbreviation redraw :=
  (redraw node_x node_y _chart quicksort_by JSON_stringify_nodes JSON_stringify_edges
          wheel_edges).
Local Abbreviation ordered_gaps := (@ordered_gaps NodeRec EdgeRec sortkey quicksort_by).
Local Abbreviation ordering_gaps := (@ordering_gaps NodeRec EdgeRec sortkey quicksort_by).
Local Abbreviation engine_constraints :=
  (@engine_constraints NodeRec EdgeRec sortkey quicksort_by).
Local Abbreviation wheel := (wheel _chart wheel_edges).
Local Abbreviation layout_links := (layout_links _chart wheel_edges).
Local Abbreviation ring_radius := (ring_radius _chart).

Lemma gaps_from_adjacent axis gap (n : NodeRec * nat) rest :
  gaps_from (sortkey:=sortkey) axis gap n rest = adjacent_gaps axis gap (n :: rest).
Proof.
  revert n. induction rest as [|m rest IH]; intros n; [done|].
  simpl. rewrite IH. done.
Qed.

Lemma adjacent_gaps_length axis gap (sorted : list (NodeRec * nat)) :
  length (adjacent_gaps (sortkey:=sortkey) axis gap sorted) = length sorted - 1.
Proof.
  unfold adjacent_gaps. rewrite length_fmap, length_zip.
  destruct sorted as [|a l]; [done|]. cbn [tail length]. lia.
Qed.

Lemma adjacent_gaps_kinds axis gap (sorted : list (NodeRec * nat)) :
  Forall (λ c, is_circle c = false ∧ is_ordering c = false)
         (adjacent_gaps (sortkey:=sortkey) axis gap sorted).
Proof. unfold adjacent_gaps. apply Forall_fmap, Forall_forall. by intros [a b] _. Qed.

Lemma mapM_omap {A B} (f : A → option B) l ws : mapM f l = Some ws → omap f l = ws.
Proof.
  intros H. apply mapM_Some_1 in H.
  induction H as [|a b l k Hab _ IH]; [done|]. simpl. rewrite Hab. simpl. by f_equal.
Qed.

(** What [ordered_gaps] pushes when it does not throw: the gaps of the
    adjacent pairs of the wrappers that exist, sorted; one less than
    there are keys. *)
Lemma ordered_gaps_spec (σ : store) c gs :
  sort_permutes quicksort_by →
  ordered_gaps σ c = Some gs →
  gs = ordering_gaps σ c
  ∧ ∀ f keys axis gap, c = Ordering f keys axis gap → length gs = length keys - 1.
Proof.
  intros Hperm.
  destruct c as [| |f keys axis gap| |]; simpl; try (by intros [= <-]).
  destruct (mapM _ keys) as [ws|] eqn:Hws.
  - rewrite (mapM_omap _ _ _ Hws). intros Hgs.
    assert (gs = adjacent_gaps axis gap (quicksort_by _ (λ w : NodeRec * nat, f w.1) ws))
      as ->.
    { destruct (quicksort_by _ _ ws) as [|n rest]; simplify_eq; [done|].
      by rewrite gaps_from_adjacent. }
    split; [done|]. intros ? ? ? ? [= <- <- <- <-].
    rewrite adjacent_gaps_length, (Hperm _ _ ws).
    apply mapM_Some_1, Forall2_length in Hws. by rewrite Hws.
  - destruct (decide (length keys = 1)) as [Hone|]; [|done]. intros [= <-].
    destruct keys as [|k [|]]; simplify_eq/=.
    destruct (wrapper_of σ k); simplify_eq/=.
    pose proof (Hperm _ (λ w : NodeRec * nat, f w.1) []) as Hnil.
    symmetry in Hnil. apply Permutation_nil in Hnil. rewrite Hnil. split; [done|].
    by intros ? ? ? ? [= <- <- <- <-].
Qed.

Lemma ordering_gaps_kinds (σ : store) c :
  Forall (λ c', is_circle c' = false ∧ is_ordering c' = false) (ordering_gaps σ c).
Proof.
  destruct c; simpl; try constructor. apply adjacent_gaps_kinds.
Qed.

Lemma filter_ordering_circle (cs : list (constraint nat)) :
  filter (λ c, is_ordering c = true) (filter (λ c, is_circle c = false) cs)
  = filter (λ c, is_ordering c = true) cs.
Proof.
  induction cs as [|c cs IH]; [done|].
  destruct c; rewrite ?filter_cons; simpl;
    rewrite ?decide_True, ?decide_False by done; rewrite ?filter_cons; simpl;
    rewrite ?decide_True, ?decide_False by done; by rewrite IH.
Qed.

(** The list for the engine, when the ordering step does not throw. *)
Lemma engine_constraints_eq (σ : store) cs cs' :
  sort_permutes quicksort_by →
  engine_constraints σ cs = Some cs' →
  cs' = filter (λ c, is_ordering c = false) (filter (λ c, is_circle c = false) cs)
        ++ concat (ordering_gaps σ <$> filter (λ c, is_ordering c = true) cs)
  ∧ ∀ f keys axis gap, Ordering f keys axis gap ∈ cs →
      length (ordering_gaps σ (Ordering f keys axis gap)) = length keys - 1.
Proof.
  intros Hperm. unfold Diagram.engine_constraints.
  destruct (mapM _ _) as [pushed|] eqn:Hp; simpl; [|done]. intros [= <-].
  rewrite filter_ordering_circle in Hp. apply mapM_Some_1 in Hp.
  assert (pushed = ordering_gaps σ <$> filter (λ c, is_ordering c = true) cs) as ->.
  { induction Hp as [|c gs l k Hc _ IH]; [done|].
    rewrite fmap_cons, IH. f_equal. by apply ordered_gaps_spec in Hc as [-> _]. }
  split; [done|]. intros f keys axis gap Hin.
  assert (Ordering f keys axis gap ∈ filter (λ c, is_ordering c = true) cs) as Hin'
    by by apply list_elem_of_filter.
  apply list_elem_of_lookup in Hin' as [i Hi].
  destruct (Forall2_lookup_l _ _ _ _ _ Hp Hi) as (gs & _ & Hgs).
  apply ordered_gaps_spec in Hgs as [-> Hlen]; [|done]. by eapply Hlen.
Qed.

Lemma engine_constraints_kinds (σ : store) cs cs' :
  sort_permutes quicksort_by →
  engine_constraints σ cs = Some cs' →
  Forall (λ c, is_circle c = false ∧ is_ordering c = false) cs'.
Proof.
  intros Hperm [-> _]%engine_constraints_eq; [|done].
  apply Forall_app. split.
  - apply Forall_forall. intros c [Ho [Hc _]%list_elem_of_filter]%list_elem_of_filter.
    done.
  - apply Forall_concat, Forall_fmap, Forall_forall. intros c _.
    apply ordering_gaps_kinds.
Qed.

Lemma sublist_concat_elem {A B} (f : B → list A) (l : list B) c :
  c ∈ l → f c `sublist_of` concat (f <$> l).
Proof.
  induction l as [|b l IH]; intros Hin; [by apply elem_of_nil in Hin|].
  rewrite fmap_cons. simpl. apply elem_of_cons in Hin as [->|Hin].
  - by apply sublist_inserts_r.
  - by apply sublist_inserts_l, IH.
Qed.

(** C6: the engine is started with a list of constraints in which every
    ordering constraint that [constrain] returned has been replaced: the
    list is the constraints that are neither circle nor ordering
    constraints, followed by the gaps of each ordering constraint. These
    are the gaps of the adjacent pairs of the named nodes sorted by the
    ordering key, from the index of the left node to the index of the
    right one, with the axis and gap of the ordering: one less than
    there are nodes; for three sorted nodes a, b, c exactly the
    constraints (a,b) and (b,c), and not (a,c). No ordering constraint
    is in the list the engine gets. *)
Theorem ordering_reduction nodes edges (σ : store) o σ' :
  sort_permutes quicksort_by →
  redraw nodes edges σ = Some (o, σ') →
  skip_layout o = false →
  ∃ constraints links cs,
    mapM (translate_refs σ')
         (constrain _chart (objects (nheap σ') (nodes1 o)) (objects (eheap σ') (edges1 o)))
    = Some constraints
    ∧ last (signals o) = Some (EngineStart (nodes1 o) links cs)
    ∧ cs = filter (λ c, is_ordering c = false) (filter (λ c, is_circle c = false) constraints)
           ++ concat (ordering_gaps σ' <$> filter (λ c, is_ordering c = true) constraints)
    ∧ Forall (λ c, is_ordering c = false) cs
    ∧ ∀ f keys axis gap, Ordering f keys axis gap ∈ constraints →
        let sorted :=
          quicksort_by _ (λ w : NodeRec * nat, f w.1) (omap (wrapper_of σ') keys) in
        let gaps := adjacent_gaps axis gap sorted in
        sorted ≡ₚ omap (wrapper_of σ') keys
        ∧ length gaps = length keys - 1
        ∧ gaps `sublist_of` cs
        ∧ (∀ a b c, sorted = [a; b; c] →
             gaps = [Gap axis a.2 b.2 gap; Gap axis b.2 c.2 gap]
             ∧ (a.2 ≠ b.2 → b.2 ≠ c.2 → Gap axis a.2 c.2 gap ∉ gaps)).
Proof.
  intros Hperm Hr Hskip.
  destruct (redraw_start _ _ _ _ _ _ _ _ _ _ _ _ Hr) as (constraints & cs & Htr & Hcs & Hsig).
  rewrite Hskip in Hsig.
  exists constraints, (layout_links σ' (nodes1 o) (edges1 o) constraints), cs.
  split; [exact Htr|]. split; [by rewrite Hsig, !app_assoc, last_snoc|].
  pose proof (engine_constraints_kinds _ _ _ Hperm Hcs) as Hkinds.
  apply engine_constraints_eq in Hcs as [Heq Hlen]; [|done].
  split; [exact Heq|]. split.
  { eapply Forall_impl; [exact Hkinds|]. by intros c [_ ?]. }
  intros f keys axis gap Hin. cbn zeta. split; [apply Hperm|]. split; [|split].
  - apply (Hlen f keys axis gap Hin).
  - rewrite Heq. apply sublist_inserts_l.
    apply (sublist_concat_elem (ordering_gaps σ') _ (Ordering f keys axis gap)).
    by apply list_elem_of_filter.
  - intros a b c ->. split; [done|]. intros Hab Hbc Hg.
    unfold adjacent_gaps in Hg. simpl in Hg.
    apply elem_of_cons in Hg as [Hg|Hg]; [by simplify_eq|].
    apply elem_of_cons in Hg as [Hg|Hg]; [by simplify_eq|].
    by apply elem_of_nil in Hg.
Qed.

End constraint_claims.

Lemma truthy_nonzero r : r ≠ 0%R → truthy r = true.
Proof. intros H. unfold truthy. by destruct (Req_dec_T r 0). Qed.

Lemma truthy_zero : truthy 0 = false.
Proof. unfold truthy. by destruct (Req_dec_T 0 0). Qed.

Lemma sqrt2_bounds : (1.41421 < sqrt 2 < 1.41422)%R.
Proof.
  split.
  - rewrite <- (sqrt_square 1.41421) by lra. apply sqrt_lt_1; lra.
  - rewrite <- (sqrt_square 1.41422) by lra. apply sqrt_lt_1; lra.
Qed.

Lemma ring_of_four (d : R) :
  (d / (2 * sin (PI / INR 4)) = d * sqrt 2 / 2)%R.
Proof.
  replace (INR 4) with 4%R by (simpl; lra). rewrite sin_PI4.
  pose proof sqrt2_bounds as [? ?].
  assert (sqrt 2 * sqrt 2 = 2)%R as Hs by (apply sqrt_sqrt; lra).
  field_simplify_eq; [|lra]. nra.
Qed.

Lemma foldl_app_concat {A B} (f : B → list A) (init : list A) (l : list B) :
  foldl (λ acc c, acc ++ f c) init l = init ++ concat (f <$> l).
Proof.
  revert init. induction l as [|c l IH]; intros init; simpl.
  - by rewrite app_nil_r.
  - by rewrite IH, app_assoc.
Qed.

Section circle_claim.
Context {NodeRec EdgeRec sortkey : Type}.
Variable node_x node_y : NodeRec → option R.
Variable _chart : chart NodeRec EdgeRec sortkey.
Variable quicksort_by : ∀ A : Type, (A → sortkey) → list A → list A.
Variable JSON_stringify_nodes : list (option NodeRec) → string.
Variable JSON_stringify_edges : list (option EdgeRec) → string.
Variable wheel_edges : (nat → option key) → list nat → option R → list wheel_edge.
Local Abbreviation store := (store NodeRec EdgeRec).
Local Abbreviation constraint := (constraint NodeRec sortkey).
Local Abbreviation redraw :=
  (redraw node_x node_y _chart quicksort_by JSON_stringify_nodes JSON_stringify_edges
          wheel_edges).
Local Abbreviation ordered_gaps := (@ordered_gaps NodeRec EdgeRec sortkey quicksort_by).
Local Abbreviation engine_constraints :=
  (@engine_constraints NodeRec EdgeRec sortkey quicksort_by).
Local Abbreviation wheel := (wheel _chart wheel_edges).
Local Abbreviation layout_links := (layout_links _chart wheel_edges).
Local Abbreviation ring_radius := (ring_radius _chart).
Local Abbreviation radius_as_amended := (radius_as_amended _chart).
Local Abbreviation ring_links := (ring_links _chart wheel_edges).

Lemma gaps_from_kinds axis gap (n : NodeRec * nat) rest :
  Forall (λ c, is_circle c = false ∧ is_ordering c = false)
         (gaps_from (sortkey:=sortkey) axis gap n rest).
Proof. revert n. induction rest as [|m rest IH]; intros n; simpl; constructor; auto. Qed.

Lemma ordered_gaps_kinds (σ : store) c gs :
  ordered_gaps σ c = Some gs →
  Forall (λ c', is_circle c' = false ∧ is_ordering c' = false) gs.
Proof.
  destruct c as [| |f keys axis gap| |]; simpl; try (intros [= <-]; constructor).
  destruct (mapM _ keys) as [ws|].
  - destruct (quicksort_by _ _ ws) as [|n rest]; intros [= <-]; [constructor|].
    apply gaps_from_kinds.
  - case_decide; [|done]. intros [= <-]. constructor.
Qed.

(** No circle constraint reaches the engine, whatever the sort does. *)
Lemma engine_constraints_no_circle (σ : store) cs cs' :
  engine_constraints σ cs = Some cs' → Forall (λ c, is_circle c = false) cs'.
Proof.
  unfold Diagram.engine_constraints.
  destruct (mapM _ _) as [pushed|] eqn:Hp; simpl; [|done]. intros [= <-].
  apply Forall_app. split.
  - apply Forall_forall. intros c [_ [Hc _]%list_elem_of_filter]%list_elem_of_filter.
    done.
  - apply mapM_Some_1 in Hp. apply Forall_concat.
    induction Hp as [|c gs l k Hc _ IH]; constructor; [|done].
    eapply Forall_impl; [by apply ordered_gaps_kinds in Hc|]. by intros c' [? _].
Qed.

Lemma filter_twice {A} (P : A → Prop) `{!∀ a, Decision (P a)} (l : list A) :
  filter P (filter P l) = filter P l.
Proof.
  induction l as [|a l IH]; [done|]. rewrite filter_cons.
  destruct (decide (P a)); [|done]. by rewrite filter_cons, decide_True, IH.
Qed.

(** The circle step leaves the rest of the translation alone: the list
    for the engine is the one that the same constraints without the
    circle constraints give. *)
Lemma engine_constraints_without_circles (σ : store) cs :
  engine_constraints σ (filter (λ c, is_circle c = false) cs) = engine_constraints σ cs.
Proof. unfold Diagram.engine_constraints. by rewrite filter_twice. Qed.

(** The radius that the code computes for a ring of two nodes or more. *)
Lemma ring_radius_amended d n :
  2 ≤ n → ring_radius d n = Some (radius_as_amended d n).
Proof.
  intros Hn. unfold Diagram.ring_radius, Views.radius_as_amended, distance_or_default, truthy.
  rewrite decide_True by done. f_equal.
  destruct d as [r|]; [destruct (Req_dec_T r 0)|]; by rewrite ?(Rmult_comm 4).
Qed.

(** C7, with a zero distance counted as absent: the engine is started
    with a list of constraints that holds no circle constraint and is the
    list that the constraints without the circle constraints give (no
    constraint is added for a ring), and with links that are the layout
    edges followed by the wheel links of every circle constraint. For a
    ring of [n ≥ 2] nodes these are the links that [wheel_edges] makes for
    the radius R = d / (2·sin(π/n)), where d is the constraint's distance,
    or 4×baseLength when the distance is absent or zero; with baseLength
    30 and no distance the radius for 4 nodes is (30*4)/(2*sin(π/4)),
    between 84.85 and 84.86. *)
Theorem circle_translation nodes edges (σ : store) o σ' :
  redraw nodes edges σ = Some (o, σ') →
  skip_layout o = false →
  ∃ constraints links cs,
    mapM (translate_refs σ')
         (constrain _chart (objects (nheap σ') (nodes1 o)) (objects (eheap σ') (edges1 o)))
    = Some constraints
    ∧ last (signals o) = Some (EngineStart (nodes1 o) links cs)
    ∧ Forall (λ c, is_circle c = false) cs
    ∧ engine_constraints σ' (filter (λ c, is_circle c = false) constraints) = Some cs
    ∧ links
      = (EdgeLink <$> filter (λ l, is_layout _chart σ' l = true) (edges1 o))
        ++ concat (wheel σ' (nodes1 o) <$> filter (λ c, is_circle c = true) constraints)
    ∧ (∀ d ns, Circle d ns ∈ constraints → 2 ≤ length ns →
         wheel σ' (nodes1 o) (Circle d ns)
         = ring_links σ' (nodes1 o) ns (radius_as_amended d (length ns)))
    ∧ (baseLength _chart = 30%R →
         radius_as_amended None 4 = (30 * 4 / (2 * sin (PI / 4)))%R
         ∧ (84.85 < radius_as_amended None 4 < 84.86)%R).
Proof.
  intros Hr Hskip.
  destruct (redraw_start _ _ _ _ _ _ _ _ _ _ _ _ Hr) as (constraints & cs & Htr & Hcs & Hsig).
  rewrite Hskip in Hsig.
  exists constraints, (layout_links σ' (nodes1 o) (edges1 o) constraints), cs.
  split; [exact Htr|]. split; [by rewrite Hsig, !app_assoc, last_snoc|].
  split; [by eapply engine_constraints_no_circle|].
  split; [by rewrite engine_constraints_without_circles|].
  split; [apply foldl_app_concat|]. split.
  - intros d ns _ Hn. unfold Diagram.wheel. by rewrite ring_radius_amended.
  - intros Hb. unfold Views.radius_as_amended. rewrite Hb.
    replace (4 * 30)%R with (30 * 4)%R by lra. split.
    + by replace (INR 4) with 4%R by (simpl; lra).
    + rewrite ring_of_four. pose proof sqrt2_bounds. lra.
Qed.

End circle_claim.

Section driver_claim.
Context {NodeRec EdgeRec sortkey : Type}.
Variable node_x node_y : NodeRec → option R.
Variable _chart : chart NodeRec EdgeRec sortkey.
Variable quicksort_by : ∀ A : Type, (A → sortkey) → list A → list A.
Variable JSON_stringify_nodes : list (option NodeRec) → string.
Variable JSON_stringify_edges : list (option EdgeRec) → string.
Variable wheel_edges : (nat → option key) → list nat → option R → list wheel_edge.
Local Abbreviation store := (store NodeRec EdgeRec).
Local Abbreviation signal := (signal NodeRec sortkey).
Local Abbreviation redraw :=
  (redraw node_x node_y _chart quicksort_by JSON_stringify_nodes JSON_stringify_edges
          wheel_edges).
Local Abbreviation over_limit := (over_limit _chart).
Local Abbreviation on_tick := (@on_tick NodeRec EdgeRec sortkey _chart).
Local Abbreviation on_end := (@on_end NodeRec EdgeRec sortkey _chart).
Local Abbreviation handle := (@handle NodeRec EdgeRec sortkey _chart).
Local Abbreviation cycle_signals := (@cycle_signals NodeRec EdgeRec sortkey _chart).

Lemma ends_dispatched_app (a b : list signal) :
  ends_dispatched (a ++ b) = ends_dispatched a + ends_dispatched b.
Proof. unfold ends_dispatched. by rewrite filter_app, length_app. Qed.

Lemma on_tick_in_time t : over_limit t = false → ends_dispatched (on_tick t) = 0.
Proof.
  intros H. unfold Diagram.on_tick. rewrite H, app_nil_r.
  by destruct (showLayoutSteps _chart).
Qed.

Lemma on_tick_late t : over_limit t = true → ends_dispatched (on_tick t) = 1.
Proof.
  intros H. unfold Diagram.on_tick. rewrite H.
  by destruct (showLayoutSteps _chart).
Qed.

Lemma on_end_once : ends_dispatched on_end = 1.
Proof. unfold Diagram.on_end. by destruct (showLayoutSteps _chart). Qed.

Lemma ticks_in_time ts :
  Forall (λ t, over_limit t = false) ts →
  ends_dispatched (flat_map handle (map Tick ts)) = 0.
Proof.
  induction 1 as [|t ts Ht _ IH]; [done|].
  simpl. rewrite ends_dispatched_app, IH. by rewrite on_tick_in_time.
Qed.

(** Whatever the engine delivers, the handlers dispatch [end] once for
    every iteration that exceeds the time limit and once for every end
    the engine reports. *)
Lemma ends_dispatched_events events :
  ends_dispatched (flat_map handle events)
  = length (filter (λ ev, dispatches_end _chart ev = true) events).
Proof.
  induction events as [|ev events IH]; [done|].
  simpl. rewrite ends_dispatched_app, IH, filter_cons.
  case_decide as Hd; destruct ev as [t|]; simpl in *.
  - by rewrite on_tick_late.
  - by rewrite on_end_once.
  - apply not_true_is_false in Hd. by rewrite on_tick_in_time.
  - done.
Qed.

(** The signals of the call itself: one [end] on the skip path and no
    start of the engine; otherwise no [end] and one start. *)
Lemma redraw_signals nodes edges (σ : store) o σ' :
  redraw nodes edges σ = Some (o, σ') →
  ends_dispatched (signals o) = (if skip_layout o then 1 else 0)
  ∧ length (filter (λ s, is_start s = true) (signals o)) = (if skip_layout o then 0 else 1).
Proof.
  intros H. apply redraw_inv in H. cbn zeta in H.
  destruct H as (_ & _ & Hskip & _ & _ & links & cs & ->).
  rewrite <- Hskip. unfold ends_dispatched. rewrite !filter_app, !length_app.
  destruct (_d3cola σ), (initLayoutOnRedraw _chart), (skip_layout o); done.
Qed.

Lemma stops_tick t : stops _chart (Tick t) = over_limit t.
Proof.
  unfold stops. simpl. unfold Diagram.on_tick.
  by destruct (showLayoutSteps _chart), (over_limit t).
Qed.

Lemma stops_end : stops _chart End = false.
Proof. unfold stops. simpl. unfold Diagram.on_end. by destruct (showLayoutSteps _chart). Qed.

(** A cycle is cancelled exactly when one of its iterations exceeds the
    time limit. *)
Lemma cancelled_late events :
  cancelled _chart events = true ↔ ∃ t, Tick t ∈ events ∧ over_limit t = true.
Proof.
  unfold cancelled. rewrite existsb_exists. split.
  - intros (ev & Hin%list_elem_of_In & Hs). destruct ev as [t|].
    + rewrite stops_tick in Hs. eauto.
    + by rewrite stops_end in Hs.
  - intros (t & Hin & Hl). exists (Tick t). split; [by apply list_elem_of_In|].
    by rewrite stops_tick.
Qed.

(** The handlers of a run of the engine dispatch [end] once, and once
    more when one of them has stopped the engine. *)
Lemma engine_run_ends events :
  engine_run _chart events →
  ends_dispatched (flat_map handle events) = (if cancelled _chart events then 2 else 1).
Proof.
  induction 1 as [|t events Ht _ IH|t Ht].
  - simpl. rewrite app_nil_r, on_end_once. unfold cancelled. simpl. by rewrite stops_end.
  - cbn [flat_map]. rewrite ends_dispatched_app, IH.
    change (handle (Tick t)) with (on_tick t).
    rewrite on_tick_in_time by by rewrite <- stops_tick.
    unfold cancelled. simpl. by rewrite Ht.
  - simpl. rewrite app_nil_r, ends_dispatched_app, on_end_once.
    rewrite on_tick_late by by rewrite <- stops_tick.
    unfold cancelled. simpl. by rewrite Ht.
Qed.

(** C3, as the code has it: in a redraw cycle [_dispatch.end()] runs
    once on the skip path (where the engine is not started) and once
    when the engine converges, but twice when the cycle is cancelled:
    the handler of the iteration that exceeds the time limit stops the
    engine and dispatches [end], and the handler of the end that the
    stopped engine reports dispatches it again. *)
Theorem end_dispatched_per_cycle nodes edges (σ : store) o σ' events :
  redraw nodes edges σ = Some (o, σ') →
  terminates _chart (skip_layout o) events →
  ends_dispatched (cycle_signals o events) = (if cancelled _chart events then 2 else 1)
  ∧ (cancelled _chart events = true ↔ ∃ t, Tick t ∈ events ∧ over_limit t = true)
  ∧ (skip_layout o = true →
       Forall (λ s, is_start s = false) (cycle_signals o events)).
Proof.
  intros Hr Ht. destruct (redraw_signals _ _ _ _ _ Hr) as [Hends Hstarts].
  unfold Diagram.cycle_signals. rewrite ends_dispatched_app, Hends.
  split; [|split; [apply cancelled_late|]].
  - inversion Ht as [Hs He|evs Hrun Hs He]; subst; rewrite <- ?Hs; [done|].
    by rewrite engine_run_ends.
  - intros Hskip. rewrite Hskip in *. inversion Ht; subst. simpl. rewrite app_nil_r.
    apply Forall_forall. intros s Hs.
    destruct (is_start s) eqn:E; [|done]. exfalso.
    assert (s ∈ filter (λ s, is_start s = true) (signals o)) as Hin
      by by apply list_elem_of_filter.
    destruct (filter _ (signals o)); [by apply elem_of_nil in Hin|done].
Qed.

End driver_claim.

Lemma Forall2_fmap_eq {A B C} (f : A → C) (g : B → C) (l : list A) (k : list B) :
  Forall2 (λ a b, g b = f a) l k → g <$> k = f <$> l.
Proof. induction 1 as [|a b l k H _ IH]; [done|]. rewrite !fmap_cons. by rewrite H, IH. Qed.

Lemma Forall2_filter_both {A B} (R : A → B → Prop) (P : A → Prop) (Q : B → Prop)
    `{∀ a, Decision (P a)} `{∀ b, Decision (Q b)} (l : list A) (k : list B) :
  Forall2 R l k → (∀ a b, R a b → (P a ↔ Q b)) →
  Forall2 R (filter P l) (filter Q k).
Proof.
  intros Hf HPQ. induction Hf as [|a b l k Hab _ IH]; [constructor|].
  rewrite !filter_cons. specialize (HPQ a b Hab).
  destruct (decide (P a)), (decide (Q b)); try tauto. by constructor.
Qed.

Section snapshot_facts.
Context {NodeRec EdgeRec sortkey : Type}.
Variable node_x node_y : NodeRec → option R.
Variable _chart : chart NodeRec EdgeRec sortkey.
Local Abbreviation store := (store NodeRec EdgeRec).
Local Abbreviation node_items := (node_items node_x node_y _chart).
Local Abbreviation edge_items := (edge_items _chart).
Local Abbreviation reconcile := (reconcile node_x node_y _chart).
Local Abbreviation node_keys := (fmap (M:=list) (nodeKeyAccessor _chart)).
Local Abbreviation edge_keys := (fmap (M:=list) (edgeKeyAccessor _chart)).
Local Abbreviation nodes_run := (nodes_run node_x node_y _chart).
Local Abbreviation edges_run := (edges_run node_x node_y _chart).
Local Abbreviation visible := (visible _chart).

Lemma reconcile_nodes_is_Some nodes edges (σ : store) k :
  is_Some (_nodes (reconcile nodes edges σ).2 !! k) ↔ k ∈ node_keys nodes.
Proof.
  split; [apply reconcile_nodes_dom|]. intros Hk.
  destruct (touch_all_dict_key empty_node (node_items nodes 0) (ntable σ) k) as [l Hl].
  { by rewrite node_items_keys. }
  exists l. by apply reconcile_nodes_lookup.
Qed.

(** The array [nodes1.map(original)] is a function of the node records. *)
Lemma node_origs_reconcile nodes edges (σ : store) :
  store_wf σ →
  node_origs (reconcile nodes edges σ).2 (reconcile nodes edges σ).1.1
  = (λ v, last_with_key (nodeKeyAccessor _chart) (nodeKeyAccessor _chart v) nodes)
      <$> nodes.
Proof.
  intros Hwf. unfold node_origs. apply Forall2_fmap_eq.
  eapply Forall2_impl_elem; [apply reconcile_nodes1|].
  intros v l Hv Hl. simpl in *.
  rewrite (reconcile_node_object _ _ _ _ _ _ _ _ Hwf Hl). simpl.
  rewrite mutate_node_orig.
  destruct (last_with_key_is_Some (nodeKeyAccessor _chart) (nodeKeyAccessor _chart v) nodes)
    as (v' & -> & _); [|done].
  apply list_elem_of_fmap. eauto.
Qed.

(** The array [edges1.map(original)] is a function of the records. *)
Lemma edge_origs_reconcile nodes edges (σ : store) :
  store_wf σ →
  edge_origs (reconcile nodes edges σ).2 (reconcile nodes edges σ).1.2
  = (λ e, last_with_key (edgeKeyAccessor _chart) (edgeKeyAccessor _chart e) edges)
      <$> filter (visible nodes edges) edges.
Proof.
  intros Hwf. unfold edge_origs. rewrite reconcile_edges1. apply Forall2_fmap_eq.
  assert (Forall2 (λ e l,
            (has_endpoints (eheap (reconcile nodes edges σ).2) l = true
               ↔ visible nodes edges e)
            ∧ eheap (reconcile nodes edges σ).2 !! l ≫= e_orig
              = last_with_key (edgeKeyAccessor _chart) (edgeKeyAccessor _chart e) edges)
            edges (edges_run nodes edges σ).1) as Hf.
  { eapply Forall2_impl_elem; [apply reconcile_wrapped|].
    intros e l He Hl. simpl in Hl.
    pose proof (reconcile_edge_object _ _ _ nodes edges σ _ _ Hwf Hl) as Hobj.
    destruct (last_with_key_is_Some (edgeKeyAccessor _chart) (edgeKeyAccessor _chart e) edges)
      as (e' & Hlast & _); [apply list_elem_of_fmap; eauto|].
    destruct (mutate_edge _chart (_nodes (reconcile nodes edges σ).2) _ edges
                empty_edge e' Hlast) as (Ho & Hsrc & Htgt).
    unfold has_endpoints, Views.visible. rewrite Hobj, Hlast. simpl.
    rewrite Ho, Hsrc, Htgt. split; [|done].
    rewrite andb_true_iff, !bool_decide_eq_true, !reconcile_nodes_is_Some. done. }
  eapply Forall2_impl.
  - eapply (Forall2_filter_both _ (visible nodes edges)
              (λ l, has_endpoints (eheap (reconcile nodes edges σ).2) l = true));
      [exact Hf|]. intros e l [H _]. by symmetry.
  - intros e l [_ H]. exact H.
Qed.

End snapshot_facts.

Section skip_claim.
Context {NodeRec EdgeRec sortkey : Type}.
Variable node_x node_y : NodeRec → option R.
Variable _chart : chart NodeRec EdgeRec sortkey.
Variable quicksort_by : ∀ A : Type, (A → sortkey) → list A → list A.
Variable JSON_stringify_nodes : list (option NodeRec) → string.
Variable JSON_stringify_edges : list (option EdgeRec) → string.
Variable wheel_edges : (nat → option key) → list nat → option R → list wheel_edge.
Local Abbreviation store := (store NodeRec EdgeRec).
Local Abbreviation reconcile := (reconcile node_x node_y _chart).
Local Abbreviation redraw :=
  (redraw node_x node_y _chart quicksort_by JSON_stringify_nodes JSON_stringify_edges
          wheel_edges).
Local Abbreviation detect_unchanged :=
  (detect_unchanged _chart JSON_stringify_nodes JSON_stringify_edges).
Local Abbreviation effective_nodes := (effective_nodes _chart quicksort_by).
Local Abbreviation effective_edges := (effective_edges _chart quicksort_by).
Local Abbreviation node_keys := (fmap (M:=list) (nodeKeyAccessor _chart)).
Local Abbreviation fixed_of := (fixed_of _chart).
Local Abbreviation node_items := (node_items node_x node_y _chart).

Lemma mark_parallel_dom edges1 em (σ σ' : store) l :
  mark_parallel edges1 em σ = Some σ' →
  is_Some (eheap σ' !! l) ↔ is_Some (eheap σ !! l).
Proof.
  revert em σ. induction edges1 as [|l' ls IH]; intros em σ H; simpl in H.
  - by simplify_eq.
  - destruct (eheap σ !! l') as [e1|] eqn:E; simpl in H; [|done].
    destruct (endpoint_indices σ e1) as [[si ti]|]; simpl in H; [|done].
    destruct (post_increment em _ _) as [[p em']|]; simpl in H; [|done].
    apply IH in H. rewrite H. simpl.
    destruct (decide (l = l')) as [->|Hne].
    + rewrite lookup_insert_eq, E. split; eauto.
    + by rewrite lookup_insert_ne.
Qed.

Lemma store_wf_ext (σ σ' : store) :
  _nodes σ' = _nodes σ → nheap σ' = nheap σ → nnext σ' = nnext σ →
  _edges σ' = _edges σ → enext σ' = enext σ →
  (∀ l, is_Some (eheap σ' !! l) ↔ is_Some (eheap σ !! l)) →
  store_wf σ → store_wf σ'.
Proof.
  intros Hn Hh Hx He Hy Hd [Hwn (He1 & He2 & He3)]. split.
  - unfold ntable. by rewrite Hn, Hh, Hx.
  - unfold etable in *. repeat split; simpl in *.
    + intros k l. rewrite He, Hd. apply He1.
    + intros l. rewrite Hy, Hd. apply He2.
    + rewrite He. apply He3.
Qed.

Lemma parallel_edges_wf nodes1 edges1 (σ σ' : store) :
  parallel_edges _chart nodes1 edges1 σ = Some σ' → store_wf σ → store_wf σ'.
Proof.
  intros H. pose proof (parallel_edges_same _ _ _ _ _ H) as (Hn & He & Hh & Hx & Hy & _).
  apply store_wf_ext; try done.
  unfold parallel_edges in H. destruct (truthy _).
  - intros l. by eapply mark_parallel_dom.
  - by simplify_eq.
Qed.

(** [redraw] keeps the invariant of the store. *)
Lemma redraw_wf nodes edges (σ : store) o σ' :
  store_wf σ → redraw nodes edges σ = Some (o, σ') → store_wf σ'.
Proof.
  intros Hwf H. apply redraw_inv in H. cbn zeta in H.
  destruct H as (_ & _ & _ & Hpar & _).
  eapply parallel_edges_wf; [exact Hpar|].
  match goal with |- store_wf (Diagram.detect_unchanged _ _ _ ?a ?b ?c).2 =>
    destruct (detect_unchanged_same _chart JSON_stringify_nodes JSON_stringify_edges a b c)
      as (Hn & He & Hh & Hg & Hx & Hy & _);
    apply (store_wf_ext c); try done end.
  { intros l. by rewrite Hg. }
  by apply reconcile_wf.
Qed.

Lemma engine_moved_wf (σ σ' : store) : engine_moved σ σ' → store_wf σ → store_wf σ'.
Proof.
  intros (Hn & He & Hg & Hx & Hy & _ & _ & _ & Hobj) [(Hn1 & Hn2 & Hn3) Hwe].
  assert (∀ l, is_Some (nheap σ' !! l) ↔ is_Some (nheap σ !! l)) as Hdom.
  { intros l. specialize (Hobj l).
    destruct (nheap σ !! l), (nheap σ' !! l); try done; split; eauto.
    all: by intros [? ?]. }
  split.
  - unfold ntable in *. repeat split; simpl in *.
    + intros k l. rewrite Hn, Hdom. apply Hn1.
    + intros l. rewrite Hx, Hdom. apply Hn2.
    + rewrite Hn. apply Hn3.
  - unfold etable in *. by rewrite He, Hg, Hy.
Qed.

Lemma reconcile_snapshots nodes edges (σ : store) :
  _nodes_snapshot (reconcile nodes edges σ).2 = _nodes_snapshot σ
  ∧ _edges_snapshot (reconcile nodes edges σ).2 = _edges_snapshot σ
  ∧ _d3cola (reconcile nodes edges σ).2 = _d3cola σ.
Proof. by rewrite reconcile_eq. Qed.

(** With [layoutUnchanged] false a redraw leaves the serialized records
    in the two snapshots. *)
Lemma redraw_snapshots nodes edges (σ : store) o σ' :
  store_wf σ → layoutUnchanged _chart = false →
  redraw nodes edges σ = Some (o, σ') →
  let ns := effective_nodes nodes edges in
  let es := effective_edges edges in
  let nodes_snapshot :=
    JSON_stringify_nodes
      ((λ v, last_with_key (nodeKeyAccessor _chart) (nodeKeyAccessor _chart v) ns) <$> ns) in
  let edges_snapshot :=
    JSON_stringify_edges
      ((λ e, last_with_key (edgeKeyAccessor _chart) (edgeKeyAccessor _chart e) es)
         <$> filter (visible _chart ns es) es) in
  _nodes_snapshot σ' = Some nodes_snapshot
  ∧ _edges_snapshot σ' = Some edges_snapshot
  ∧ skip_layout o = bool_decide (Some nodes_snapshot = _nodes_snapshot σ)
                    && bool_decide (Some edges_snapshot = _edges_snapshot σ).
Proof.
  intros Hwf Hlu H. apply redraw_inv in H. cbn zeta in H.
  destruct H as (_ & _ & Hskip & Hpar & _).
  apply parallel_edges_same in Hpar as (_ & _ & _ & _ & _ & Hsn & Hse & _).
  cbn zeta. rewrite Hsn, Hse, Hskip. unfold Diagram.detect_unchanged. rewrite Hlu.
  simpl. rewrite node_origs_reconcile, edge_origs_reconcile by done.
  match goal with |- context [_nodes_snapshot (Diagram.reconcile ?a ?b ?c ?n ?e ?s).2] =>
    destruct (reconcile_snapshots n e s) as (-> & -> & _) end.
  done.
Qed.

End skip_claim.

Section skip_claim.
Context {NodeRec EdgeRec sortkey : Type}.
Variable node_x node_y : NodeRec → option R.
Variable _chart : chart NodeRec EdgeRec sortkey.
Variable quicksort_by : ∀ A : Type, (A → sortkey) → list A → list A.
Variable JSON_stringify_nodes : list (option NodeRec) → string.
Variable JSON_stringify_edges : list (option EdgeRec) → string.
Variable wheel_edges : (nat → option key) → list nat → option R → list wheel_edge.
Local Abbreviation store := (store NodeRec EdgeRec).
Local Abbreviation reconcile := (reconcile node_x node_y _chart).
Local Abbreviation redraw :=
  (redraw node_x node_y _chart quicksort_by JSON_stringify_nodes JSON_stringify_edges
          wheel_edges).
Local Abbreviation detect_unchanged :=
  (detect_unchanged _chart JSON_stringify_nodes JSON_stringify_edges).
Local Abbreviation effective_nodes := (effective_nodes _chart quicksort_by).
Local Abbreviation effective_edges := (effective_edges _chart quicksort_by).
Local Abbreviation node_keys := (fmap (M:=list) (nodeKeyAccessor _chart)).
Local Abbreviation fixed_of := (fixed_of _chart).
Local Abbreviation node_items := (node_items node_x node_y _chart).

(** The reconciliation leaves [x] and [y] of a node wrapper alone unless
    a record of its key is marked fixed. *)
Lemma reconcile_position nodes edges (σ : store) l v1 :
  store_wf σ → nheap σ !! l = Some v1 →
  (∀ v, v ∈ nodes → _nodes σ !! nodeKeyAccessor _chart v = Some l → fixed_of v = None) →
  ∃ v2, nheap (reconcile nodes edges σ).2 !! l = Some v2 ∧ x v2 = x v1 ∧ y v2 = y v1.
Proof.
  intros Hwf Hl Hfree.
  destruct (decide (Exists (λ k, _nodes σ !! k = Some l) (node_keys nodes))) as [Hex|Hno].
  - apply Exists_exists in Hex as (k & Hk & Hkl).
    pose proof (reconcile_node_identity node_x node_y _chart nodes edges σ k l Hkl Hk) as Hid.
    rewrite (reconcile_node_object _ _ _ _ _ _ _ _ Hwf Hid).
    eexists. split; [done|].
    assert (Table.object_of empty_node (ntable σ) k = v1) as ->.
    { unfold Table.object_of. simpl. rewrite Hkl. simpl. by rewrite Hl. }
    apply mutate_node_position. intros v Hv <-. by apply Hfree.
  - exists v1. split; [|done]. rewrite reconcile_node_frame; [done|done| |].
    + destruct Hwf as [(_ & Hlt & _) _]. apply Hlt. simpl. eauto.
    + intros k Hk Hin. apply Hno. apply Exists_exists. eauto.
Qed.

(** The skip path: when [redraw] is called twice with the same records
    and [layoutUnchanged] is false, the second call finds both snapshots
    equal, dispatches [end] once and does not start the engine, and it
    leaves [x] and [y] of every node wrapper as they were before the
    call, unless the fixed accessor marks the node fixed. *)
Lemma skip_when_unchanged nodes edges (σ : store) o1 σ1 σ1' o2 σ2 :
  sort_permutes quicksort_by →
  store_wf σ →
  layoutUnchanged _chart = false →
  redraw nodes edges σ = Some (o1, σ1) →
  engine_moved σ1 σ1' →
  redraw nodes edges σ1' = Some (o2, σ2) →
  skip_layout o2 = true
  ∧ ends_dispatched (signals o2) = 1
  ∧ Forall (λ s, is_start s = false) (signals o2)
  ∧ ∀ l v1, nheap σ1' !! l = Some v1 →
      (∀ v, v ∈ nodes → _nodes σ1' !! nodeKeyAccessor _chart v = Some l →
            fixed_of v = None) →
      ∃ v2, nheap σ2 !! l = Some v2 ∧ x v2 = x v1 ∧ y v2 = y v1.
Proof.
  intros Hperm Hwf Hlu H1 Hmoved H2.
  assert (store_wf σ1) as Hwf1 by (eapply redraw_wf; eassumption).
  assert (store_wf σ1') as Hwf1' by (eapply engine_moved_wf; eassumption).
  destruct (redraw_snapshots node_x node_y _chart quicksort_by JSON_stringify_nodes
              JSON_stringify_edges wheel_edges nodes edges σ o1 σ1 Hwf Hlu H1)
    as (Hn1 & He1 & _).
  destruct (redraw_snapshots node_x node_y _chart quicksort_by JSON_stringify_nodes
              JSON_stringify_edges wheel_edges nodes edges σ1' o2 σ2 Hwf1' Hlu H2)
    as (_ & _ & Hskip).
  destruct Hmoved as (_ & _ & _ & _ & _ & Hsn & Hse & _).
  cbn zeta in *. rewrite Hsn, Hse, Hn1, He1 in Hskip.
  rewrite !bool_decide_eq_true_2 in Hskip by done. simpl in Hskip.
  destruct (redraw_signals node_x node_y _chart quicksort_by JSON_stringify_nodes
              JSON_stringify_edges wheel_edges nodes edges σ1' o2 σ2 H2)
    as [Hends Hstarts].
  rewrite Hskip in Hends, Hstarts.
  split; [done|]. split; [done|]. split.
  - apply Forall_forall. intros s Hs.
    destruct (is_start s) eqn:E; [|done]. exfalso.
    assert (s ∈ filter (λ s, is_start s = true) (signals o2)) as Hin
      by by apply list_elem_of_filter.
    destruct (filter _ (signals o2)); [by apply elem_of_nil in Hin|done].
  - intros l v1 Hl Hfree.
    apply redraw_inv in H2. cbn zeta in H2.
    destruct H2 as (_ & _ & _ & Hpar & _).
    apply parallel_edges_same in Hpar as (_ & _ & -> & _).
    match goal with |- context [Diagram.detect_unchanged _ _ _ ?a ?b ?c] =>
      destruct (detect_unchanged_same _chart JSON_stringify_nodes JSON_stringify_edges a b c)
        as (_ & _ & -> & _) end.
    apply reconcile_position; [done|done|].
    intros v Hv. apply Hfree. by eapply effective_nodes_subset.
Qed.

End skip_claim.

Section returns.
Context {NodeRec EdgeRec sortkey : Type}.
Variable node_x node_y : NodeRec → option R.
Variable _chart : chart NodeRec EdgeRec sortkey.
Variable quicksort_by : ∀ A : Type, (A → sortkey) → list A → list A.
Variable JSON_stringify_nodes : list (option NodeRec) → string.
Variable JSON_stringify_edges : list (option EdgeRec) → string.
Variable wheel_edges : (nat → option key) → list nat → option R → list wheel_edge.
Local Abbreviation store := (store NodeRec EdgeRec).
Local Abbreviation reconcile := (reconcile node_x node_y _chart).
Local Abbreviation redraw :=
  (redraw node_x node_y _chart quicksort_by JSON_stringify_nodes JSON_stringify_edges
          wheel_edges).
Local Abbreviation detect_unchanged :=
  (detect_unchanged _chart JSON_stringify_nodes JSON_stringify_edges).
Local Abbreviation effective_nodes := (effective_nodes _chart quicksort_by).
Local Abbreviation effective_edges := (effective_edges _chart quicksort_by).
Local Abbreviation node_keys := (fmap (M:=list) (nodeKeyAccessor _chart)).

(** The parallel-edge block does not throw when every edge has its two
    endpoint indices inside the matrix, also when a wrapper occurs twice. *)
Lemma mark_parallel_succeeds n edges1 em (σ : store) :
  square n em →
  Forall (λ l, ∃ e1 p, eheap σ !! l = Some e1 ∧ endpoint_indices σ e1 = Some p
                       ∧ p.1 < n ∧ p.2 < n) edges1 →
  is_Some (mark_parallel edges1 em σ).
Proof.
  revert em σ. induction edges1 as [|l ls IH]; intros em σ Hsq Hall; [by eexists|].
  apply Forall_cons in Hall as [(e1 & [si ti] & He1 & Hp & Hs & Ht) Hall].
  simpl in *. rewrite He1. simpl. rewrite Hp. simpl.
  destruct (post_increment_spec n em (si `min` ti) (si `max` ti))
    as (em' & -> & Hsq' & _); [done|lia|lia|].
  simpl. apply IH; [done|].
  eapply Forall_impl; [exact Hall|]. intros l' (e1' & p' & He1' & Hp' & Hr).
  destruct (decide (l' = l)) as [->|Hne].
  - exists (set_parallel (entry em (si `min` ti) (si `max` ti)) e1), (si, ti).
    simpl. rewrite lookup_insert_eq. split; [done|]. split; [|done].
    rewrite <- Hp. by apply endpoint_indices_ext.
  - exists e1', p'. simpl. rewrite lookup_insert_ne by done. split; [done|].
    split; [|done]. rewrite <- Hp'. by apply endpoint_indices_ext.
Qed.

(** [redraw] returns on every well-formed store once the engine exists,
    when [constrain] yields no constraints (its default). *)
Lemma redraw_returns nodes edges (σ : store) :
  store_wf σ →
  _d3cola σ || initLayoutOnRedraw _chart = true →
  (∀ ns es, constrain _chart ns es = []) →
  is_Some (redraw nodes edges σ).
Proof.
  intros Hwf Hengine Hnone. unfold Diagram.redraw.
  set (σ0 := set_d3cola (_d3cola σ || initLayoutOnRedraw _chart) σ).
  assert (store_wf σ0) as Hwf0 by done.
  pose proof (reconcile_endpoints node_x node_y _chart
                (effective_nodes nodes edges) (effective_edges edges) σ0) as Hend.
  pose proof (reconcile_nodes1_length node_x node_y _chart
                (effective_nodes nodes edges) (effective_edges edges) σ0) as Hlen.
  pose proof (reconcile_snapshots node_x node_y _chart
                (effective_nodes nodes edges) (effective_edges edges) σ0) as (_ & _ & Hd).
  destruct (reconcile _ _ σ0) as [[ns es] σ1]. simpl in *.
  destruct (detect_unchanged_same _chart JSON_stringify_nodes JSON_stringify_edges ns es σ1)
    as (_ & _ & Hnh & Heh & _ & _ & Hd2).
  destruct (detect_unchanged ns es σ1) as [skip σ2]. simpl in *.
  assert (is_Some (parallel_edges _chart ns es σ2)) as [σ3 Hσ3].
  { unfold parallel_edges. destruct (truthy _); [|by eexists].
    apply (mark_parallel_succeeds (length ns)); [apply square_replicate|].
    apply Forall_forall. intros l Hl.
    destruct (Hend l Hwf0 Hl) as (e1 & p & He1 & Hp & ?).
    exists e1, p. rewrite Heh, Hlen. split; [done|]. split; [|done].
    rewrite <- Hp. by apply endpoint_indices_ext. }
  rewrite Hσ3. simpl.
  apply parallel_edges_same in Hσ3 as (_ & _ & _ & _ & _ & _ & _ & Hd3).
  rewrite Hd3, Hd2, Hd. unfold σ0. simpl. rewrite Hengine.
  rewrite Hnone. simpl. by eexists.
Qed.

(** A node key that is among the records that reach [wrap_node] keeps
    the wrapper it had before the redraw. *)
Lemma redraw_node_identity nodes edges (σ : store) o σ' k l :
  redraw nodes edges σ = Some (o, σ') →
  _nodes σ !! k = Some l → k ∈ node_keys (effective_nodes nodes edges) →
  _nodes σ' !! k = Some l.
Proof.
  intros H Hl Hk. apply redraw_inv in H. cbn zeta in H.
  destruct H as (_ & _ & _ & Hpar & _).
  apply parallel_edges_same in Hpar as (-> & _).
  match goal with |- context [Diagram.detect_unchanged _ _ _ ?a ?b ?c] =>
    destruct (detect_unchanged_same _chart JSON_stringify_nodes JSON_stringify_edges a b c)
      as (-> & _) end.
  by apply reconcile_node_identity.
Qed.

End returns.

(** ** Port placement *)

Module PortFacts.
Import PlacePorts Example.
Local Open Scope R_scope.

(** An angle of (-π, π] is its own normal form. *)
Lemma normalize_angle_id t : - PI < t <= PI → normalize_angle t = t.
Proof.
  intros [Hlo Hhi]. unfold normalize_angle. pose proof PI_RGT_0 as Hpi.
  assert (up ((PI - t) / (2 * PI)) = 1%Z) as ->.
  { assert ((PI - t) / (2 * PI) * (2 * PI) = PI - t) as Hq by (field; lra).
    set (q := (PI - t) / (2 * PI)) in *.
    symmetry. apply tech_up; simpl; nra. }
  rewrite Z.sub_diag. lra.
Qed.

Lemma clip_angle_cases t a b : clip_angle t a b = a ∨ clip_angle t a b = b.
Proof. unfold clip_angle. destruct (Rlt_dec _ _); auto. Qed.

Lemma clip_angle_closest t a b :
  Rabs (normalize_angle (t - clip_angle t a b)) <= Rabs (normalize_angle (t - a))
  ∧ Rabs (normalize_angle (t - clip_angle t a b)) <= Rabs (normalize_angle (t - b)).
Proof. unfold clip_angle. destruct (Rlt_dec _ _); lra. Qed.

Lemma clip_angle_example : clip_angle PI 0 (PI / 2) = PI / 2.
Proof.
  pose proof PI_RGT_0 as Hpi. unfold clip_angle.
  rewrite !normalize_angle_id by lra.
  rewrite !Rabs_right by lra.
  destruct (Rlt_dec _ _); [lra|done].
Qed.

Section port_claims.
Variable between_angles : R → R → R → bool.
Variable normalize_angle_delta : R → R.
Variable point_on_shape : wnode → R → R → point.
Variable portBounds : port → option (R * R).
Variable random : nat → R.
Local Abbreviation classify := (classify between_angles).
Local Abbreviation inside_after_shunt := (inside_after_shunt between_angles).
Local Abbreviation resolve := (resolve between_angles normalize_angle_delta random).
Local Abbreviation direct := (direct portBounds).
Local Abbreviation place_node_ports :=
  (place_node_ports between_angles normalize_angle_delta point_on_shape portBounds random).

Lemma classify_outside p :
  classify p = Outside →
  ∃ t a b, theta p = Some t ∧ bounds p = Some (a, b) ∧ between_angles t a b = false.
Proof.
  unfold PlacePorts.classify. destruct (theta p) as [t|]; [|done].
  destruct (bounds p) as [[a b]|]; [|done].
  destruct (between_angles t a b) eqn:E; [done|]. eauto 6.
Qed.

Lemma resolve_outside nports k i p :
  nports !! i = Some p → classify p = Outside →
  (resolve nports k).1 !! i = Some (shunt p).
Proof.
  revert k i. induction nports as [|q ps IH]; intros k i Hi Hp; [done|].
  simpl. destruct i as [|i]; simpl in Hi.
  - simplify_eq. rewrite Hp. by destruct (resolve ps k).
  - destruct (classify q).
    + specialize (IH k i Hi Hp). by destruct (resolve ps k).
    + specialize (IH k i Hi Hp). by destruct (resolve ps k).
    + specialize (IH (S k) i Hi Hp). by destruct (resolve ps (S k)).
Qed.

(** C9: a port classified outside (theta defined, outside its bounds)
    gets as theta whichever of its two bounds is angularly closer to the
    old theta, by the absolute normalized difference, and is pushed to the
    array [inside]; a port with bounds [0, π/2] and theta π is clipped to
    π/2. *)
Theorem outside_ports_clipped (nports : list port) (i : nat) (p : port) :
  nports !! i = Some p →
  classify p = Outside →
  (∃ t a b, theta p = Some t ∧ bounds p = Some (a, b) ∧ between_angles t a b = false
     ∧ theta (shunt p) = Some (clip_angle t a b)
     ∧ (clip_angle t a b = a ∨ clip_angle t a b = b)
     ∧ Rabs (normalize_angle (t - clip_angle t a b)) <= Rabs (normalize_angle (t - a))
     ∧ Rabs (normalize_angle (t - clip_angle t a b)) <= Rabs (normalize_angle (t - b)))
  ∧ shunt p ∈ inside_after_shunt nports
  ∧ (∀ k, (resolve nports k).1 !! i = Some (shunt p))
  ∧ (∀ q, theta q = Some PI → bounds q = Some (0, PI / 2) →
       theta (shunt q) = Some (PI / 2)).
Proof.
  intros Hi Hp. split; [|split; [|split]].
  - destruct (classify_outside p Hp) as (t & a & b & Ht & Hb & Hbt).
    exists t, a, b. split; [done|]. split; [done|]. split; [done|].
    split; [unfold shunt; by rewrite Ht, Hb|].
    split; [apply clip_angle_cases|apply clip_angle_closest].
  - unfold PlacePorts.inside_after_shunt. apply elem_of_app. right.
    apply list_elem_of_fmap. exists p. split; [done|].
    apply list_elem_of_filter. split; [done|]. by eapply list_elem_of_lookup_2.
  - intros k. by apply resolve_outside.
  - intros q Ht Hb. unfold shunt. rewrite Ht, Hb. simpl.
    by rewrite clip_angle_example.
Qed.

(** [direct] computes [p.vec] and [p.bounds]; it never assigns [p.theta]. *)
Lemma direct_keeps_theta n p : theta (direct n p) = theta p.
Proof.
  unfold PlacePorts.direct. simpl.
  destruct (p_orig p); [|done]. by destruct (portBounds _) as [[a b]|].
Qed.

Lemma classify_unset p : theta p = None → classify p = Unplaced.
Proof. unfold PlacePorts.classify. by intros ->. Qed.

End port_claims.

Lemma hypot_10_0 : hypot 10 0 = 10.
Proof.
  unfold hypot. replace (10 * 10 + 0 * 0) with (10 * 10) by lra.
  apply sqrt_square. lra.
Qed.

(** C2 at the failing input: the mean direction of the port's edges is
    the unit vector (1, 0), whose angle is 0, and still the port has no
    theta after the first pass, is classified unplaced and ends with the
    random angle instead of the direction of its edge. *)
Theorem mean_direction_not_used between_angles normalize_angle_delta point_on_shape
    portBounds random :
  p_vec (direct portBounds origin east_port) = VecMean (Vector 1 0)
  ∧ theta (direct portBounds origin east_port) = None
  ∧ classify between_angles (direct portBounds origin east_port) = Unplaced
  ∧ theta <$> (place_node_ports between_angles normalize_angle_delta point_on_shape
                 portBounds random origin [east_port] 0).1
    = [Some (normalize_angle (- PI + random 0%nat * normalize_angle_delta (PI - - PI)))].
Proof.
  split; [|split; [done|split; [done|done]]].
  unfold direct, east_port, set_vec. simpl. unfold vec. simpl. unfold norm. simpl.
  replace (10 - 0) with 10 by lra. replace (0 - 0) with 0 by lra.
  rewrite hypot_10_0. do 2 f_equal; lra.
Qed.

Lemma west_port_outside : classify between_closed west_port = Outside.
Proof.
  unfold classify, west_port, between_closed. simpl. pose proof PI_RGT_0.
  destruct (Rle_dec 0 PI); [|lra]. destruct (Rle_dec PI (PI / 2)); [lra|done].
Qed.

(** C9 on the port with bounds [0, π/2] and theta π. *)
Lemma outside_ports_clipped_witness :
  classify between_closed west_port = Outside
  ∧ theta (shunt west_port) = Some (PI / 2)
  ∧ shunt west_port ∈ inside_after_shunt between_closed [west_port].
Proof.
  destruct (outside_ports_clipped between_closed (λ d, d) (λ _, 0) [west_port] 0%nat
              west_port eq_refl west_port_outside) as (_ & Hin & _ & Hex).
  split; [exact west_port_outside|]. split; [|exact Hin].
  exact (Hex west_port eq_refl eq_refl).
Defined.

End PortFacts.

(** ** The concrete diagram: evaluations on concrete inputs *)

Import Example.

(** *** The concrete diagram *)

Lemma insert_by_Permutation {A} (f : A → nat) a (l : list A) : insert_by f a l ≡ₚ a :: l.
Proof.
  induction l as [|b l IH]; simpl; [done|].
  case_decide; [done|]. rewrite IH. apply Permutation_swap.
Qed.

Lemma insertionsort_by_permutes : sort_permutes insertionsort_by.
Proof.
  intros A f l. unfold insertionsort_by.
  assert (∀ acc, foldl (λ acc a, insert_by f a acc) acc l ≡ₚ acc ++ l) as H.
  { induction l as [|a l IH]; intros acc; simpl; [by rewrite app_nil_r|].
    rewrite IH, insert_by_Permutation. simpl. apply Permutation_middle. }
  apply (H []).
Qed.

Lemma init_store_wf {NodeRec EdgeRec} : store_wf (@init_store NodeRec EdgeRec).
Proof.
  split; repeat split; simpl; intros *; rewrite ?lookup_empty; try done;
    by intros [? ?].
Qed.

Lemma rendered_wf : store_wf rendered.
Proof.
  split; repeat split; simpl; intros *; rewrite ?lookup_empty; try done;
    by intros [? ?].
Qed.

Lemma truthy_5 : truthy 5 = true.
Proof. apply truthy_nonzero. lra. Qed.

Lemma returned r : is_Some r → r = Some (outcome_of r, store_of r).
Proof. by intros [[o σ] ->]. Qed.

(** Evaluate a call of [redraw] on the concrete diagram. *)
Ltac run_redraw :=
  unfold redraw0, redraw_with, redraw, parallel_edges; simpl parallelEdgeOffset;
  rewrite ?truthy_5; vm_compute.

Lemma place_engine_moved l px py σ : engine_moved σ (place l px py σ).
Proof.
  unfold place. repeat split; simpl. intros l'.
  destruct (decide (l' = l)) as [->|Hne].
  - rewrite lookup_alter_eq. by destruct (nheap σ !! l).
  - rewrite lookup_alter_ne by done. by destruct (nheap σ !! l').
Qed.

Lemma first_AB_returns : is_Some first_AB.
Proof. unfold first_AB. run_redraw. eexists. reflexivity. Qed.

Lemma second_AB_returns : is_Some second_AB.
Proof. unfold second_AB, first_AB, store_of. run_redraw. eexists. reflexivity. Qed.

(** C1 at the failing input: the records A, B and the edge e1 from A to B
    are redrawn twice, unchanged. The node wrappers are the same objects in
    both redraws; the wrapper of e1 is not: the second redraw stores a new
    object under the key. *)
Theorem edge_wrapper_recreated :
  _nodes (store_of first_AB) !! "A" = Some 0
  ∧ _nodes (store_of second_AB) !! "A" = Some 0
  ∧ _edges (store_of first_AB) !! "e1" = Some 0
  ∧ _edges (store_of second_AB) !! "e1" = Some 1.
Proof.
  unfold second_AB, first_AB, store_of. run_redraw. done.
Qed.

Lemma first_ABC_returns : is_Some first_ABC.
Proof. unfold first_ABC. run_redraw. eexists. reflexivity. Qed.

Lemma then_AB_returns : is_Some then_AB.
Proof. unfold then_AB, first_ABC, store_of. run_redraw. eexists. reflexivity. Qed.

(** C8 on the concrete diagram: C had the wrapper 2 and has none once
    it has left the records; neither has the edge e3. *)
Lemma garbage_collection_witness :
  then_AB = Some (outcome_of then_AB, store_of then_AB)
  ∧ _nodes (store_of first_ABC) !! "C" = Some 2
  ∧ _nodes (store_of then_AB) !! "C" = None
  ∧ _edges (store_of then_AB) !! "e3" = None.
Proof.
  pose proof (returned then_AB then_AB_returns) as Hr.
  destruct (garbage_collection nx ny chart0 insertionsort_by (stringify nkey)
              (stringify ekey) ring [A; B] [e1] (store_of first_ABC)
              (outcome_of then_AB) (store_of then_AB) insertionsort_by_permutes Hr)
    as [Hn He].
  split; [exact Hr|]. split; [|split].
  - unfold first_ABC, store_of. run_redraw. reflexivity.
  - apply Hn. apply (bool_decide_unpack _). vm_compute. exact I.
  - apply He. apply (bool_decide_unpack _). vm_compute. exact I.
Defined.

(** C10 on the fixed node F: the accessor returns (3, 4), the record has
    no [x] and [y], and the wrapper gets those of the record. *)
Lemma wrap_node_fixed_witness :
  ∃ v1, nheap (wrap_node nx ny chart0 F 0 (rendered, ∅)).2.1
          !! (wrap_node nx ny chart0 F 0 (rendered, ∅)).1 = Some v1
    ∧ fixed v1 = Some true ∧ x v1 = None ∧ y v1 = None.
Proof.
  destruct (wrap_node_fixed nx ny chart0 F 0 rendered ∅ rendered_wf)
    as (v1 & Hv1 & _ & _ & Hfixed).
  exists v1. split; [exact Hv1|].
  exact (Hfixed nfixed (Coord (Some 3%R) (Some 4%R)) eq_refl eq_refl).
Defined.


(** The scenario of the spec, with the second edge mirrored as well. *)
Lemma parallel_scenario :
  parallels (store_of first_ABC) (edges1 (outcome_of first_ABC))
  = [Some 0; Some 1; Some 0]
  ∧ parallels
      (store_of (redraw0 [A; B; C] [e1; EdgeKV "e2" "B" "A" false; e3] rendered))
      (edges1 (outcome_of (redraw0 [A; B; C] [e1; EdgeKV "e2" "B" "A" false; e3] rendered)))
    = [Some 0; Some 1; Some 0].
Proof. unfold first_ABC, store_of, outcome_of. run_redraw. done. Qed.

Lemma ordered_ABC_returns :
  ordered_ABC = Some (outcome_of ordered_ABC, store_of ordered_ABC).
Proof. apply returned. unfold ordered_ABC. run_redraw. eexists. reflexivity. Qed.

Lemma ordered_ABC_not_skipped : skip_layout (outcome_of ordered_ABC) = false.
Proof. unfold ordered_ABC, outcome_of. run_redraw. reflexivity. Qed.

Lemma ordered_ABC_wrappers :
  omap (wrapper_of (store_of ordered_ABC)) ["C"; "A"; "B"] = [(C, 2); (A, 0); (B, 1)]
  ∧ nodes1 (outcome_of ordered_ABC) = [0; 1; 2].
Proof. unfold ordered_ABC, store_of, outcome_of. run_redraw. done. Qed.

(** C6 on an ordering of C, A, B by rank along x with gap 50: the engine
    is started with the gaps from A to B and from B to C. *)
Lemma ordering_reduction_witness :
  ∃ links,
    last (signals (outcome_of ordered_ABC))
    = Some (EngineStart [0; 1; 2] links [Gap "x" 0 1 50%R; Gap "x" 1 2 50%R]).
Proof.
  destruct (ordering_reduction nx ny chart_ordered insertionsort_by (stringify nkey)
              (stringify ekey) ring [A; B; C] [e1; e2; e3] rendered
              (outcome_of ordered_ABC) (store_of ordered_ABC)
              insertionsort_by_permutes ordered_ABC_returns ordered_ABC_not_skipped)
    as (constraints & links & cs & Htr & Hlast & Hcs & _).
  exists links.
  change (Some [Ordering nrank ["C"; "A"; "B"] "x" 50%R] = Some constraints) in Htr.
  injection Htr as <-.
  destruct ordered_ABC_wrappers as [Hws Hn1].
  change (cs = [] ++ concat [ordering_gaps insertionsort_by (store_of ordered_ABC)
                               (Ordering nrank ["C"; "A"; "B"] "x" 50%R)]) in Hcs.
  unfold ordering_gaps in Hcs. rewrite Hws in Hcs.
  rewrite Hlast, Hn1, Hcs. reflexivity.
Defined.

(** C7 at distance 0: the code takes 4×baseLength for a distance of zero,
    so that the radius is not the zero that the distance itself gives. *)
Lemma zero_distance_radius :
  ring_radius chart0 (Some 0%R) 4 ≠ Some (radius_as_specified chart0 (Some 0%R) 4).
Proof.
  unfold ring_radius, distance_or_default, radius_as_specified.
  rewrite truthy_zero, decide_True by lia. simpl default.
  change (baseLength chart0) with 30%R.
  rewrite !ring_of_four. pose proof sqrt2_bounds. intros [=]. lra.
Qed.

Lemma circled_returns : circled = Some (outcome_of circled, store_of circled).
Proof. apply returned. unfold circled. run_redraw. eexists. reflexivity. Qed.

Lemma circled_not_skipped : skip_layout (outcome_of circled) = false.
Proof. unfold circled, outcome_of. run_redraw. reflexivity. Qed.

Lemma circled_arrays :
  mapM (translate_refs (sortkey:=nat) (store_of circled)) [Circle None ["A"; "B"; "C"; "D"]]
  = Some [Circle None [0; 1; 2; 3]]
  ∧ nodes1 (outcome_of circled) = [0; 1; 2; 3]
  ∧ filter (λ l, is_layout chart_circle (store_of circled) l = true)
           (edges1 (outcome_of circled)) = [0].
Proof. unfold circled, store_of, outcome_of. run_redraw. done. Qed.

(** C7 on a circle of A, B, C, D with base length 30 and no distance:
    the engine is started with no constraint, and with the edge e1 and
    the wheel links of a ring of radius (30*4)/(2*sin(π/4)). *)
Lemma circle_translation_witness :
  ∃ links,
    last (signals (outcome_of circled)) = Some (EngineStart [0; 1; 2; 3] links [])
    ∧ links = EdgeLink 0 :: ring_links chart_circle ring (store_of circled) [0; 1; 2; 3]
                              [0; 1; 2; 3] (radius_as_amended chart_circle None 4)
    ∧ radius_as_amended chart_circle None 4 = (30 * 4 / (2 * sin (PI / 4)))%R
    ∧ (84.85 < radius_as_amended chart_circle None 4 < 84.86)%R.
Proof.
  destruct (circle_translation nx ny chart_circle insertionsort_by (stringify nkey)
              (stringify ekey) ring [A; B; C; D] [e1] rendered
              (outcome_of circled) (store_of circled)
              circled_returns circled_not_skipped)
    as (constraints & links & cs & Htr & Hlast & _ & Hcs & Hlinks & Hwheel & Hex).
  exists links.
  destruct circled_arrays as (Hc & Hn1 & He1).
  change (constrain chart_circle _ _) with
    [Circle (NodeRec:=node_kv) (sortkey:=nat) None ["A"; "B"; "C"; "D"]] in Htr.
  rewrite Hc in Htr. injection Htr as <-.
  change (Some [] = Some cs) in Hcs. injection Hcs as <-.
  rewrite Hn1 in *. split; [exact Hlast|]. split.
  - rewrite Hlinks, He1.
    assert (2 ≤ length [0; 1; 2; 3]) as Hlen by (simpl; lia).
    pose proof (Hwheel None [0; 1; 2; 3] (list_elem_of_here _ _) Hlen) as Hw.
    cbn [length] in Hw. rewrite <- Hw.
    change (filter _ [Circle None [0; 1; 2; 3]])
      with [Circle (NodeRec:=node_kv) (sortkey:=nat) None [0; 1; 2; 3]].
    rewrite fmap_cons, fmap_nil, fmap_cons, fmap_nil. cbn [concat app].
    by rewrite app_nil_r.
  - exact (Hex eq_refl).
Defined.

Lemma limited_returns : limited = Some (outcome_of limited, store_of limited).
Proof. apply returned. unfold limited. run_redraw. eexists. reflexivity. Qed.

Lemma limited_again_returns :
  limited_again = Some (outcome_of limited_again, store_of limited_again).
Proof.
  apply returned. unfold limited_again, limited, store_of. run_redraw.
  eexists. reflexivity.
Qed.

Lemma limited_not_skipped : skip_layout (outcome_of limited) = false.
Proof. unfold limited, outcome_of. run_redraw. reflexivity. Qed.

Lemma limited_again_skipped : skip_layout (outcome_of limited_again) = true.
Proof. unfold limited_again, limited, store_of, outcome_of. run_redraw. reflexivity. Qed.

(** C3 at the failing input: under a time limit of 100 ms the engine
    reports iterations at 10 ms and at 150 ms; the handler of the second
    stops it, and it reports the end: [end] is dispatched twice. A cycle
    that converges after two iterations and a skipped cycle dispatch it
    once. *)
Lemma end_dispatched_per_cycle_witness :
  ends_dispatched (cycle_signals chart_limit (outcome_of limited) [Tick 10; Tick 150; End]) = 2
  ∧ ends_dispatched (cycle_signals chart_limit (outcome_of limited) [Tick 10; Tick 20; End]) = 1
  ∧ ends_dispatched (cycle_signals chart_limit (outcome_of limited_again) []) = 1.
Proof.
  split; [|split].
  - refine (proj1 (end_dispatched_per_cycle nx ny chart_limit insertionsort_by
             (stringify nkey) (stringify ekey) ring [A; B] [e1] rendered
             (outcome_of limited) (store_of limited)
             [Tick 10; Tick 150; End] limited_returns _)).
    rewrite limited_not_skipped. apply started, iterates; [reflexivity|].
    apply stopped. reflexivity.
  - refine (proj1 (end_dispatched_per_cycle nx ny chart_limit insertionsort_by
             (stringify nkey) (stringify ekey) ring [A; B] [e1] rendered
             (outcome_of limited) (store_of limited)
             [Tick 10; Tick 20; End] limited_returns _)).
    rewrite limited_not_skipped. apply started.
    do 2 (apply iterates; [reflexivity|]). apply converges.
  - refine (proj1 (end_dispatched_per_cycle nx ny chart_limit insertionsort_by
             (stringify nkey) (stringify ekey) ring [A; B] [e1] (store_of limited)
             (outcome_of limited_again) (store_of limited_again) [] limited_again_returns _)).
    rewrite limited_again_skipped. apply skipped.
Defined.

(** C4 at the failing input: the node F, for which [nodeFixedAccessor]
    returns the coordinate (3, 4) and whose record has no [x] and [y], is
    drawn, the engine puts its wrapper at (100, 50), and the same records
    are redrawn. The second redraw takes the skip path, and still the
    node is not left where it was: [wrap_node] has marked it fixed and
    assigned [v.x] and [v.y] of the record, which are [undefined], not
    the coordinate that the accessor returned. *)
Lemma fixed_node_moved_on_skip :
  fixed_of chart0 F = Some (Coord (Some 3%R) (Some 4%R))
  ∧ first_F = Some (outcome_of first_F, store_of first_F)
  ∧ engine_moved (store_of first_F) moved_F
  ∧ second_F = Some (outcome_of second_F, store_of second_F)
  ∧ skip_layout (outcome_of second_F) = true
  ∧ nheap moved_F !! 0
    = Some (NodeObj (Some F) (Some 0) (Some 100%R) (Some 50%R) (Some true))
  ∧ nheap (store_of second_F) !! 0
    = Some (NodeObj (Some F) (Some 0) None None (Some true)).
Proof.
  split; [reflexivity|]. split; [|split; [|split; [|split; [|split]]]].
  - apply returned. unfold first_F. run_redraw. eexists. reflexivity.
  - apply place_engine_moved.
  - apply returned. unfold second_F, moved_F, first_F, store_of, place. run_redraw.
    eexists. reflexivity.
  - unfold second_F, moved_F, first_F, store_of, outcome_of, place. run_redraw.
    reflexivity.
  - unfold moved_F, first_F, store_of, place. run_redraw. reflexivity.
  - unfold second_F, moved_F, first_F, store_of, place. run_redraw. reflexivity.
Qed.

Lemma again_AB_returns : again_AB = Some (outcome_of again_AB, store_of again_AB).
Proof.
  apply returned. unfold again_AB, moved_AB, first_AB, store_of, place. run_redraw.
  eexists. reflexivity.
Qed.

(** The skip path on the nodes A and B, which are not fixed: A stays
    where the engine has put it. *)
Lemma skip_when_unchanged_witness :
  skip_layout (outcome_of again_AB) = true
  ∧ ends_dispatched (signals (outcome_of again_AB)) = 1
  ∧ ∃ v2, nheap (store_of again_AB) !! 0 = Some v2
      ∧ x v2 = Some 100%R ∧ y v2 = Some 50%R.
Proof.
  destruct (skip_when_unchanged nx ny chart0 insertionsort_by (stringify nkey)
              (stringify ekey) ring [A; B] [e1] rendered
              (outcome_of first_AB) (store_of first_AB) moved_AB
              (outcome_of again_AB) (store_of again_AB)
              insertionsort_by_permutes rendered_wf eq_refl
              (returned first_AB first_AB_returns)
              (place_engine_moved 0 100 50 (store_of first_AB))
              again_AB_returns) as (Hskip & Hends & _ & Hpos).
  split; [exact Hskip|]. split; [exact Hends|].
  destruct (Hpos 0 (NodeObj (Some A) (Some 0) (Some 100%R) (Some 50%R) (Some false)))
    as (v2 & Hv2 & Hx & Hy).
  - unfold moved_AB, first_AB, store_of, place. run_redraw. reflexivity.
  - intros v Hv _.
    apply elem_of_cons in Hv as [->|Hv]; [reflexivity|].
    apply elem_of_cons in Hv as [->|Hv]; [reflexivity|].
    by apply elem_of_nil in Hv.
  - exists v2. split; [exact Hv2|]. split; [exact Hx|exact Hy].
Defined.

(** * Further properties of the code *)

(** ** Port names *)

Module PortNameFacts.
Import PortNames.

Lemma append_String c (a b : string) : String c a +:+ b = String c (a +:+ b).
Proof. reflexivity. Qed.

Lemma append_Empty (b : string) : EmptyString +:+ b = b.
Proof. reflexivity. Qed.

Lemma append_cons_assoc (a : string) c (b : string) :
  (a +:+ String c EmptyString) +:+ b = a +:+ String c b.
Proof.
  induction a as [|c' a IH]; [done|]. rewrite !append_String. f_equal. apply IH.
Qed.

Lemma split_nonempty sep s : split sep s ≠ [].
Proof.
  destruct s as [|c s]; simpl; [done|].
  case_decide; [done|]. by destruct (split sep s).
Qed.

(** A string without the separator is one piece. *)
Lemma split_one sep s : occurs sep s = false → split sep s = [s].
Proof.
  induction s as [|c s IH]; simpl; [done|].
  intros [Hc Hs]%orb_false_elim. apply bool_decide_eq_false in Hc.
  rewrite decide_False by done. by rewrite IH.
Qed.

(** The first piece ends at the first separator. *)
Lemma split_first sep a b :
  occurs sep a = false → split sep (a +:+ String sep b) = a :: split sep b.
Proof.
  induction a as [|c a IH]; simpl.
  - intros _. rewrite ?append_Empty. simpl. by rewrite decide_True.
  - intros [Hc Hs]%orb_false_elim. apply bool_decide_eq_false in Hc.
    rewrite ?append_String. simpl. rewrite decide_False by done. by rewrite IH.
Qed.

(** No piece holds the separator. *)
Lemma split_pieces sep s p : p ∈ split sep s → occurs sep p = false.
Proof.
  revert p. induction s as [|c s IH]; simpl; intros p Hp.
  - apply list_elem_of_singleton in Hp. by subst.
  - case_decide as Hc.
    + apply elem_of_cons in Hp as [->|Hp]; [done|by apply IH].
    + destruct (split sep s) as [|q qs] eqn:E.
      * apply list_elem_of_singleton in Hp. subst. simpl.
        by rewrite bool_decide_eq_false_2.
      * apply elem_of_cons in Hp as [->|Hp].
        -- simpl. rewrite bool_decide_eq_false_2 by done. simpl.
           apply IH. by left.
        -- apply IH. by right.
Qed.

Lemma port_name_eq nodeId edgeId portName :
  port_name nodeId edgeId portName
  = kind_of nodeId +:+ String slash (id_of nodeId edgeId +:+ String slash portName).
Proof.
  unfold port_name, kind_of, id_of.
  destruct (truthy_key nodeId); rewrite ?append_String, ?append_Empty;
    by rewrite append_cons_assoc.
Qed.

Lemma kind_of_no_slash nodeId : occurs slash (kind_of nodeId) = false.
Proof. unfold kind_of. by destruct (truthy_key nodeId). Qed.

(** The parts of a port name whose identifier and port are free of [/]. *)
Lemma split_port_name_parts nodeId edgeId portName :
  occurs slash (id_of nodeId edgeId) = false → occurs slash portName = false →
  split slash (port_name nodeId edgeId portName)
  = [kind_of nodeId; id_of nodeId edgeId; portName].
Proof.
  intros Hid Hp. rewrite port_name_eq.
  rewrite split_first by apply kind_of_no_slash.
  rewrite split_first by done. by rewrite split_one.
Qed.

Lemma truthy_key_Some s : s ≠ EmptyString → truthy_key (Some s) = true.
Proof.
  intros Hs. unfold truthy_key. destruct (String.eqb s EmptyString) eqn:E; [|done].
  by apply String.eqb_eq in E.
Qed.

(** X1: [split_port_name] undoes [port_name] when the key and the port
    name hold no [/]: for a node key that is not empty it returns the node
    key and the name; when the node identifier is [null] or empty it
    returns the edge key and the name. *)
Theorem split_port_name_port_name (nodeId edgeId : option key) (k portName : string) :
  occurs slash k = false → occurs slash portName = false →
  (nodeId = Some k → k ≠ EmptyString →
     split_port_name (port_name nodeId edgeId portName)
     = NodePort (Some k) (Some portName))
  ∧ (truthy_key nodeId = false → edgeId = Some k →
     split_port_name (port_name nodeId edgeId portName)
     = EdgePort (Some k) (Some portName)).
Proof.
  intros Hk Hp. split.
  - intros -> Hne. pose proof (truthy_key_Some k Hne) as Ht.
    assert (id_of (Some k) edgeId = k) as Hid by (unfold id_of; by rewrite Ht).
    unfold split_port_name. rewrite split_port_name_parts by (by rewrite ?Hid).
    unfold kind_of. rewrite Ht, Hid. done.
  - intros Hf ->.
    assert (id_of nodeId (Some k) = k) as Hid by (unfold id_of; by rewrite Hf).
    unfold split_port_name. rewrite split_port_name_parts by (by rewrite ?Hid).
    unfold kind_of. rewrite Hf, Hid. done.
Qed.

(** X2: two port names whose identifiers and port names hold no [/] are
    equal only if they are of the same kind (node or edge) and have the
    same identifier and the same port name. *)
Theorem port_name_injective n1 e1 p1 n2 e2 p2 :
  occurs slash (id_of n1 e1) = false → occurs slash p1 = false →
  occurs slash (id_of n2 e2) = false → occurs slash p2 = false →
  port_name n1 e1 p1 = port_name n2 e2 p2 →
  truthy_key n1 = truthy_key n2 ∧ id_of n1 e1 = id_of n2 e2 ∧ p1 = p2.
Proof.
  intros H1 Hp1 H2 Hp2 Heq.
  pose proof (split_port_name_parts n1 e1 p1 H1 Hp1) as Hs1.
  pose proof (split_port_name_parts n2 e2 p2 H2 Hp2) as Hs2.
  rewrite Heq, Hs2 in Hs1. injection Hs1 as Hk Hid Hp.
  split; [|done]. unfold kind_of in Hk.
  by destruct (truthy_key n1), (truthy_key n2).
Qed.

(** X3: every field that [split_port_name] returns is free of [/], so
    that a node key that holds a [/] is never recovered from the name
    [port_name] builds with it. *)
Theorem split_port_name_slash (k : string) edgeId portName name :
  occurs slash k = true →
  split_port_name (port_name (Some k) edgeId portName) ≠ NodePort (Some k) name
  ∧ split_port_name (port_name (Some k) edgeId portName) ≠ EdgePort (Some k) name.
Proof.
  intros Hk.
  assert (∀ s, split slash (port_name (Some k) edgeId portName) !! 1 = Some s → s ≠ k)
    as Hne.
  { intros s Hs ->. apply list_elem_of_lookup_2, split_pieces in Hs. congruence. }
  unfold split_port_name. split; case_decide; intros [= H1 _]; by eapply Hne.
Qed.

Section node_ports_facts.
Context {P : Type}.
Variable nodeKey : P → key.

Lemma node_ports_snoc (wports : list P) p :
  node_ports nodeKey (wports ++ [p]) = push nodeKey (node_ports nodeKey wports) p.
Proof. unfold node_ports. by rewrite foldl_app. Qed.

(** X4: [node_ports] groups the ports by the key of their node: the
    entry of a key is the list of the ports of that key, in the order of
    [wports], and a key that no port has, has no entry. *)
Theorem node_ports_lookup (wports : list P) (nid : key) :
  node_ports nodeKey wports !! nid
  = match filter (λ p, nodeKey p = nid) wports with
    | [] => None
    | np => Some np
    end.
Proof.
  induction wports as [|p wports IH] using rev_ind; [done|].
  rewrite node_ports_snoc, filter_app, filter_cons, filter_nil. unfold push.
  case_decide as Hk.
  - rewrite Hk, lookup_insert_eq, IH.
    by destruct (filter _ wports).
  - rewrite lookup_insert_ne by done. rewrite IH, app_nil_r. done.
Qed.

End node_ports_facts.

(** X1 on the port [out] of the node [a] and on the source end of the
    edge [e1]. *)
Lemma split_port_name_port_name_witness :
  split_port_name (port_name (Some "a") None "out") = NodePort (Some "a") (Some "out")
  ∧ split_port_name (port_name None (Some "e1") "source")
    = EdgePort (Some "e1") (Some "source").
Proof.
  split.
  - exact (proj1 (split_port_name_port_name (Some "a") None "a" "out" eq_refl eq_refl)
             eq_refl ltac:(discriminate)).
  - exact (proj2 (split_port_name_port_name None (Some "e1") "e1" "source" eq_refl eq_refl)
             eq_refl eq_refl).
Defined.

(** X2 on the port [out] of the node [a], named once without and once
    with an edge identifier, which [port_name] ignores for a node. *)
Lemma port_name_injective_witness :
  port_name (Some "a") None "out" = port_name (Some "a") (Some "e") "out"
  ∧ id_of (Some "a") None = id_of (Some "a") (Some "e").
Proof.
  split; [reflexivity|].
  exact (proj1 (proj2 (port_name_injective (Some "a") None "out" (Some "a") (Some "e")
                         "out" eq_refl eq_refl eq_refl eq_refl eq_refl))).
Defined.

(** X3 on the node key [a/b]: the name is [node/a/b/out], and the key
    that comes back is [a]. *)
Lemma split_port_name_slash_witness :
  split_port_name (port_name (Some "a/b") None "out") ≠ NodePort (Some "a/b") (Some "b")
  ∧ split_port_name (port_name (Some "a/b") None "out") = NodePort (Some "a") (Some "b").
Proof.
  split.
  - exact (proj1 (split_port_name_slash "a/b" None "out" (Some "b") eq_refl)).
  - reflexivity.
Defined.

End PortNameFacts.

(** ** Port placement: directions and the three passes over the ports *)

Module PortPlacement.
Import PlacePorts PortViews.
Local Open Scope R_scope.

Lemma hypot_nonneg a b : 0 <= hypot a b.
Proof. apply sqrt_pos. Qed.

Lemma hypot_pos a b : (a, b) ≠ (0, 0) → 0 < hypot a b.
Proof.
  intros Hne. apply sqrt_lt_R0.
  destruct (Req_dec a 0) as [->|Ha].
  - destruct (Req_dec b 0) as [->|Hb]; [done|]. nra.
  - nra.
Qed.

Lemma hypot_sqr a b : hypot a b * hypot a b = a * a + b * b.
Proof. apply sqrt_sqrt. nra. Qed.

Lemma hypot_opp a b : hypot (- a) (- b) = hypot a b.
Proof. unfold hypot. f_equal. lra. Qed.

(** [norm] of a vector that is not zero has length 1. *)
Lemma norm_unit v : (dx v, dy v) ≠ (0, 0) → hypot (dx (norm v)) (dy (norm v)) = 1.
Proof.
  intros Hne. pose proof (hypot_pos _ _ Hne) as Hc.
  pose proof (hypot_sqr (dx v) (dy v)) as Hs.
  unfold norm. simpl. unfold hypot at 1.
  replace (dx v / hypot (dx v) (dy v) * (dx v / hypot (dx v) (dy v))
           + dy v / hypot (dx v) (dy v) * (dy v / hypot (dx v) (dy v)))
    with ((dx v * dx v + dy v * dy v) / (hypot (dx v) (dy v) * hypot (dx v) (dy v)))
    by (field; lra).
  rewrite Hs. replace ((dx v * dx v + dy v * dy v) / (dx v * dx v + dy v * dy v)) with 1.
  - apply sqrt_1.
  - field. nra.
Qed.

(** The triangle inequality for [hypot]. *)
Lemma hypot_triangle a b c d : hypot (a + c) (b + d) <= hypot a b + hypot c d.
Proof.
  pose proof (triangle (a + c) (b + d) 0 0 c d) as H.
  unfold dist_euc, Rsqr in H. unfold hypot.
  replace (a + c - 0) with (a + c) in H by lra.
  replace (b + d - 0) with (b + d) in H by lra.
  replace (a + c - c) with a in H by lra.
  replace (b + d - d) with b in H by lra.
  replace (c - 0) with c in H by lra.
  replace (d - 0) with d in H by lra.
  exact H.
Qed.

Lemma vec_unit n e : proper e → hypot (dx (vec n e)) (dy (vec n e)) = 1.
Proof.
  intros He. unfold vec. case_decide; apply norm_unit; simpl; [done|].
  intros [= H1 H2]. apply He. f_equal; lra.
Qed.

(** X5: for an edge whose ends are at different positions, [vec(n, e)]
    is a vector of length 1; from the source it points to the target, and
    from any other node it points the opposite way, from the target to
    the source. *)
Theorem vec_points_away (n : wnode) (e : wedge) :
  proper e →
  let d := hypot (cola_x (e_target e) - cola_x (e_source e))
                 (cola_y (e_target e) - cola_y (e_source e)) in
  hypot (dx (vec n e)) (dy (vec n e)) = 1
  ∧ (n_ref (e_source e) = n_ref n →
       cola_x (e_source e) + d * dx (vec n e) = cola_x (e_target e)
       ∧ cola_y (e_source e) + d * dy (vec n e) = cola_y (e_target e))
  ∧ (n_ref (e_source e) ≠ n_ref n →
       cola_x (e_target e) + d * dx (vec n e) = cola_x (e_source e)
       ∧ cola_y (e_target e) + d * dy (vec n e) = cola_y (e_source e)).
Proof.
  intros He d. split; [by apply vec_unit|].
  pose proof (hypot_pos _ _ He) as Hd. fold d in Hd.
  unfold vec. split; intros Hn.
  - rewrite decide_True by done. unfold norm. simpl. fold d. split; field; lra.
  - rewrite decide_False by done. unfold norm. simpl.
    rewrite hypot_opp. fold d. split; field; lra.
Qed.

(** The sum of vectors of length 1 is no longer than their number. *)
Lemma sum_units (angs : list vector) :
  Forall (λ v, hypot (dx v) (dy v) = 1) angs →
  hypot (sum dx angs) (sum dy angs) <= INR (length angs).
Proof.
  induction 1 as [|v angs Hv _ IH].
  - simpl. unfold hypot. replace (0 * 0 + 0 * 0) with 0 by lra. rewrite sqrt_0. lra.
  - cbn [sum foldr length]. rewrite S_INR.
    etrans; [apply hypot_triangle|]. fold (sum dx angs) (sum dy angs). lra.
Qed.

Lemma hypot_scale a b c : 0 < c → hypot (a / c) (b / c) = hypot a b / c.
Proof.
  intros Hc. unfold hypot.
  replace (a / c * (a / c) + b / c * (b / c)) with ((a * a + b * b) / (c * c))
    by (field; lra).
  rewrite sqrt_div_alt by nra. f_equal. apply sqrt_square. lra.
Qed.

Section passes.
Variable between_angles : R → R → R → bool.
Variable normalize_angle_delta : R → R.
Variable point_on_shape : wnode → R → R → point.
Variable portBounds : port → option (R * R).
Variable random : nat → R.
Local Abbreviation direct := (direct portBounds).
Local Abbreviation classify := (classify between_angles).
Local Abbreviation resolve := (resolve between_angles normalize_angle_delta random).
Local Abbreviation place_randomly := (place_randomly normalize_angle_delta).
Local Abbreviation project := (project point_on_shape).
Local Abbreviation place_node_ports :=
  (place_node_ports between_angles normalize_angle_delta point_on_shape portBounds random).

Lemma direct_vec n p :
  p_vec (direct n p)
  = match map (vec n) (p_edges p) with
    | [] => match theta p with
            | Some t => if truthy t then VecTheta t else VecUndefined
            | None => VecUndefined
            end
    | angs => VecMean (Vector (sum dx angs / INR (length angs))
                              (sum dy angs / INR (length angs)))
    end.
Proof.
  unfold PlacePorts.direct.
  destruct (map (vec n) (p_edges p)) as [|v angs] eqn:E; simpl;
    (destruct (p_orig p); [|done]); by destruct (portBounds _) as [[a b]|].
Qed.

Lemma direct_vec_mean n p :
  p_edges p ≠ [] →
  p_vec (direct n p)
  = VecMean (Vector (sum dx (map (vec n) (p_edges p))
                       / INR (length (map (vec n) (p_edges p))))
                    (sum dy (map (vec n) (p_edges p))
                       / INR (length (map (vec n) (p_edges p))))).
Proof. intros Hne. rewrite direct_vec. by destruct (p_edges p). Qed.

(** X6: for a port with at least one edge, each with its ends at
    different positions, [p.vec] is the mean of the directions of the
    edges, and it is no longer than 1. *)
Theorem mean_direction_bounded (n : wnode) (p : port) :
  p_edges p ≠ [] →
  Forall proper (p_edges p) →
  ∃ v, p_vec (direct n p) = VecMean v
    ∧ dx v = sum dx (map (vec n) (p_edges p)) / INR (length (p_edges p))
    ∧ dy v = sum dy (map (vec n) (p_edges p)) / INR (length (p_edges p))
    ∧ hypot (dx v) (dy v) <= 1.
Proof.
  intros Hne Hall. rewrite direct_vec_mean by done.
  set (angs := map (vec n) (p_edges p)).
  assert (length angs = length (p_edges p)) as Hlen by apply length_map.
  assert (0 < INR (length angs)) as Hpos.
  { rewrite Hlen. apply lt_0_INR. destruct (p_edges p); [done|simpl; lia]. }
  eexists. split; [done|]. cbn [dx dy]. rewrite <- Hlen.
  split; [done|]. split; [done|].
  rewrite hypot_scale by done.
  apply (Rmult_le_reg_r (INR (length angs))); [done|].
  replace (hypot (sum dx angs) (sum dy angs) / INR (length angs) * INR (length angs))
    with (hypot (sum dx angs) (sum dy angs)) by (field; lra).
  rewrite Rmult_1_l. apply sum_units.
  unfold angs. apply Forall_forall. intros w Hw.
  apply list_elem_of_fmap in Hw as (e' & -> & He').
  apply vec_unit. eapply Forall_forall in Hall; [exact Hall|done].
Qed.

Lemma direct_theta n p : theta (direct n p) = theta p.
Proof.
  unfold PlacePorts.direct. simpl.
  destruct (p_orig p); [|done]. by destruct (portBounds _) as [[a b]|].
Qed.

Lemma direct_orig n p :
  p_orig (direct n p) = p_orig p ∧ p_edges (direct n p) = p_edges p.
Proof.
  unfold PlacePorts.direct. simpl.
  destruct (p_orig p) eqn:E; [|done]. by destruct (portBounds _) as [[a b]|].
Qed.

Lemma shunt_theta p : is_Some (theta p) → is_Some (theta (shunt p)).
Proof.
  intros [t Ht]. unfold shunt. rewrite Ht.
  destruct (bounds p) as [[a b]|]; simpl; eauto.
Qed.

Lemma shunt_orig p : p_orig (shunt p) = p_orig p ∧ p_edges (shunt p) = p_edges p.
Proof. unfold shunt. destruct (theta p), (bounds p) as [[a b]|]; done. Qed.

Lemma place_randomly_orig u p :
  p_orig (place_randomly u p) = p_orig p ∧ p_edges (place_randomly u p) = p_edges p.
Proof. unfold PlacePorts.place_randomly. by destruct (bounds p) as [[a b]|]. Qed.

Lemma place_randomly_theta u p : is_Some (theta (place_randomly u p)).
Proof. unfold PlacePorts.place_randomly. destruct (bounds p) as [[a b]|]; simpl; eauto. Qed.

Lemma classify_placed p : classify p ≠ Unplaced → is_Some (theta p).
Proof.
  unfold PlacePorts.classify. destruct (theta p); [eauto|done].
Qed.

Lemma classify_theta p :
  match classify p with
  | Inside | Outside => is_Some (theta p)
  | Unplaced => theta p = None
  end.
Proof.
  unfold PlacePorts.classify. destruct (theta p) as [t|]; [|done].
  destruct (bounds p) as [[a b]|]; [|eauto]. destruct (between_angles t a b); eauto.
Qed.

(** What the second and third pass do to each port. *)
Lemma resolve_spec nports k :
  Forall2 (λ p q, is_Some (theta q) ∧ p_orig q = p_orig p ∧ p_edges q = p_edges p
                  ∧ (classify p = Inside → q = p))
          nports (resolve nports k).1
  ∧ (resolve nports k).2 = (k + length (filter (λ p, theta p = None) nports))%nat.
Proof.
  revert k. induction nports as [|p ps IH]; intros k.
  - split; [constructor|simpl; lia].
  - rewrite filter_cons. cbn [PlacePorts.resolve].
    pose proof (classify_theta p) as Hc.
    destruct (classify p) eqn:Hcl.
    + destruct (IH k) as [IH1 IH2].
      destruct (resolve ps k) as [ps' k'] eqn:E. simpl in *.
      rewrite decide_False by (destruct Hc; congruence).
      split; [|done]. constructor; [|done]. done.
    + destruct (IH k) as [IH1 IH2].
      destruct (resolve ps k) as [ps' k'] eqn:E. simpl in *.
      rewrite decide_False by (destruct Hc; congruence).
      split; [|done]. constructor; [|done].
      split; [by apply shunt_theta|].
      destruct (shunt_orig p) as [-> ->]. split; [done|]. split; [done|]. congruence.
    + destruct (IH (S k)) as [IH1 IH2].
      destruct (resolve ps (S k)) as [ps' k'] eqn:E. simpl in *.
      rewrite decide_True by done.
      split; [|simpl; lia]. constructor; [|done].
      split; [apply place_randomly_theta|].
      destruct (place_randomly_orig (random k) p) as [-> ->].
      split; [done|]. split; [done|]. congruence.
Qed.

Lemma project_spec n q :
  is_Some (theta q) →
  is_Some (pos (project n q)) ∧ theta (project n q) = theta q
  ∧ p_orig (project n q) = p_orig q ∧ p_edges (project n q) = p_edges q.
Proof. intros [t Ht]. unfold PlacePorts.project. rewrite Ht. simpl. eauto. Qed.

(** X7: [place_ports] leaves every port of a node with an angle [theta]
    and a position [pos], whatever it was given; it returns as many ports
    as it got, in the same order, each with the specification and the
    edges it had. *)
Theorem place_node_ports_complete (n : wnode) (nports : list port) (k : nat) :
  length (place_node_ports n nports k).1 = length nports
  ∧ Forall (λ q, is_Some (theta q) ∧ is_Some (pos q)) (place_node_ports n nports k).1
  ∧ Forall2 (λ p q, p_orig q = p_orig p ∧ p_edges q = p_edges p)
            nports (place_node_ports n nports k).1.
Proof.
  unfold PlacePorts.place_node_ports.
  destruct (resolve_spec (map (direct n) nports) k) as [Hr _].
  destruct (resolve (map (direct n) nports) k) as [ps k'] eqn:E. simpl in *.
  assert (Forall2 (λ p q, is_Some (theta q) ∧ is_Some (pos q)
                          ∧ p_orig q = p_orig p ∧ p_edges q = p_edges p)
                  nports (map (project n) ps)) as H.
  { apply Forall2_fmap_r. apply Forall2_fmap_l in Hr.
    eapply Forall2_impl; [exact Hr|]. intros p q (Ht & Ho & He & _). simpl in *.
    destruct (project_spec n q Ht) as (Hp & Ht' & Ho' & He').
    destruct (direct_orig n p) as [Hdo Hde].
    rewrite Ht', Ho', He', Ho, He, Hdo, Hde. done. }
  split; [symmetry; by eapply Forall2_length|]. split.
  - apply Forall_forall. intros q Hq. apply list_elem_of_lookup in Hq as [i Hi].
    destruct (Forall2_lookup_r _ _ _ _ _ H Hi) as (p & _ & Ht & Hp & _). done.
  - eapply Forall2_impl; [exact H|]. by intros p q (_ & _ & ? & ?).
Qed.

(** X8: [Math.random()] is called once for every port that comes without
    an angle, and for no other port. *)
Theorem random_once_per_unplaced (n : wnode) (nports : list port) (k : nat) :
  (place_node_ports n nports k).2
  = (k + length (filter (λ p, theta p = None) nports))%nat.
Proof.
  unfold PlacePorts.place_node_ports.
  destruct (resolve_spec (map (direct n) nports) k) as [_ Hk].
  destruct (resolve (map (direct n) nports) k) as [ps k'] eqn:E. simpl in *.
  rewrite Hk. f_equal. clear.
  induction nports as [|p ps IH]; [done|].
  cbn [map]. rewrite !filter_cons, direct_theta.
  case_decide; cbn [length]; by rewrite IH.
Qed.

(** X9: a port that comes with an angle which lies between its bounds,
    or which has no bounds, keeps that angle. *)
Theorem inside_ports_stay (n : wnode) (nports : list port) (k i : nat) (p : port) (t : R) :
  nports !! i = Some p →
  theta p = Some t →
  match bounds (direct n p) with
  | Some (a, b) => between_angles t a b = true
  | None => True
  end →
  ∃ q, (place_node_ports n nports k).1 !! i = Some q ∧ theta q = Some t.
Proof.
  intros Hi Ht Hb. unfold PlacePorts.place_node_ports.
  destruct (resolve_spec (map (direct n) nports) k) as [Hr _].
  destruct (resolve (map (direct n) nports) k) as [ps k'] eqn:E. simpl in *.
  assert (map (direct n) nports !! i = Some (direct n p)) as Hi'
    by (by rewrite list_lookup_fmap, Hi).
  destruct (Forall2_lookup_l _ _ _ _ _ Hr Hi') as (q & Hq & Htq & _ & _ & Hin).
  assert (classify (direct n p) = Inside) as Hc.
  { unfold PlacePorts.classify. rewrite direct_theta, Ht.
    destruct (bounds (direct n p)) as [[a b]|]; [by rewrite Hb|done]. }
  specialize (Hin Hc). subst q.
  exists (project n (direct n p)). split.
  - by rewrite list_lookup_fmap, Hq.
  - destruct (project_spec n (direct n p)) as (_ & -> & _).
    + rewrite direct_theta, Ht. eauto.
    + by rewrite direct_theta.
Qed.

End passes.

Import Example Samples.

(** X5 on the edge from the origin to (10, 0), seen from its source. *)
Lemma vec_points_away_witness :
  hypot (dx (vec origin eastward)) (dy (vec origin eastward)) = 1
  ∧ 0 + hypot (10 - 0) (0 - 0) * dx (vec origin eastward) = 10.
Proof.
  assert (proper eastward) as Hp.
  { unfold proper, eastward. simpl. intros [= H _]. lra. }
  destruct (vec_points_away origin eastward Hp) as (Hunit & Hsrc & _).
  split; [exact Hunit|]. exact (proj1 (Hsrc eq_refl)).
Defined.

(** X6 on the port whose single edge goes from the origin to (10, 0). *)
Lemma mean_direction_bounded_witness :
  ∃ v, p_vec (direct unbounded origin east_port) = VecMean v
    ∧ hypot (dx v) (dy v) <= 1.
Proof.
  assert (Forall proper (p_edges east_port)) as Hp.
  { repeat constructor. unfold proper. simpl. intros [= H _]. lra. }
  destruct (mean_direction_bounded unbounded origin east_port ltac:(discriminate) Hp)
    as (v & Hv & _ & _ & Hle).
  exists v. split; [exact Hv|exact Hle].
Defined.

(** X9 on a port that comes with the angle 1 and has no bounds. *)
Lemma inside_ports_stay_witness :
  ∃ q, (place_node_ports between_closed delta on_shape unbounded half origin
          [east_port; set_port] 0).1 !! 1%nat = Some q
    ∧ theta q = Some 1.
Proof.
  exact (inside_ports_stay between_closed delta on_shape unbounded half origin
           [east_port; set_port] 0 1 set_port 1 eq_refl eq_refl I).
Defined.

End PortPlacement.

(** ** Identifiers of edge elements *)

Module EdgeIdFacts.
Import Diagram EdgeId.

Lemma kept_dash : kept dash = true.
Proof. reflexivity. Qed.

Lemma replace_unsafe_units s :
  units (replace_unsafe s) = (λ c, if kept c then c else dash) <$> units s.
Proof. induction s as [|c s IH]; simpl; [done|]. by rewrite IH. Qed.

Lemma units_inj s1 s2 : units s1 = units s2 → s1 = s2.
Proof.
  revert s2. induction s1 as [|c s1 IH]; intros [|c2 s2]; simpl; try done.
  intros [= -> H]. f_equal. by apply IH.
Qed.

(** A key of letters, digits, [_] and [-] is left as it is. *)
Lemma replace_unsafe_id s : Forall (λ c, kept c = true) (units s) → replace_unsafe s = s.
Proof.
  induction s as [|c s IH]; simpl; [done|].
  intros [Hc Hs]%Forall_cons. rewrite Hc. f_equal. by apply IH.
Qed.

Section edge_id_facts.
Context {NodeRec EdgeRec sortkey : Type}.
Variable _chart : chart NodeRec EdgeRec sortkey.
Local Abbreviation edge_id := (edge_id _chart).

(** X10: the identifier of an edge element is [edge-] followed by as
    many code units as the key of the edge has; each of them is a letter,
    a digit, [_] or [-]: a unit of the key that is one of these is kept
    in its place, any other becomes [-]. A key that consists of such
    units is kept whole, so that two such keys with the same identifier
    are the same key. *)
Theorem edge_id_shape (d : edge_obj EdgeRec) (e : EdgeRec) :
  e_orig d = Some e →
  ∃ s, edge_id d = Some ("edge-" +:+ s)
    ∧ length (units s) = length (units (edgeKeyAccessor _chart e))
    ∧ Forall (λ c, kept c = true) (units s)
    ∧ (∀ i c, units (edgeKeyAccessor _chart e) !! i = Some c →
              units s !! i = Some (if kept c then c else dash))
    ∧ (Forall (λ c, kept c = true) (units (edgeKeyAccessor _chart e)) →
       s = edgeKeyAccessor _chart e
       ∧ ∀ d' e', e_orig d' = Some e' →
           Forall (λ c, kept c = true) (units (edgeKeyAccessor _chart e')) →
           edge_id d' = edge_id d →
           edgeKeyAccessor _chart e' = edgeKeyAccessor _chart e).
Proof.
  intros Ho. exists (replace_unsafe (edgeKeyAccessor _chart e)).
  split; [unfold EdgeId.edge_id; by rewrite Ho|].
  rewrite replace_unsafe_units. split; [by rewrite length_fmap|]. split; [|split].
  - apply Forall_fmap, Forall_forall. intros c _. simpl.
    destruct (kept c) eqn:E; [done|apply kept_dash].
  - intros i c Hi. by rewrite list_lookup_fmap, Hi.
  - intros Hk. split; [by apply replace_unsafe_id|].
    intros d' e' Ho' Hk'. unfold EdgeId.edge_id. rewrite Ho, Ho'. simpl.
    rewrite !replace_unsafe_id by done. intros [= H]. exact H.
Qed.

End edge_id_facts.

Import Example.

(** X10 on the edge with the key [a b]: the blank becomes [-]. *)
Lemma edge_id_shape_witness :
  edge_id chart0 (EdgeObj (Some (EdgeKV "a b" "A" "B" false)) None None None)
  = Some "edge-a-b"
  ∧ ∃ s, edge_id chart0 (EdgeObj (Some (EdgeKV "a b" "A" "B" false)) None None None)
         = Some ("edge-" +:+ s)
      ∧ Forall (λ c, kept c = true) (units s).
Proof.
  split; [reflexivity|].
  destruct (edge_id_shape chart0 (EdgeObj (Some (EdgeKV "a b" "A" "B" false)) None None None)
              (EdgeKV "a b" "A" "B" false) eq_refl) as (s & Hs & _ & Hkept & _ & _).
  exists s. split; [exact Hs|exact Hkept].
Defined.

End EdgeIdFacts.

(** ** The shape of a node *)

Module BuildNodeFacts.
Import BuildNode.
Local Open Scope R_scope.

Section build_facts.
Variable nodePadding : R.
Local Abbreviation _buildNode := (_buildNode nodePadding).

Lemma Rmax_plus a b c : Rmax (a * 2 + c) (b * 2 + c) = Rmax a b * 2 + c.
Proof.
  unfold Rmax. destruct (Rle_dec (a * 2 + c) (b * 2 + c)), (Rle_dec a b); lra.
Qed.

(** For a positive radius, the label is lower than the node is high
    exactly when [1 - y_over_B*y_over_B] is positive. *)
Lemma lower_than_node (r h : R) :
  0 < r → (0 < 1 - h / 2 / r * (h / 2 / r) ↔ Rabs h < 2 * r).
Proof.
  intros Hr. set (y := h / 2 / r).
  assert (h = 2 * r * y) as Hh by (unfold y; field; lra).
  rewrite Hh. clearbody y. clear Hh.
  rewrite Rabs_mult, (Rabs_right (2 * r)) by lra. split; intros H.
  - assert (Rabs y < 1) as Hy by (unfold Rabs; destruct (Rcase_abs y); nra).
    nra.
  - assert (Rabs y < 1) as Hy by (apply (Rmult_lt_reg_l (2 * r)); lra).
    unfold Rabs in Hy. destruct (Rcase_abs y); nra.
Qed.

(** X11: when the label is fitted and its bounding box is lower than the
    node is high, the corner of the bounding box lies inside the ellipse
    of the node or on it; the vertical radius is the radius of the node
    and the horizontal radius is not less. *)
Theorem label_fits_ellipse (r : R) (label : bbox) :
  0 < r → 0 < b_width label → 0 < b_height label < 2 * r →
  ∃ d, _buildNode r true label = Some d
    ∧ dcg_ry d = r ∧ r <= dcg_rx d
    ∧ (b_width label / 2 / dcg_rx d) * (b_width label / 2 / dcg_rx d)
      + (b_height label / 2 / dcg_ry d) * (b_height label / 2 / dcg_ry d) <= 1.
Proof.
  intros Hr Hw [Hh Hh2]. unfold BuildNode._buildNode.
  rewrite !truthy_nonzero by lra. simpl.
  set (y := b_height label / 2 / r).
  assert (0 < y < 1) as [Hy0 Hy1].
  { unfold y. split.
    - apply Rdiv_lt_0_compat; lra.
    - apply (Rmult_lt_reg_r r); [done|].
      replace (b_height label / 2 / r * r) with (b_height label / 2) by (field; lra). lra. }
  assert (0 < 1 - y * y) as Hpos by nra.
  destruct (Rlt_dec 0 (1 - y * y)) as [_|]; [|done].
  eexists. split; [done|]. simpl.
  set (q := sqrt (1 - y * y)).
  assert (0 < q) as Hq by (by apply sqrt_lt_R0).
  assert (q * q = 1 - y * y) as Hqq by (apply sqrt_sqrt; lra).
  set (rx := b_width label / 2 / q).
  assert (0 < rx) as Hrx by (apply Rdiv_lt_0_compat; lra).
  pose proof (Rmax_l rx r) as Hm1. pose proof (Rmax_r rx r) as Hm2.
  set (m := Rmax rx r) in *.
  split; [done|]. split; [done|].
  assert (0 < m) as Hm by lra.
  assert (b_width label / 2 / m <= q) as Hle.
  { apply (Rmult_le_reg_r m); [done|].
    replace (b_width label / 2 / m * m) with (b_width label / 2) by (field; lra).
    replace (b_width label / 2) with (q * rx) by (unfold rx; field; lra).
    apply Rmult_le_compat_l; lra. }
  assert (0 <= b_width label / 2 / m) as Hge.
  { apply Rlt_le, Rdiv_lt_0_compat; lra. }
  change (b_height label / 2 / r) with y. nra.
Qed.

(** X12: for a positive radius and a padding that is not negative, the
    callback assigns real numbers unless the label is fitted, has a
    width and a height that are not zero, and is as high as the node or
    higher; and whenever it does, the box that the layout engine is
    given is the bounding box of the ellipse, widened by the padding:
    [width] is twice the horizontal radius plus the padding, [height]
    twice the vertical radius plus the padding. *)
Theorem box_around_ellipse (r : R) (fit : bool) (label : bbox) :
  0 < r → 0 <= nodePadding →
  (_buildNode r fit label = None
   ↔ fit = true ∧ b_width label ≠ 0 ∧ b_height label ≠ 0
     ∧ 2 * r <= Rabs (b_height label))
  ∧ ∀ d, _buildNode r fit label = Some d →
      width d = 2 * dcg_rx d + nodePadding ∧ height d = 2 * dcg_ry d + nodePadding.
Proof.
  intros Hr Hp. unfold BuildNode._buildNode.
  assert (Rmax 0 (r * 2 + nodePadding) = r * 2 + nodePadding) as Hmax
    by (apply Rmax_right; lra).
  pose proof (lower_than_node r (b_height label) Hr) as Hlow.
  rewrite (truthy_nonzero r) by lra.
  destruct fit; simpl.
  - unfold Diagram.truthy.
    destruct (Req_dec_T (b_width label) 0) as [Hw|Hw]; simpl.
    { split; [|intros d [= <-]; simpl; rewrite Hmax; lra].
      split; [done|]. by intros (_ & ? & _). }
    destruct (Req_dec_T (b_height label) 0) as [Hh|Hh]; simpl.
    { split; [|intros d [= <-]; simpl; rewrite Hmax; lra].
      split; [done|]. by intros (_ & _ & ? & _). }
    destruct (Rlt_dec 0 _) as [Hpos|Hneg].
    + split; [|intros d [= <-]; simpl; rewrite Rmax_plus; lra].
      split; [done|]. intros (_ & _ & _ & Hhigh). apply Hlow in Hpos. lra.
    + split; [|done]. split; [|done]. intros _.
      repeat split; [done|done|]. apply Rnot_lt_le. intros Hlt.
      by apply Hneg, Hlow.
  - split; [|intros d [= <-]; simpl; rewrite Hmax; lra].
    split; [done|]. by intros [? _].
Qed.

End build_facts.

(** X11 on a node of radius 25 whose label is 80 wide and 14 high. *)
Lemma label_fits_ellipse_witness :
  ∃ d, BuildNode._buildNode 6 25 true (BBox 80 14) = Some d
    ∧ dcg_ry d = 25 ∧ 25 <= dcg_rx d
    ∧ (80 / 2 / dcg_rx d) * (80 / 2 / dcg_rx d)
      + (14 / 2 / dcg_ry d) * (14 / 2 / dcg_ry d) <= 1.
Proof.
  apply (label_fits_ellipse 6 25 (BBox 80 14)); simpl; lra.
Defined.

(** X12 with the default padding of 6, on a node of radius 25: a label
    that is 80 wide and 60 high does not fit; one that is not fitted
    gives the box 56 by 56. *)
Lemma box_around_ellipse_witness :
  BuildNode._buildNode 6 25 true (BBox 80 60) = None
  ∧ ∀ d, BuildNode._buildNode 6 25 false (BBox 80 14) = Some d →
      width d = 2 * dcg_rx d + 6 ∧ height d = 2 * dcg_ry d + 6.
Proof.
  assert (0 < 25) as Hr by lra. assert (0 <= 6) as Hp by lra.
  split.
  - apply (proj1 (box_around_ellipse 6 25 true (BBox 80 60) Hr Hp)). simpl.
    repeat split; try lra. rewrite Rabs_right; lra.
  - apply (proj2 (box_around_ellipse 6 25 false (BBox 80 14) Hr Hp)).
Defined.

End BuildNodeFacts.

(** ** The side of a parallel edge *)

Module EdgePathFacts.
Import EdgePath.

Lemma dir_cases parallel sx tx : dir parallel sx tx = (-1)%Z ∨ dir parallel sx tx = 1%Z.
Proof. unfold dir. destruct (Bool.eqb _ _); auto. Qed.

Lemma dir_succ parallel sx tx : dir (S parallel) sx tx = (- dir parallel sx tx)%Z.
Proof.
  unfold dir.
  assert ((S parallel mod 2 =? 0) = negb (parallel mod 2 =? 0)) as ->.
  { pose proof (Nat.mod_upper_bound parallel 2).
    pose proof (Nat.mod_upper_bound (S parallel) 2).
    pose proof (Nat.div_mod_eq parallel 2). pose proof (Nat.div_mod_eq (S parallel) 2).
    destruct (Nat.eqb_spec (S parallel mod 2) 0), (Nat.eqb_spec (parallel mod 2) 0);
      simpl; try done; lia. }
  destruct (parallel mod 2 =? 0), (Rlt_dec sx tx); done.
Qed.

Lemma dir_reverse parallel sx tx :
  sx ≠ tx → dir parallel tx sx = (- dir parallel sx tx)%Z.
Proof.
  intros Hne. unfold dir.
  destruct (parallel mod 2 =? 0), (Rlt_dec sx tx), (Rlt_dec tx sx); simpl; try done; lra.
Qed.

(** The side as it would be for the edge drawn from left to right. *)
Lemma port_left_to_right parallel sx tx :
  (sx < tx)%R →
  port parallel sx tx
  = if parallel mod 2 =? 0 then Z.of_nat ((parallel + 1) / 2)
    else (- Z.of_nat ((parallel + 1) / 2))%Z.
Proof.
  intros Hlt. unfold port, dir. destruct (Rlt_dec sx tx); [|done].
  destruct (parallel mod 2 =? 0); simpl; lia.
Qed.

(** The parallel edges alternate between the two sides of the straight
    line. *)
Lemma port_alternates (parallel : nat) (sx tx : R) :
  0 < parallel →
  Z.abs (port parallel sx tx) = Z.of_nat ((parallel + 1) / 2)
  ∧ port parallel sx tx ≠ 0%Z
  ∧ (parallel mod 2 = 1 → port (S parallel) sx tx = (- port parallel sx tx)%Z)
  ∧ (sx ≠ tx → port parallel tx sx = (- port parallel sx tx)%Z).
Proof.
  intros Hp.
  assert (0 < (parallel + 1) / 2) as Hk.
  { pose proof (Nat.div_mod_eq (parallel + 1) 2).
    pose proof (Nat.mod_upper_bound (parallel + 1) 2). lia. }
  unfold port. split; [|split; [|split]].
  - destruct (dir_cases parallel sx tx) as [-> | ->]; lia.
  - destruct (dir_cases parallel sx tx) as [-> | ->]; lia.
  - intros Hodd. rewrite dir_succ.
    assert ((S parallel + 1) / 2 = (parallel + 1) / 2) as ->; [|lia].
    pose proof (Nat.div_mod_eq parallel 2).
    pose proof (Nat.div_mod_eq (parallel + 1) 2).
    pose proof (Nat.div_mod_eq (S parallel + 1) 2).
    pose proof (Nat.mod_upper_bound (parallel + 1) 2).
    pose proof (Nat.mod_upper_bound (S parallel + 1) 2). lia.
  - intros Hne. rewrite dir_reverse by done. lia.
Qed.

(** X13: the parallel edges between two nodes with different [x]
    alternate between the two sides of the straight line: the edge with
    the odd index 2k-1 and the edge with the even index 2k are k steps
    away from it, on opposite sides, and the steps of an edge are never
    zero; an edge drawn the other way gets the opposite sign, so that two
    edges with different indices never get the same side, whether they
    are directed the same way or opposite ways. *)
Theorem port_sides (p q : nat) (sx tx : R) :
  0 < p → 0 < q → sx ≠ tx →
  Z.abs (port p sx tx) = Z.of_nat ((p + 1) / 2)
  ∧ port p sx tx ≠ 0%Z
  ∧ (p mod 2 = 1 → port (S p) sx tx = (- port p sx tx)%Z)
  ∧ port p tx sx = (- port p sx tx)%Z
  ∧ (p ≠ q → port p sx tx ≠ port q sx tx ∧ port p sx tx ≠ (- port q tx sx)%Z).
Proof.
  intros Hp Hq Hne.
  destruct (port_alternates p sx tx Hp) as (Habs & Hnz & Hnext & Hrev).
  split; [done|]. split; [done|]. split; [done|]. split; [by apply Hrev|].
  intros Hpq.
  assert (port p sx tx ≠ port q sx tx) as Hinj.
  { unfold port, dir.
    pose proof (Nat.div_mod_eq (p + 1) 2). pose proof (Nat.div_mod_eq (q + 1) 2).
    pose proof (Nat.mod_upper_bound (p + 1) 2). pose proof (Nat.mod_upper_bound (q + 1) 2).
    pose proof (Nat.div_mod_eq p 2). pose proof (Nat.div_mod_eq q 2).
    pose proof (Nat.mod_upper_bound p 2). pose proof (Nat.mod_upper_bound q 2).
    destruct (Nat.eqb_spec (p mod 2) 0), (Nat.eqb_spec (q mod 2) 0), (Rlt_dec sx tx);
      cbn [Bool.eqb negb]; lia. }
  split; [done|].
  destruct (port_alternates q sx tx Hq) as (_ & _ & _ & Hrevq). rewrite Hrevq by done. lia.
Qed.

(** X13 on the first pair of parallel edges, from a node at [x] = 0 to a
    node at [x] = 10. *)
Lemma port_sides_witness :
  port 1 0%R 10%R = (-1)%Z ∧ port 2 0%R 10%R = 1%Z ∧ port 1 10%R 0%R = 1%Z
  ∧ port 1 0%R 10%R ≠ (- port 2 10%R 0%R)%Z.
Proof.
  assert (0%R ≠ 10%R) as Hne by lra.
  destruct (port_sides 1 2 0%R 10%R ltac:(lia) ltac:(lia) Hne)
    as (_ & _ & Hnext & Hrev & Hdiff).
  assert (port 1 0%R 10%R = (-1)%Z) as H1 by (apply port_left_to_right; lra).
  split; [exact H1|]. split; [|split].
  - rewrite (Hnext eq_refl), H1. reflexivity.
  - rewrite Hrev, H1. reflexivity.
  - exact (proj2 (Hdiff ltac:(lia))).
Defined.

End EdgePathFacts.

Import Diagram Views.
Import Rendering.

(** ** Rendering, forced layout and the calls of [draw] *)

Section lifecycle.
Context {NodeRec EdgeRec sortkey : Type}.
Variable node_x node_y : NodeRec → option R.
Variable _chart : chart NodeRec EdgeRec sortkey.
Variable quicksort_by : ∀ A : Type, (A → sortkey) → list A → list A.
Variable JSON_stringify_nodes : list (option NodeRec) → string.
Variable JSON_stringify_edges : list (option EdgeRec) → string.
Variable wheel_edges : (nat → option key) → list nat → option R → list wheel_edge.
Local Abbreviation store := (store NodeRec EdgeRec).
Local Abbreviation signal := (signal NodeRec sortkey).
Local Abbreviation reconcile := (reconcile node_x node_y _chart).
Local Abbreviation redraw :=
  (redraw node_x node_y _chart quicksort_by JSON_stringify_nodes JSON_stringify_edges
          wheel_edges).
Local Abbreviation render :=
  (render node_x node_y _chart quicksort_by JSON_stringify_nodes JSON_stringify_edges
          wheel_edges).
Local Abbreviation detect_unchanged :=
  (detect_unchanged _chart JSON_stringify_nodes JSON_stringify_edges).
Local Abbreviation effective_nodes := (effective_nodes _chart quicksort_by).
Local Abbreviation effective_edges := (effective_edges _chart quicksort_by).
Local Abbreviation cycle_signals := (@cycle_signals NodeRec EdgeRec sortkey _chart).
Local Abbreviation handle := (@handle NodeRec EdgeRec sortkey _chart).

Lemma inits_app (a b : list signal) : inits (a ++ b) = inits a + inits b.
Proof. unfold inits. by rewrite filter_app, length_app. Qed.

Lemma draws_app (a b : list signal) : draws (a ++ b) = draws a + draws b.
Proof. unfold draws. by rewrite filter_app, length_app. Qed.

(** The engine object of the store after a redraw is the one the redraw
    started with or created. *)
Lemma redraw_engine nodes edges (σ : store) :
  _d3cola σ || initLayoutOnRedraw _chart = false → redraw nodes edges σ = None.
Proof.
  intros Hoff. unfold Diagram.redraw. rewrite Hoff.
  pose proof (reconcile_snapshots node_x node_y _chart
                (effective_nodes nodes edges) (effective_edges edges)
                (set_d3cola false σ)) as (_ & _ & Hd).
  destruct (reconcile _ _ _) as [[ns es] σ1]. simpl in Hd.
  destruct (detect_unchanged_same _chart JSON_stringify_nodes JSON_stringify_edges ns es σ1)
    as (_ & _ & _ & _ & _ & _ & Hd2).
  destruct (detect_unchanged ns es σ1) as [skip σ2]. simpl in Hd2.
  destruct (parallel_edges _chart ns es σ2) as [σ3|] eqn:Hp; [|done]. simpl.
  apply parallel_edges_same in Hp as (_ & _ & _ & _ & _ & _ & _ & Hd3).
  by rewrite Hd3, Hd2, Hd.
Qed.

(** X14: [render] creates the layout engine exactly once, whether
    [initLayoutOnRedraw] is set or not, and returns when [constrain]
    yields no constraints; [redraw] on a diagram that has no engine yet
    and is not to create one throws. *)
Theorem render_creates_engine nodes edges (σ : store) :
  store_wf σ →
  (∀ ns es, constrain _chart ns es = []) →
  (∃ o σ', render nodes edges σ = Some (o, σ')
     ∧ _d3cola σ' = true ∧ inits (signals o) = 1)
  ∧ (_d3cola σ = false → initLayoutOnRedraw _chart = false →
     redraw nodes edges σ = None).
Proof.
  intros Hwf Hnone. split.
  - unfold Rendering.render.
    set (σ0 := if initLayoutOnRedraw _chart then σ else set_d3cola true σ).
    assert (store_wf σ0) as Hwf0 by (unfold σ0; by destruct (initLayoutOnRedraw _chart)).
    assert (_d3cola σ0 || initLayoutOnRedraw _chart = true) as Hon.
    { unfold σ0. destruct (initLayoutOnRedraw _chart); [apply orb_true_r|done]. }
    destruct (redraw_returns node_x node_y _chart quicksort_by JSON_stringify_nodes
                JSON_stringify_edges wheel_edges nodes edges σ0 Hwf0 Hon Hnone)
      as [[o σ'] Hr].
    rewrite Hr. simpl. eexists _, _. split; [done|].
    apply redraw_inv in Hr. cbn zeta in Hr.
    destruct Hr as (_ & _ & _ & _ & Hd & links & cs & ->). split; [done|].
    simpl. rewrite !inits_app. unfold σ0.
    destruct (initLayoutOnRedraw _chart); simpl.
    + destruct (_d3cola σ), (Diagram.detect_unchanged _ _ _ _ _ _).1; done.
    + destruct (Diagram.detect_unchanged _ _ _ _ _ _).1; done.
  - intros Hd Hflag. apply redraw_engine. by rewrite Hd, Hflag.
Qed.

Lemma relayout_forces_layout nodes edges (σ : store) o σ' :
  redraw nodes edges (relayout σ) = Some (o, σ') →
  skip_layout o = false
  ∧ ends_dispatched (signals o) = 0
  ∧ ∃ links cs, last (signals o) = Some (EngineStart (nodes1 o) links cs).
Proof.
  intros Hr. pose proof Hr as Hinv. apply redraw_inv in Hinv. cbn zeta in Hinv.
  destruct Hinv as (Hn1 & _ & Hskip & _ & _ & links & cs & Hsig).
  assert (skip_layout o = false) as Hno.
  { rewrite Hskip. unfold Diagram.detect_unchanged.
    destruct (layoutUnchanged _chart); [done|]. simpl.
    match goal with |- context [_nodes_snapshot (Diagram.reconcile ?a ?b ?c ?n ?e ?s).2] =>
      destruct (reconcile_snapshots a b c n e s) as (-> & _ & _) end.
    done. }
  split; [done|].
  destruct (redraw_signals _ _ _ _ _ _ _ _ _ _ _ _ Hr) as [Hends _].
  rewrite Hno in Hends. split; [done|].
  rewrite <- Hskip, Hno in Hsig. exists links, cs.
  rewrite Hsig, Hn1, !app_assoc. apply last_snoc.
Qed.

Lemma layoutUnchanged_lays_out nodes edges (σ : store) o σ' :
  layoutUnchanged _chart = true →
  redraw nodes edges σ = Some (o, σ') →
  skip_layout o = false
  ∧ _nodes_snapshot σ' = _nodes_snapshot σ
  ∧ _edges_snapshot σ' = _edges_snapshot σ.
Proof.
  intros Hlu Hr. apply redraw_inv in Hr. cbn zeta in Hr.
  destruct Hr as (_ & _ & Hskip & Hpar & _).
  apply parallel_edges_same in Hpar as (_ & _ & _ & _ & _ & Hsn & Hse & _).
  rewrite Hskip, Hsn, Hse. unfold Diagram.detect_unchanged. rewrite Hlu. simpl.
  match goal with |- context [_nodes_snapshot (Diagram.reconcile ?a ?b ?c ?n ?e ?s).2] =>
    destruct (reconcile_snapshots a b c n e s) as (-> & -> & _) end.
  done.
Qed.

(** X15: the two ways to have the layout run on unchanged records.
    After [relayout()] the next redraw does not take the skip path: it
    dispatches no [end] itself and its last action starts the engine on
    [nodes1]. While [layoutUnchanged] is set no redraw takes the skip
    path, and the two snapshots are left as they were. *)
Theorem forced_layout nodes edges (σ : store) o σ' :
  redraw nodes edges σ = Some (o, σ') →
  ((∃ σ0, σ = relayout σ0) →
     skip_layout o = false
     ∧ ends_dispatched (signals o) = 0
     ∧ ∃ links cs, last (signals o) = Some (EngineStart (nodes1 o) links cs))
  ∧ (layoutUnchanged _chart = true →
     skip_layout o = false
     ∧ _nodes_snapshot σ' = _nodes_snapshot σ
     ∧ _edges_snapshot σ' = _edges_snapshot σ).
Proof.
  intros Hr. split.
  - intros [σ0 ->]. by eapply relayout_forces_layout.
  - intros Hlu. by eapply layoutUnchanged_lays_out.
Qed.

Lemma draws_handle events :
  draws (flat_map handle events)
  = length (filter (λ ev, draws_at _chart ev = true) events).
Proof.
  induction events as [|ev events IH]; [done|].
  simpl. rewrite draws_app, IH, filter_cons.
  destruct ev as [t|]; simpl.
  - unfold on_tick. destruct (showLayoutSteps _chart), (over_limit _chart t); simpl;
      by rewrite ?decide_True, ?decide_False by done.
  - unfold on_end. destruct (showLayoutSteps _chart); simpl;
      by rewrite ?decide_True, ?decide_False by done.
Qed.

Lemma redraw_draws nodes edges (σ : store) o σ' :
  redraw nodes edges σ = Some (o, σ') → draws (signals o) = 0.
Proof.
  intros H. apply redraw_inv in H. cbn zeta in H.
  destruct H as (_ & _ & _ & _ & _ & links & cs & ->).
  rewrite !draws_app.
  destruct (_d3cola σ), (initLayoutOnRedraw _chart),
    (Diagram.detect_unchanged _ _ _ _ _ _).1; done.
Qed.

(** A run of the engine is a number of iterations and then the end. *)
Lemma engine_run_shape events :
  engine_run _chart events → ∃ ts, events = map Tick ts ++ [End].
Proof.
  induction 1 as [|t events _ _ [ts ->]|t _].
  - by exists [].
  - by exists (t :: ts).
  - by exists [t].
Qed.

(** X16: [draw] is called by the handlers only, at every iteration when
    [showLayoutSteps] is set and at every end when it is not. So a cycle
    on the skip path never draws; a cycle that started the engine draws
    once per iteration with [showLayoutSteps], and otherwise exactly
    once, at the end that the engine reports after it has converged or
    after it was stopped at the time limit. *)
Theorem draw_calls nodes edges (σ : store) o σ' events :
  redraw nodes edges σ = Some (o, σ') →
  draws (cycle_signals o events)
  = length (filter (λ ev, draws_at _chart ev = true) events)
  ∧ (terminates _chart (skip_layout o) events →
     draws (cycle_signals o events)
     = if skip_layout o then 0
       else if showLayoutSteps _chart then length events - 1 else 1).
Proof.
  intros Hr.
  assert (draws (cycle_signals o events)
          = length (filter (λ ev, draws_at _chart ev = true) events)) as Hgen.
  { unfold Diagram.cycle_signals.
    by rewrite draws_app, (redraw_draws _ _ _ _ _ Hr), draws_handle. }
  split; [exact Hgen|]. intros Ht. rewrite Hgen.
  assert (∀ ts : list Z,
            length (filter (λ ev, draws_at _chart ev = true) (map Tick ts))
            = if showLayoutSteps _chart then length ts else 0) as Hticks.
  { induction ts as [|t ts IH]; simpl; [by destruct (showLayoutSteps _chart)|].
    rewrite filter_cons. simpl. destruct (showLayoutSteps _chart) eqn:E.
    - rewrite decide_True by done. simpl. by rewrite IH.
    - rewrite decide_False by done. exact IH. }
  inversion Ht as [Hs He|evs Hrun Hs He]; subst; [done|].
  apply engine_run_shape in Hrun as [ts ->].
  rewrite filter_app, length_app, Hticks, length_app, length_map.
  rewrite filter_cons, filter_nil. simpl.
  destruct (showLayoutSteps _chart); simpl; lia.
Qed.

End lifecycle.

Import Diagram Views.
Import Rendering.

(** ** The arrays that the layout engine is given *)

Section arrays.
Context {NodeRec EdgeRec sortkey : Type}.
Variable node_x node_y : NodeRec → option R.
Variable _chart : chart NodeRec EdgeRec sortkey.
Variable quicksort_by : ∀ A : Type, (A → sortkey) → list A → list A.
Variable JSON_stringify_nodes : list (option NodeRec) → string.
Variable JSON_stringify_edges : list (option EdgeRec) → string.
Variable wheel_edges : (nat → option key) → list nat → option R → list wheel_edge.
Local Abbreviation store := (store NodeRec EdgeRec).
Local Abbreviation signal := (signal NodeRec sortkey).
Local Abbreviation reconcile := (reconcile node_x node_y _chart).
Local Abbreviation redraw :=
  (redraw node_x node_y _chart quicksort_by JSON_stringify_nodes JSON_stringify_edges
          wheel_edges).
Local Abbreviation detect_unchanged :=
  (detect_unchanged _chart JSON_stringify_nodes JSON_stringify_edges).
Local Abbreviation effective_nodes := (effective_nodes _chart quicksort_by).
Local Abbreviation effective_edges := (effective_edges _chart quicksort_by).
Local Abbreviation node_keys := (fmap (M:=list) (nodeKeyAccessor _chart)).
Local Abbreviation edge_keys := (fmap (M:=list) (edgeKeyAccessor _chart)).
Local Abbreviation node_items := (node_items node_x node_y _chart).
Local Abbreviation edges_run := (edges_run node_x node_y _chart).
Local Abbreviation visible := (visible _chart).

(** The store after a redraw has the dictionaries and the node heap of
    the reconciliation; only [parallel] fields and snapshots differ. *)
Lemma redraw_reconciled nodes edges (σ : store) o σ' :
  redraw nodes edges σ = Some (o, σ') →
  let r := reconcile (effective_nodes nodes edges) (effective_edges edges)
                     (set_d3cola (_d3cola σ || initLayoutOnRedraw _chart) σ) in
  nodes1 o = r.1.1 ∧ edges1 o = r.1.2
  ∧ _nodes σ' = _nodes r.2 ∧ _edges σ' = _edges r.2 ∧ nheap σ' = nheap r.2
  ∧ parallel_edges _chart r.1.1 r.1.2 (detect_unchanged r.1.1 r.1.2 r.2).2 = Some σ'
  ∧ eheap (detect_unchanged r.1.1 r.1.2 r.2).2 = eheap r.2.
Proof.
  intros H. apply redraw_inv in H. cbn zeta in H.
  destruct H as (Hn & He & _ & Hpar & _). cbn zeta.
  pose proof (parallel_edges_same _ _ _ _ _ Hpar) as (Hn' & He' & Hh' & _).
  match type of Hpar with context [Diagram.detect_unchanged _ _ _ ?a ?b ?c] =>
    destruct (detect_unchanged_same _chart JSON_stringify_nodes JSON_stringify_edges a b c)
      as (Hn2 & He2 & Hh2 & Hg2 & _) end.
  rewrite Hn', He', Hh', Hn2, He2, Hh2. done.
Qed.

(** X17: the statistics of a redraw count the node records that reach
    the layout (all of them, or with [induceNodes] those that an edge
    names) and the edge records whose key, at its last record, names two
    keys of these nodes; without [induceNodes] the first number is the
    number of node records. *)
Theorem stats_count nodes edges (σ : store) o σ' :
  store_wf σ →
  redraw nodes edges σ = Some (o, σ') →
  let ns := effective_nodes nodes edges in
  let es := effective_edges edges in
  _stats o = (length (nodes1 o), length (edges1 o))
  ∧ length (nodes1 o) = length ns
  ∧ length (edges1 o) = length (filter (visible ns es) es)
  ∧ (sort_permutes quicksort_by → induceNodes _chart = false →
     length (nodes1 o) = length nodes).
Proof.
  intros Hwf H. pose proof H as Hrec. apply redraw_reconciled in Hrec. cbn zeta in Hrec.
  destruct Hrec as (Hn & He & _). cbn zeta.
  assert (_stats o = (length (nodes1 o), length (edges1 o))) as Hstats.
  { unfold Diagram.redraw in H.
    destruct (Diagram.reconcile _ _ _ _ _ _) as [[ns1 es1] σ1].
    destruct (Diagram.detect_unchanged _ _ _ _ _ _) as [skip σ2]. simpl in H.
    destruct (parallel_edges _ _ _ _) as [σ3|]; simpl in H; [|done].
    destruct (_d3cola σ3); [|done].
    destruct (mapM _ _) as [cs|]; simpl in H; [|done].
    destruct (engine_constraints _ _ _) as [cs'|]; simpl in H; [|done].
    by simplify_eq. }
  split; [done|].
  assert (store_wf (set_d3cola (_d3cola σ || initLayoutOnRedraw _chart) σ)) as Hwf0 by done.
  split; [|split].
  - rewrite Hn. apply reconcile_nodes1_length.
  - rewrite He.
    pose proof (edge_origs_reconcile node_x node_y _chart (effective_nodes nodes edges)
                  (effective_edges edges) _ Hwf0) as Ho.
    apply (f_equal length) in Ho. unfold edge_origs in Ho.
    rewrite length_map, length_fmap in Ho. exact Ho.
  - intros Hperm Hind. rewrite Hn, reconcile_nodes1_length.
    unfold Diagram.effective_nodes, ordered, induce. rewrite Hind.
    destruct (nodeOrdering _chart); [|done]. by rewrite (Hperm _ _ nodes).
Qed.

(** X18: with [induceNodes] a node record reaches the layout exactly
    when some edge record names its key as source or as target, whether
    or not the other end of that edge is a node; without it every node
    record does. The records keep their order. *)
Theorem induce_spec nodes edges :
  (∀ v, v ∈ induce _chart nodes edges ↔
        v ∈ nodes
        ∧ (induceNodes _chart = true →
           ∃ e, e ∈ edges ∧ (sourceAccessor _chart e = nodeKeyAccessor _chart v
                             ∨ targetAccessor _chart e = nodeKeyAccessor _chart v)))
  ∧ sublist (induce _chart nodes edges) nodes.
Proof.
  unfold induce. destruct (induceNodes _chart).
  - assert (∀ k, k ∈ foldr (λ e ks, {[sourceAccessor _chart e]}
                                     ∪ ({[targetAccessor _chart e]} ∪ ks))
                         (∅ : gset string) edges
                 ↔ ∃ e, e ∈ edges ∧ (sourceAccessor _chart e = k
                                     ∨ targetAccessor _chart e = k)) as Hkeeps.
    { intros k. induction edges as [|e es IH]; simpl.
      - split; [by intros ?%not_elem_of_empty|].
        intros (e & He & _). by apply elem_of_nil in He.
      - rewrite !elem_of_union, !elem_of_singleton, IH. split.
        + intros [->|[->|(e' & He' & Hk)]].
          * exists e. split; [by left|by left].
          * exists e. split; [by left|by right].
          * exists e'. split; [by right|done].
        + intros (e' & [->|He']%elem_of_cons & Hk).
          * destruct Hk as [<-|<-]; auto.
          * right. right. eauto. }
    split; [|apply sublist_filter].
    intros v. rewrite list_elem_of_filter, Hkeeps. split.
    + intros [Hk Hv]. split; [done|]. intros _. exact Hk.
    + intros [Hv Hk]. split; [|done]. by apply Hk.
  - split; [|done]. intros v. split; [|tauto]. intros Hv. split; [done|done].
Qed.

(** With distinct keys, the wrapper of the record at position [j] gets
    the index of that position and the record as [orig]. *)
Lemma mutate_node_at vs i j v o :
  NoDup (node_keys vs) → vs !! j = Some v →
  index (Table.mutate (nodeKeyAccessor _chart v) (node_items vs i) o) = Some (i + j)
  ∧ orig (Table.mutate (nodeKeyAccessor _chart v) (node_items vs i) o) = Some v.
Proof.
  revert j. induction vs as [|w vs IH] using rev_ind; intros j Hnd Hj; [done|].
  rewrite node_items_snoc, mutate_snoc. simpl.
  rewrite fmap_app in Hnd. apply NoDup_app in Hnd as (Hnd & Hdis & _).
  destruct (decide (j < length vs)) as [Hlt|Hge].
  - rewrite lookup_app_l in Hj by done.
    rewrite decide_False.
    + by apply IH.
    + intros Heq. apply (Hdis (nodeKeyAccessor _chart v)).
      * apply list_elem_of_fmap. exists v. split; [done|]. by eapply list_elem_of_lookup_2.
      * rewrite <- Heq. simpl. by left.
  - rewrite lookup_app_r in Hj by lia.
    destruct (j - length vs) as [|n] eqn:E; simpl in Hj; [|done]. simplify_eq.
    rewrite decide_True by done. replace j with (length vs) by lia.
    unfold assign_node. by destruct (fixed_of _ _).
Qed.

Lemma positions_of_nodes1 nodes edges (σ : store) o σ' :
  store_wf σ →
  NoDup (node_keys (effective_nodes nodes edges)) →
  redraw nodes edges σ = Some (o, σ') →
  length (nodes1 o) = length (effective_nodes nodes edges)
  ∧ ∀ i v, effective_nodes nodes edges !! i = Some v →
      ∃ l v1, nodes1 o !! i = Some l
        ∧ _nodes σ' !! nodeKeyAccessor _chart v = Some l
        ∧ nheap σ' !! l = Some v1
        ∧ orig v1 = Some v ∧ index v1 = Some i.
Proof.
  intros Hwf Hnd H. apply redraw_reconciled in H. cbn zeta in H.
  destruct H as (Hn & _ & Hnodes & _ & Hheap & _).
  assert (store_wf (set_d3cola (_d3cola σ || initLayoutOnRedraw _chart) σ)) as Hwf0 by done.
  set (σ0 := set_d3cola (_d3cola σ || initLayoutOnRedraw _chart) σ) in *.
  set (ns := effective_nodes nodes edges) in *.
  set (es := effective_edges edges) in *.
  split; [rewrite Hn; apply reconcile_nodes1_length|].
  intros i v Hi.
  pose proof (reconcile_nodes1 node_x node_y _chart ns es σ0) as Hf.
  destruct (Forall2_lookup_l _ _ _ _ _ Hf Hi) as (l & Hl & Hkey).
  pose proof (reconcile_node_object node_x node_y _chart ns es σ0 _ l Hwf0 Hkey) as Hobj.
  destruct (mutate_node_at ns 0 i v
              (Table.object_of empty_node (ntable σ0) (nodeKeyAccessor _chart v)) Hnd Hi)
    as [Hidx Horig].
  eexists l, _. rewrite Hn, Hnodes, Hheap.
  split; [done|]. split; [done|]. split; [exact Hobj|]. split; [done|].
  by rewrite Hidx.
Qed.

(** X19: when the keys of the node records are distinct, the array
    [nodes1] that the engine is given holds at every position the wrapper
    of the record at that position: [_nodes] has it under the key of the
    record, its [orig] is the record and its [index] is the position. *)
Theorem nodes1_positions nodes edges (σ : store) o σ' :
  store_wf σ →
  NoDup (node_keys (effective_nodes nodes edges)) →
  redraw nodes edges σ = Some (o, σ') →
  length (nodes1 o) = length (effective_nodes nodes edges)
  ∧ ∀ i v, effective_nodes nodes edges !! i = Some v →
      ∃ l v1, nodes1 o !! i = Some l
        ∧ _nodes σ' !! nodeKeyAccessor _chart v = Some l
        ∧ nheap σ' !! l = Some v1
        ∧ orig v1 = Some v ∧ index v1 = Some i.
Proof. apply positions_of_nodes1. Qed.

(** The parallel-edge block changes [parallel] fields only. *)
Lemma mark_parallel_same_edge edges1 em (σ σ' : store) l e1 :
  mark_parallel edges1 em σ = Some σ' → eheap σ !! l = Some e1 →
  ∃ e1', eheap σ' !! l = Some e1' ∧ same_edge e1 e1'.
Proof.
  revert em σ e1. induction edges1 as [|l' ls IH]; intros em σ e1 H Hl; simpl in H.
  - simplify_eq. by exists e1.
  - destruct (eheap σ !! l') as [e2|] eqn:E; simpl in H; [|done].
    destruct (endpoint_indices σ e2) as [[si ti]|]; simpl in H; [|done].
    destruct (post_increment em _ _) as [[p em']|]; simpl in H; [|done].
    destruct (decide (l = l')) as [->|Hne].
    + rewrite E in Hl. injection Hl as ->.
      destruct (IH _ _ (set_parallel p e1) H) as (e1' & He1' & Hs).
      { simpl. by rewrite lookup_insert_eq. }
      exists e1'. split; [done|]. destruct Hs as (? & ? & ?). by repeat split.
    + apply (IH _ _ e1 H). simpl. by rewrite lookup_insert_ne.
Qed.

(** X20: every edge wrapper of the array [edges1] has a source and a
    target, and both are wrappers of the array [nodes1] of the same
    redraw: the engine is given no link to a node it is not given. *)
Theorem edges1_endpoints nodes edges (σ : store) o σ' l :
  store_wf σ →
  redraw nodes edges σ = Some (o, σ') →
  l ∈ edges1 o →
  ∃ e1 s t, eheap σ' !! l = Some e1
    ∧ source e1 = Some s ∧ target e1 = Some t
    ∧ s ∈ nodes1 o ∧ t ∈ nodes1 o.
Proof.
  intros Hwf H Hl. apply redraw_reconciled in H. cbn zeta in H.
  destruct H as (Hn & He & _ & _ & _ & Hpar & Hg).
  assert (store_wf (set_d3cola (_d3cola σ || initLayoutOnRedraw _chart) σ)) as Hwf0 by done.
  set (σ0 := set_d3cola (_d3cola σ || initLayoutOnRedraw _chart) σ) in *.
  set (ns := effective_nodes nodes edges) in *.
  set (es := effective_edges edges) in *.
  rewrite He, reconcile_edges1 in Hl. apply list_elem_of_filter in Hl as [Hend Hin].
  apply list_elem_of_lookup in Hin as [i Hi].
  destruct (Forall2_lookup_r _ _ _ _ _ (reconcile_wrapped node_x node_y _chart ns es σ0) Hi)
    as (e & He' & Hlk).
  pose proof (reconcile_edge_object _ _ _ ns es σ0 _ _ Hwf0 Hlk) as Hobj.
  assert (edgeKeyAccessor _chart e ∈ edge_keys es) as Hk.
  { apply list_elem_of_fmap. exists e. split; [done|]. by eapply list_elem_of_lookup_2. }
  destruct (last_with_key_is_Some (edgeKeyAccessor _chart) _ es Hk) as (e' & Hlast & _).
  destruct (mutate_edge _chart (_nodes (reconcile ns es σ0).2) _ es empty_edge e' Hlast)
    as (_ & Hsrc & Htgt).
  unfold has_endpoints in Hend. rewrite Hobj in Hend.
  apply andb_prop in Hend as [[s Hs]%bool_decide_eq_true [t Ht]%bool_decide_eq_true].
  assert (∀ k n, _nodes (reconcile ns es σ0).2 !! k = Some n → n ∈ nodes1 o) as Hlive.
  { intros k n Hkn. pose proof Hkn as Hdom.
    apply mk_is_Some, reconcile_nodes_dom in Hdom.
    apply list_elem_of_fmap in Hdom as (v & -> & Hv).
    apply list_elem_of_lookup in Hv as [j Hj].
    destruct (Forall2_lookup_l _ _ _ _ _
                (reconcile_nodes1 node_x node_y _chart ns es σ0) Hj) as (n' & Hn' & Hkey).
    rewrite Hkn in Hkey. simplify_eq. rewrite Hn. by eapply list_elem_of_lookup_2. }
  unfold parallel_edges in Hpar.
  assert (∃ e1', eheap σ' !! l = Some e1' ∧ same_edge
            (Table.mutate (edgeKeyAccessor _chart e)
               (edge_items _chart (_nodes (reconcile ns es σ0).2) es) empty_edge) e1')
    as (e1' & He1' & Hsame).
  { destruct (truthy _).
    - eapply mark_parallel_same_edge; [exact Hpar|]. by rewrite Hg.
    - simplify_eq. eexists. split; [by rewrite Hg|]. by repeat split. }
  destruct Hsame as (Hs' & Ht' & _).
  exists e1', s, t. rewrite Hs', Ht'. split; [done|]. split; [done|]. split; [done|].
  rewrite Hsrc in Hs. rewrite Htgt in Ht. split; by eapply Hlive.
Qed.

Lemma node_index_unknown (σ : store) k : _nodes σ !! k = None → node_index σ k = None.
Proof. intros H. unfold node_index. by rewrite H. Qed.

Lemma mapM_None_elem {A B} (f : A → option B) (l : list A) x :
  x ∈ l → f x = None → mapM f l = None.
Proof.
  intros Hx Hf. apply eq_None_not_Some. intros Hs%mapM_is_Some.
  eapply Forall_forall in Hs; [|exact Hx]. simpl in Hs. rewrite Hf in Hs. by destruct Hs.
Qed.

(** The translation of a constraint that names a key without wrapper
    throws. *)
Lemma translate_refs_unknown (σ : store) (c : constraint NodeRec sortkey key) k :
  k ∈ named c → _nodes σ !! k = None → translate_refs σ c = None.
Proof.
  intros Hk Hno. apply node_index_unknown in Hno.
  destruct c as [axis offsets|d ns|f ns axis gap|axis l r gap|t]; simpl in *.
  - apply list_elem_of_fmap in Hk as ([k' off] & -> & Hin).
    rewrite (mapM_None_elem _ offsets (k', off)); [done|done|]. simpl in *. by rewrite Hno.
  - by rewrite (mapM_None_elem _ ns k).
  - by apply elem_of_nil in Hk.
  - apply elem_of_cons in Hk as [->|Hk].
    + by rewrite Hno.
    + apply list_elem_of_singleton in Hk as ->. rewrite Hno.
      by destruct (node_index σ l).
  - by apply elem_of_nil in Hk.
Qed.

(** X21: a redraw throws when [constrain] yields an alignment, a circle
    or a constraint with an axis that names a key which is not the key
    of a node record that reaches the layout. *)
Theorem unknown_constraint_key nodes edges (σ : store) k :
  (∀ ns es, ∃ c, c ∈ constrain _chart ns es ∧ k ∈ named c) →
  k ∉ node_keys (effective_nodes nodes edges) →
  redraw nodes edges σ = None.
Proof.
  intros Hc Hk. destruct (redraw nodes edges σ) as [[o σ']|] eqn:H; [|done]. exfalso.
  pose proof H as Hrec. apply redraw_reconciled in Hrec. cbn zeta in Hrec.
  destruct Hrec as (_ & _ & Hnodes & _).
  assert (_nodes σ' !! k = None) as Hno.
  { rewrite Hnodes. apply eq_None_not_Some. by intros ?%reconcile_nodes_dom. }
  unfold Diagram.redraw in H.
  destruct (Diagram.reconcile _ _ _ _ _ _) as [[ns1 es1] σ1].
  destruct (Diagram.detect_unchanged _ _ _ _ _ _) as [skip σ2]. simpl in H.
  destruct (parallel_edges _ _ _ _) as [σ3|]; simpl in H; [|done].
  destruct (_d3cola σ3); [|done].
  destruct (Hc (objects (nheap σ3) ns1) (objects (eheap σ3) es1)) as (c & Hin & Hnamed).
  destruct (mapM _ _) as [cs|] eqn:Hm; simpl in H; [|done].
  destruct (engine_constraints _ _ _) as [cs'|]; simpl in H; [|done].
  simplify_eq.
  rewrite (mapM_None_elem _ _ c Hin) in Hm; [done|].
  by eapply translate_refs_unknown.
Qed.

(** X22: when the keys of the node records are distinct, the index that
    the translation of the constraints puts in the place of a key is the
    position of the record of that key in the array [nodes1]; a key of no
    record has no index. *)
Theorem node_index_position nodes edges (σ : store) o σ' :
  store_wf σ →
  NoDup (node_keys (effective_nodes nodes edges)) →
  redraw nodes edges σ = Some (o, σ') →
  (∀ k i, node_index σ' k = Some i ↔ node_keys (effective_nodes nodes edges) !! i = Some k)
  ∧ (∀ axis l r gap i j,
       node_keys (effective_nodes nodes edges) !! i = Some l →
       node_keys (effective_nodes nodes edges) !! j = Some r →
       translate_refs (sortkey:=sortkey) σ' (Gap axis l r gap) = Some (Gap axis i j gap)).
Proof.
  intros Hwf Hnd H.
  destruct (positions_of_nodes1 nodes edges σ o σ' Hwf Hnd H) as [_ Hpos].
  assert (∀ k i, node_keys (effective_nodes nodes edges) !! i = Some k →
                 node_index σ' k = Some i) as Hfwd.
  { intros k i Hi. rewrite list_lookup_fmap in Hi.
    destruct (effective_nodes nodes edges !! i) as [v|] eqn:Hv; [|done].
    simpl in Hi. simplify_eq.
    destruct (Hpos i v Hv) as (l & v1 & _ & Hl & Hv1 & _ & Hidx).
    unfold node_index. rewrite Hl. simpl. rewrite Hv1. simpl. exact Hidx. }
  split.
  - intros k i. split; [|apply Hfwd]. intros Hi.
    destruct (decide (k ∈ node_keys (effective_nodes nodes edges))) as [Hin|Hout].
    + apply list_elem_of_lookup in Hin as [j Hj].
      rewrite (Hfwd k j Hj) in Hi. by simplify_eq.
    + apply redraw_reconciled in H. cbn zeta in H. destruct H as (_ & _ & Hnodes & _).
      unfold node_index in Hi. rewrite Hnodes in Hi.
      destruct (_nodes _ !! k) eqn:E; [|done].
      apply mk_is_Some, reconcile_nodes_dom in E. done.
  - intros axis l r gap i j Hi Hj. simpl.
    by rewrite (Hfwd l i Hi), (Hfwd r j Hj).
Qed.

(** X23: a node that is missing from the records of one redraw and is
    among those of a later one comes back as a new object: its key has no
    wrapper in between, the wrapper it gets did not exist before, and
    unless the node is marked fixed the wrapper has no position. *)
Theorem returning_node_is_new nodes edges nodes' edges' (σ : store) o1 σ1 σ1' o2 σ2 k :
  store_wf σ →
  redraw nodes edges σ = Some (o1, σ1) →
  k ∉ node_keys (effective_nodes nodes edges) →
  engine_moved σ1 σ1' →
  redraw nodes' edges' σ1' = Some (o2, σ2) →
  k ∈ node_keys (effective_nodes nodes' edges') →
  (∀ v, v ∈ effective_nodes nodes' edges' → nodeKeyAccessor _chart v = k →
        fixed_of _chart v = None) →
  _nodes σ1' !! k = None
  ∧ ∃ l v1, _nodes σ2 !! k = Some l ∧ nheap σ1' !! l = None
      ∧ nheap σ2 !! l = Some v1 ∧ x v1 = None ∧ y v1 = None.
Proof.
  intros Hwf H1 Hout Hmoved H2 Hin Hfree.
  assert (store_wf σ1) as Hwf1 by (eapply redraw_wf; eassumption).
  assert (store_wf σ1') as Hwf1' by (eapply engine_moved_wf; eassumption).
  assert (_nodes σ1' !! k = None) as Hno.
  { destruct Hmoved as (-> & _). apply redraw_reconciled in H1. cbn zeta in H1.
    destruct H1 as (_ & _ & -> & _). apply eq_None_not_Some.
    by intros ?%reconcile_nodes_dom. }
  split; [done|].
  apply redraw_reconciled in H2. cbn zeta in H2.
  destruct H2 as (_ & _ & Hnodes & _ & Hheap & _).
  set (σ0 := set_d3cola (_d3cola σ1' || initLayoutOnRedraw _chart) σ1') in *.
  assert (store_wf σ0) as Hwf0 by done.
  set (ns := effective_nodes nodes' edges') in *.
  set (es := effective_edges edges') in *.
  destruct (proj2 (reconcile_nodes_is_Some node_x node_y _chart ns es σ0 k) Hin) as [l Hl].
  pose proof (reconcile_node_object node_x node_y _chart ns es σ0 k l Hwf0 Hl) as Hobj.
  assert (Table.object_of empty_node (ntable σ0) k = empty_node) as Hempty.
  { unfold Table.object_of. simpl. by rewrite Hno. }
  rewrite Hempty in Hobj.
  destruct (mutate_node_position node_x node_y _chart k ns 0 empty_node) as [Hx Hy].
  { intros v Hv Hk. by apply Hfree. }
  eexists l, _. rewrite Hnodes, Hheap. split; [done|]. split; [|split; [exact Hobj|done]].
  apply reconcile_nodes_lookup in Hl as [_ Hl].
  pose proof (touch_all_fresh empty_node (node_items ns 0) (ntable σ0) k l
                (proj1 Hwf0) Hno Hl) as Hfresh. simpl in Hfresh.
  destruct Hwf1' as [(_ & Hlt & _) _]. apply eq_None_not_Some. intros Hs%Hlt.
  simpl in Hs. lia.
Qed.

End arrays.

Import Diagram Views Example.
Import Rendering Charts.

(** *** Rendering and the arrays on the concrete diagram *)

(** X14 on the first render of A, B and e1. *)
Lemma render_creates_engine_witness :
  ∃ o σ', rendered_AB = Some (o, σ') ∧ _d3cola σ' = true ∧ inits (signals o) = 1.
Proof.
  exact (proj1 (render_creates_engine nx ny chart0 insertionsort_by (stringify nkey)
                  (stringify ekey) ring [A; B] [e1] init_store init_store_wf
                  (λ _ _, eq_refl))).
Defined.

Lemma relaid_AB_returns : relaid_AB = Some (outcome_of relaid_AB, store_of relaid_AB).
Proof.
  apply returned. unfold relaid_AB, relayout, set_snapshots, first_AB, store_of.
  run_redraw. eexists. reflexivity.
Qed.

Lemma always_again_returns :
  always_again = Some (outcome_of always_again, store_of always_again).
Proof.
  apply returned. unfold always_again, always_AB, store_of.
  run_redraw. eexists. reflexivity.
Qed.

(** X15 on the records A, B, e1: redrawn as they are they take the skip
    path; redrawn after [relayout()] they do not, and neither do they
    when [layoutUnchanged] is set, and then no snapshot is taken. *)
Lemma forced_layout_witness :
  skip_layout (outcome_of second_AB) = true
  ∧ skip_layout (outcome_of relaid_AB) = false
  ∧ ends_dispatched (signals (outcome_of relaid_AB)) = 0
  ∧ skip_layout (outcome_of always_again) = false
  ∧ _nodes_snapshot (store_of always_again) = _nodes_snapshot (store_of always_AB).
Proof.
  split.
  - unfold second_AB, first_AB, store_of, outcome_of. run_redraw. reflexivity.
  - destruct (proj1 (forced_layout nx ny chart0 insertionsort_by (stringify nkey)
                (stringify ekey) ring [A; B] [e1] (relayout (store_of first_AB))
                (outcome_of relaid_AB) (store_of relaid_AB) relaid_AB_returns)
                (ex_intro _ (store_of first_AB) eq_refl))
      as (Hskip & Hends & _).
    destruct (proj2 (forced_layout nx ny chart_always insertionsort_by (stringify nkey)
                (stringify ekey) ring [A; B] [e1] (store_of always_AB)
                (outcome_of always_again) (store_of always_again) always_again_returns)
                eq_refl)
      as (Hskip' & Hsn & _).
    split; [exact Hskip|]. split; [exact Hends|]. split; [exact Hskip'|exact Hsn].
Defined.

Lemma quiet_AB_returns : quiet_AB = Some (outcome_of quiet_AB, store_of quiet_AB).
Proof.
  apply returned. unfold quiet_AB. run_redraw. eexists. reflexivity.
Qed.

Lemma quiet_AB_not_skipped : skip_layout (outcome_of quiet_AB) = false.
Proof. unfold quiet_AB, outcome_of. run_redraw. reflexivity. Qed.

(** X16 on the chart that draws at the end only: a cycle that converges
    after two iterations draws once, and so does a cycle that is stopped
    at 150 ms, at the end that the engine then reports. *)
Lemma draw_calls_witness :
  draws (cycle_signals chart_quiet (outcome_of quiet_AB) [Tick 10; Tick 20; End]) = 1
  ∧ draws (cycle_signals chart_quiet (outcome_of quiet_AB) [Tick 10; Tick 150; End]) = 1.
Proof.
  split.
  - rewrite (proj2 (draw_calls nx ny chart_quiet insertionsort_by (stringify nkey)
              (stringify ekey) ring [A; B] [e1] rendered (outcome_of quiet_AB)
              (store_of quiet_AB) [Tick 10; Tick 20; End] quiet_AB_returns)).
    + by rewrite quiet_AB_not_skipped.
    + rewrite quiet_AB_not_skipped. apply started.
      do 2 (apply iterates; [reflexivity|]). apply converges.
  - rewrite (proj2 (draw_calls nx ny chart_quiet insertionsort_by (stringify nkey)
              (stringify ekey) ring [A; B] [e1] rendered (outcome_of quiet_AB)
              (store_of quiet_AB) [Tick 10; Tick 150; End] quiet_AB_returns)).
    + by rewrite quiet_AB_not_skipped.
    + rewrite quiet_AB_not_skipped. apply started, iterates; [reflexivity|].
      apply stopped. reflexivity.
Defined.

Lemma with_dangling_returns :
  with_dangling = Some (outcome_of with_dangling, store_of with_dangling).
Proof. apply returned. unfold with_dangling. run_redraw. eexists. reflexivity. Qed.

(** X17 on the nodes A, B, C with the edge e1 and an edge from A to a
    node that is not among the records: three nodes and one edge. *)
Lemma stats_count_witness : _stats (outcome_of with_dangling) = (3, 1).
Proof.
  destruct (stats_count nx ny chart0 insertionsort_by (stringify nkey) (stringify ekey)
              ring [A; B; C] [e1; dangling] rendered (outcome_of with_dangling)
              (store_of with_dangling) rendered_wf with_dangling_returns)
    as (Hstats & Hn & He & _).
  rewrite Hstats, Hn, He. reflexivity.
Defined.

(** X19 on the nodes A, B, C: the wrapper at position 2 is that of C. *)
Lemma nodes1_positions_witness :
  ∃ l v1, nodes1 (outcome_of first_ABC) !! 2 = Some l
    ∧ _nodes (store_of first_ABC) !! "C" = Some l
    ∧ nheap (store_of first_ABC) !! l = Some v1
    ∧ orig v1 = Some C ∧ index v1 = Some 2.
Proof.
  assert (NoDup (nkey <$> effective_nodes chart0 insertionsort_by [A; B; C] [e1; e2; e3]))
    as Hnd by (apply (bool_decide_unpack _); vm_compute; exact I).
  destruct (nodes1_positions nx ny chart0 insertionsort_by (stringify nkey) (stringify ekey)
              ring [A; B; C] [e1; e2; e3] rendered (outcome_of first_ABC)
              (store_of first_ABC) rendered_wf Hnd (returned first_ABC first_ABC_returns))
    as [_ Hpos].
  exact (Hpos 2 C eq_refl).
Defined.

(** X20 on the wrapper of the edge e1 between A and B. *)
Lemma edges1_endpoints_witness :
  ∃ e1' s t, eheap (store_of first_AB) !! 0 = Some e1'
    ∧ source e1' = Some s ∧ target e1' = Some t
    ∧ s ∈ nodes1 (outcome_of first_AB) ∧ t ∈ nodes1 (outcome_of first_AB).
Proof.
  apply (edges1_endpoints nx ny chart0 insertionsort_by (stringify nkey) (stringify ekey)
           ring [A; B] [e1] rendered (outcome_of first_AB) (store_of first_AB) 0
           rendered_wf (returned first_AB first_AB_returns)).
  assert (edges1 (outcome_of first_AB) = [0]) as ->.
  { unfold first_AB, outcome_of. run_redraw. reflexivity. }
  apply list_elem_of_here.
Defined.

(** X21 on a gap constraint between A and the key Z, which no node
    record has. *)
Lemma unknown_constraint_key_witness :
  redraw_with chart_gap [A; B] [e1] rendered = None.
Proof.
  apply (unknown_constraint_key nx ny chart_gap insertionsort_by (stringify nkey)
           (stringify ekey) ring [A; B] [e1] rendered "Z").
  - intros ns es. exists (Gap "x" "A" "Z" 10%R). split.
    + apply list_elem_of_here.
    + apply list_elem_of_further, list_elem_of_here.
  - apply (bool_decide_unpack _). vm_compute. exact I.
Defined.

(** X22 on the nodes A, B, C: a gap between A and C becomes a gap
    between the positions 0 and 2. *)
Lemma node_index_position_witness :
  translate_refs (sortkey:=nat) (store_of first_ABC) (Gap "x" "A" "C" 10%R)
  = Some (Gap "x" 0 2 10%R).
Proof.
  assert (NoDup (nkey <$> effective_nodes chart0 insertionsort_by [A; B; C] [e1; e2; e3]))
    as Hnd by (apply (bool_decide_unpack _); vm_compute; exact I).
  destruct (node_index_position nx ny chart0 insertionsort_by (stringify nkey)
              (stringify ekey) ring [A; B; C] [e1; e2; e3] rendered (outcome_of first_ABC)
              (store_of first_ABC) rendered_wf Hnd (returned first_ABC first_ABC_returns))
    as [_ Hgap].
  exact (Hgap "x" "A" "C" 10%R 0 2 eq_refl eq_refl).
Defined.

Lemma back_ABC_returns : back_ABC = Some (outcome_of back_ABC, store_of back_ABC).
Proof.
  apply returned. unfold back_ABC, moved_then, then_AB, first_ABC, store_of, place.
  run_redraw. eexists. reflexivity.
Qed.

(** X23 on the node C, which has the wrapper 2, leaves the records and
    returns: its new wrapper did not exist and has no position. *)
Lemma returning_node_is_new_witness :
  _nodes (store_of first_ABC) !! "C" = Some 2
  ∧ _nodes moved_then !! "C" = None
  ∧ ∃ l v1, _nodes (store_of back_ABC) !! "C" = Some l ∧ nheap moved_then !! l = None
      ∧ nheap (store_of back_ABC) !! l = Some v1 ∧ x v1 = None ∧ y v1 = None.
Proof.
  split.
  - unfold first_ABC, store_of. run_redraw. reflexivity.
  - apply (returning_node_is_new nx ny chart0 insertionsort_by (stringify nkey)
             (stringify ekey) ring [A; B] [e1] [A; B; C] [e1; e2; e3]
             (store_of first_ABC) (outcome_of then_AB) (store_of then_AB) moved_then
             (outcome_of back_ABC) (store_of back_ABC) "C").
    + eapply redraw_wf; [apply rendered_wf|apply (returned first_ABC first_ABC_returns)].
    + apply (returned then_AB then_AB_returns).
    + apply (bool_decide_unpack _). vm_compute. exact I.
    + apply place_engine_moved.
    + apply back_ABC_returns.
    + apply (bool_decide_unpack _). vm_compute. exact I.
    + intros v Hv _.
      repeat (apply elem_of_cons in Hv as [->|Hv]; [reflexivity|]).
      by apply elem_of_nil in Hv.
Defined.

(** ** Selection *)

Module SelectFacts.
Import SelectThings.

Lemma add_array_elem a v k : k ∈ add_array a v ↔ k ∈ a ∨ k = v.
Proof.
  unfold add_array. case_decide as Hv.
  - split; [auto|]. intros [?| ->]; done.
  - rewrite elem_of_app, list_elem_of_singleton. done.
Qed.

Lemma add_array_NoDup a v : NoDup a → NoDup (add_array a v).
Proof.
  intros Hnd. unfold add_array. case_decide as Hv; [done|].
  apply NoDup_app. split; [done|]. split; [|apply NoDup_singleton].
  intros k Hk ->%list_elem_of_singleton. done.
Qed.

Lemma add_array_prefix a v : a `prefix_of` add_array a v.
Proof. unfold add_array. case_decide; [done|]. by apply prefix_app_r. Qed.

Lemma toggle_array_elem a v k :
  k ∈ toggle_array a v ↔ (k ∈ a ∧ k ≠ v) ∨ (k = v ∧ v ∉ a).
Proof.
  unfold toggle_array. case_decide as Hv.
  - rewrite list_elem_of_filter. split; [intros [? ?]; auto|].
    intros [[? ?]|[_ ?]]; done.
  - rewrite elem_of_app, list_elem_of_singleton. split.
    + intros [Hk| ->]; [|auto]. left. split; [done|]. by intros ->.
    + intros [[? _]|[-> _]]; auto.
Qed.

Lemma toggle_array_NoDup a v : NoDup a → NoDup (toggle_array a v).
Proof.
  intros Hnd. unfold toggle_array. case_decide as Hv; [by apply NoDup_filter|].
  apply NoDup_app. split; [done|]. split; [|apply NoDup_singleton].
  intros k Hk ->%list_elem_of_singleton. done.
Qed.

Section select_facts.
Variable is_a_mac : bool.
Local Abbreviation isToggle := (isToggle is_a_mac).
Local Abbreviation brushmove := (brushmove is_a_mac).

Lemma union_elem old rect k : k ∈ foldl add_array old rect ↔ k ∈ old ∨ k ∈ rect.
Proof.
  revert old. induction rect as [|v rect IH]; intros old; simpl.
  - split; [auto|]. intros [?|?%elem_of_nil]; done.
  - rewrite IH, add_array_elem, elem_of_cons. tauto.
Qed.

Lemma union_NoDup old rect : NoDup old → NoDup (foldl add_array old rect).
Proof.
  revert old. induction rect as [|v rect IH]; intros old Hnd; [done|].
  simpl. by apply IH, add_array_NoDup.
Qed.

Lemma union_prefix old rect : old `prefix_of` foldl add_array old rect.
Proof.
  revert old. induction rect as [|v rect IH]; intros old; [done|].
  simpl. etrans; [apply (add_array_prefix old v)|apply IH].
Qed.

(** X24: brushing with the shift key held adds to the selection: the
    new selection holds the keys selected before and the keys of the
    nodes inside the rectangle, and no others; the keys selected before
    stay in front, in their order; and no key is selected twice if none
    was before. *)
Theorem brush_union ext data ev (_oldSelected : list key) :
  isUnion ev = true →
  (∀ k, k ∈ brushmove ext data ev _oldSelected
        ↔ k ∈ _oldSelected ∨ k ∈ rectSelect ext data)
  ∧ _oldSelected `prefix_of` brushmove ext data ev _oldSelected
  ∧ (NoDup _oldSelected → NoDup (brushmove ext data ev _oldSelected)).
Proof.
  intros Hu. unfold SelectThings.brushmove. rewrite Hu.
  split; [intros k; apply union_elem|]. split; [apply union_prefix|apply union_NoDup].
Qed.

Lemma toggle_elem old rect k :
  NoDup rect →
  (k ∈ foldl toggle_array old rect
   ↔ (k ∈ old ∧ (k ∉ rect)) ∨ ((k ∉ old) ∧ k ∈ rect)).
Proof.
  revert old. induction rect as [|v rect IH]; intros old Hnd; simpl.
  - split; [intros ?; left; split; [done|apply not_elem_of_nil]|].
    intros [[? _]|[_ ?%elem_of_nil]]; done.
  - apply NoDup_cons in Hnd as [Hv Hnd]. rewrite (IH _ Hnd), toggle_array_elem.
    rewrite !elem_of_cons.
    destruct (decide (v = k)) as [->|Hne]; destruct (decide (k ∈ old));
      destruct (decide (k ∈ rect)); intuition congruence.
Qed.

Lemma toggle_NoDup old rect : NoDup old → NoDup (foldl toggle_array old rect).
Proof.
  revert old. induction rect as [|v rect IH]; intros old Hnd; [done|].
  simpl. by apply IH, toggle_array_NoDup.
Qed.

(** X25: brushing with the toggle key held (and not the shift key)
    inverts the selection of the nodes inside the rectangle, whose keys
    are distinct: a key is selected afterwards when it was selected
    before or lies inside the rectangle, but not both. *)
Theorem brush_toggle ext data ev (_oldSelected : list key) :
  isUnion ev = false → isToggle ev = true →
  NoDup (rectSelect ext data) →
  (∀ k, k ∈ brushmove ext data ev _oldSelected
        ↔ (k ∈ _oldSelected ∧ (k ∉ rectSelect ext data))
          ∨ ((k ∉ _oldSelected) ∧ k ∈ rectSelect ext data))
  ∧ (NoDup _oldSelected → NoDup (brushmove ext data ev _oldSelected)).
Proof.
  intros Hu Ht Hnd. unfold SelectThings.brushmove. rewrite Hu, Ht.
  split; [intros k; by apply toggle_elem|apply toggle_NoDup].
Qed.

Lemma filter_out_absent (a : list key) v : v ∉ a → filter (λ x, x ≠ v) a = a.
Proof.
  induction a as [|w a IH]; [done|]. intros [Hw Ha]%not_elem_of_cons.
  rewrite filter_cons, decide_True by done. by rewrite IH.
Qed.

Lemma filter_out_present (a : list key) v :
  NoDup a → v ∈ a → filter (λ x, x ≠ v) a ++ [v] ≡ₚ a.
Proof.
  induction a as [|w a IH]; intros Hnd Hv; [by apply elem_of_nil in Hv|].
  apply NoDup_cons in Hnd as [Hw Hnd]. rewrite filter_cons.
  destruct (decide (w = v)) as [->|Hne].
  - rewrite decide_False by (by intros ?). rewrite filter_out_absent by done.
    symmetry. apply Permutation_cons_append.
  - rewrite decide_True by done. simpl. f_equiv. apply IH; [done|].
    apply elem_of_cons in Hv as [->|Hv]; done.
Qed.

(** X26: toggling the same key twice gives back a selection without
    repetitions: with the same keys, in the same order when the key was
    not selected, and with the key moved to the end when it was. *)
Theorem toggle_array_twice (a : list key) (v : key) :
  NoDup a →
  toggle_array (toggle_array a v) v ≡ₚ a
  ∧ (v ∉ a → toggle_array (toggle_array a v) v = a)
  ∧ (v ∈ a → toggle_array (toggle_array a v) v = filter (λ x, x ≠ v) a ++ [v]).
Proof.
  intros Hnd.
  assert (v ∉ a → toggle_array (toggle_array a v) v = a) as Hout.
  { intros Hv. unfold toggle_array at 2. rewrite decide_False by done.
    unfold toggle_array. rewrite decide_True by (apply elem_of_app; right; by left).
    rewrite filter_app, filter_out_absent by done.
    rewrite filter_cons, decide_False by (by intros ?). by rewrite filter_nil, app_nil_r. }
  assert (v ∈ a → toggle_array (toggle_array a v) v = filter (λ x, x ≠ v) a ++ [v]) as Hin.
  { intros Hv. unfold toggle_array at 2. rewrite decide_True by done.
    unfold toggle_array. rewrite decide_False; [done|].
    intros [Hne _]%list_elem_of_filter. by apply Hne. }
  split; [|done].
  destruct (decide (v ∈ a)) as [Hv|Hv].
  - rewrite Hin by done. by apply filter_out_present.
  - by rewrite Hout.
Qed.

Lemma filter_all_length {A} (P : A → Prop) `{∀ x, Decision (P x)} (l : list A) :
  length (filter P l) = length l ↔ Forall P l.
Proof.
  induction l as [|x l IH]; [by split; [constructor|]|].
  rewrite filter_cons. pose proof (length_filter P l) as Hle.
  case_decide as Hx; simpl.
  - rewrite Forall_cons. split.
    + intros [= Hl]. split; [done|]. by apply IH.
    + intros [_ Hl]. f_equal. by apply IH.
  - split; [lia|]. intros [? _]%Forall_cons. done.
Qed.

(** X27: the automatic crop of the selection keeps, in their order, the
    selected keys that a node of the diagram has; it reports a change
    exactly when some selected key has no node, and then the selection
    gets shorter. *)
Theorem crop_spec (present _selected : list key) :
  (crop present _selected = None ↔ ∀ k, k ∈ _selected → k ∈ present)
  ∧ (∀ now_selected, crop present _selected = Some now_selected →
       now_selected = filter (λ k, k ∈ present) _selected
       ∧ (∀ k, k ∈ now_selected ↔ k ∈ _selected ∧ k ∈ present)
       ∧ length now_selected < length _selected).
Proof.
  unfold crop. pose proof (length_filter (λ k, k ∈ present) _selected) as Hle.
  pose proof (filter_all_length (λ k, k ∈ present) _selected) as Hall.
  rewrite Forall_forall in Hall.
  destruct (decide (length _selected
                    ≠ length (filter (λ k, k ∈ present) _selected))) as [Hl|Hl].
  - split.
    + split; [done|]. intros Hp. exfalso. apply Hl. symmetry. by apply Hall.
    + intros l [= <-]. split; [done|]. split; [|lia].
      intros k. rewrite list_elem_of_filter. tauto.
  - split; [|done]. split; [|done]. intros _. apply Hall.
    destruct (decide (length (filter (λ k, k ∈ present) _selected) = length _selected))
      as [Heq|Hne]; [done|].
    exfalso. apply Hl. intros Heq. by rewrite Heq in Hne.
Qed.

End select_facts.

Import Example.

(** X24 on the selection [a], with the nodes [b] and [a] inside the
    rectangle. *)
Lemma brush_union_witness :
  brushmove false ((0, 0), (10, 10))%R
    [Some (Node "b" 1 1); None; Some (Node "a" 2 2); Some (Node "c" 20 2)]
    (Event true false false) ["a"]
  = ["a"; "b"]
  ∧ ["a"] `prefix_of`
      brushmove false ((0, 0), (10, 10))%R
        [Some (Node "b" 1 1); None; Some (Node "a" 2 2); Some (Node "c" 20 2)]
        (Event true false false) ["a"].
Proof.
  assert (rectSelect ((0, 0), (10, 10))%R
            [Some (Node "b" 1 1); None; Some (Node "a" 2 2); Some (Node "c" 20 2)]
          = ["b"; "a"]) as Hrect.
  { unfold rectSelect, in_extent. rewrite !filter_cons, filter_nil. simpl.
    repeat (destruct (Rlt_dec _ _); try lra). reflexivity. }
  split.
  - unfold brushmove. simpl. rewrite Hrect. reflexivity.
  - exact (proj1 (proj2 (brush_union false ((0, 0), (10, 10))%R
             [Some (Node "b" 1 1); None; Some (Node "a" 2 2); Some (Node "c" 20 2)]
             (Event true false false) ["a"] eq_refl))).
Defined.

(** X25 on the same brush with the control key: [b] joins the
    selection and [a] leaves it. *)
Lemma brush_toggle_witness :
  "b" ∈ brushmove false ((0, 0), (10, 10))%R
          [Some (Node "b" 1 1); Some (Node "a" 2 2)] (Event false false true) ["a"]
  ∧ "a" ∉ brushmove false ((0, 0), (10, 10))%R
            [Some (Node "b" 1 1); Some (Node "a" 2 2)] (Event false false true) ["a"].
Proof.
  assert (rectSelect ((0, 0), (10, 10))%R [Some (Node "b" 1 1); Some (Node "a" 2 2)]
          = ["b"; "a"]) as Hrect.
  { unfold rectSelect, in_extent. rewrite !filter_cons, filter_nil. simpl.
    repeat (destruct (Rlt_dec _ _); try lra). reflexivity. }
  assert (NoDup (rectSelect ((0, 0), (10, 10))%R
                   [Some (Node "b" 1 1); Some (Node "a" 2 2)])) as Hnd.
  { rewrite Hrect. apply (bool_decide_unpack _). vm_compute. exact I. }
  destruct (brush_toggle false ((0, 0), (10, 10))%R
              [Some (Node "b" 1 1); Some (Node "a" 2 2)]
              (Event false false true) ["a"] eq_refl eq_refl Hnd) as [Hiff _].
  split.
  - apply Hiff. right. rewrite Hrect. split.
    + apply (bool_decide_unpack _). vm_compute. exact I.
    + apply list_elem_of_here.
  - intros Ha. apply Hiff in Ha. rewrite Hrect in Ha.
    destruct Ha as [[_ Hno]|[Hno _]].
    + apply Hno. apply list_elem_of_further, list_elem_of_here.
    + apply Hno. apply list_elem_of_here.
Defined.

(** X26 on the selection [a, b]: toggling [a] twice moves it to the end. *)
Lemma toggle_array_twice_witness :
  toggle_array (toggle_array ["a"; "b"] "a") "a" ≡ₚ ["a"; "b"]
  ∧ toggle_array (toggle_array ["a"; "b"] "a") "a" = ["b"; "a"].
Proof.
  assert (NoDup ["a"; "b"]) as Hnd by (apply (bool_decide_unpack _); vm_compute; exact I).
  destruct (toggle_array_twice ["a"; "b"] "a" Hnd) as (Hperm & _ & _).
  split; [exact Hperm|reflexivity].
Defined.

End SelectFacts.

(** ** Spline paths *)

Module SplineFacts.
Import SplinePaths.
Local Open Scope R_scope.

Section spline_facts.
Variable getNodeAllInfo : key → option position.
Local Abbreviation getNodePosition := (getNodePosition getNodeAllInfo).
Local Abbreviation pathExists := (pathExists getNodeAllInfo).

(** A path has positions when one of its node elements is shown. *)
Lemma getNodePosition_nonempty path :
  getNodePosition path ≠ []
  ↔ ∃ k, NodeElement k ∈ path ∧ is_Some (getNodeAllInfo k).
Proof.
  unfold SplinePaths.getNodePosition. induction path as [|el path IH]; simpl.
  - split; [done|]. intros (k & Hk & _). by apply elem_of_nil in Hk.
  - destruct el as [k| |]; simpl.
    + destruct (getNodeAllInfo k) as [p|] eqn:E.
      * split; [|done]. intros _. exists k. split; [by left|]. by rewrite E.
      * rewrite IH. split.
        -- intros (k' & Hk' & Hs). exists k'. split; [by right|done].
        -- intros (k' & [Heq|Hk']%elem_of_cons & Hs).
           ++ simplify_eq. rewrite E in Hs. by destruct Hs.
           ++ eauto.
    + rewrite IH. split.
      * intros (k' & Hk' & Hs). exists k'. split; [by right|done].
      * intros (k' & [Heq|Hk']%elem_of_cons & Hs); [done|eauto].
    + rewrite IH. split.
      * intros (k' & Hk' & Hs). exists k'. split; [by right|done].
      * intros (k' & [Heq|Hk']%elem_of_cons & Hs); [done|eauto].
Qed.

Lemma count_positive (paths : list (list element)) (n : nat) :
  (0 < foldl (λ nodesCount d, nodesCount + length (getNodePosition d)) n paths)%nat
  ↔ (0 < n)%nat ∨ ∃ path, path ∈ paths ∧ getNodePosition path ≠ [].
Proof.
  revert n. induction paths as [|d paths IH]; intros n; simpl.
  - split; [auto|]. intros [?|(path & Hp & _)]; [done|]. by apply elem_of_nil in Hp.
  - rewrite IH. split.
    + intros [Hn|(path & Hp & Hne)].
      * destruct (getNodePosition d) eqn:E; simpl in Hn.
        -- left. lia.
        -- right. exists d. split; [by left|]. by rewrite E.
      * right. exists path. split; [by right|done].
    + intros [Hn|(path & [->|Hp]%elem_of_cons & Hne)].
      * left. lia.
      * left. destruct (getNodePosition d); [done|simpl; lia].
      * right. eauto.
Qed.

(** X28: [pathExists] holds exactly when some path has a node element
    whose key the chart shows; edge elements and keys that the chart
    does not show count for nothing, and so does an empty list of
    paths. *)
Theorem pathExists_spec (paths : list (list element)) :
  pathExists paths = true
  ↔ ∃ path k, path ∈ paths ∧ NodeElement k ∈ path ∧ is_Some (getNodeAllInfo k).
Proof.
  unfold SplinePaths.pathExists. rewrite bool_decide_eq_true, count_positive. split.
  - intros [?|(path & Hp & Hne)]; [lia|].
    apply getNodePosition_nonempty in Hne as (k & Hk & Hs). eauto.
  - intros (path & k & Hp & Hk & Hs). right. exists path. split; [done|].
    apply getNodePosition_nonempty. eauto.
Qed.

End spline_facts.

Lemma pushed_keeps path_coord i p : ∃ before after, pushed path_coord i p = before ++ p :: after.
Proof.
  unfold pushed. destruct i as [|j]; [by exists [], []|].
  destruct (path_coord !! j) as [prev|]; [|by exists [], []].
  destruct (path_coord !! S (S j)) as [next|]; [|by exists [], []].
  destruct (_ && _); [by eexists [_], [_]|].
  destruct (Rlt_dec _ _); [by eexists [_], [_]|by exists [], []].
Qed.

Lemma sublist_concat_imap {A} (f : nat → A → list A) (l : list A) :
  (∀ i p, ∃ before after, f i p = before ++ p :: after) →
  sublist l (concat (imap f l)).
Proof.
  revert f. induction l as [|a l IH]; intros f Hf; [constructor|].
  rewrite imap_cons. simpl. destruct (Hf 0%nat a) as (before & after & ->).
  rewrite <- app_assoc. apply sublist_inserts_l. simpl. constructor.
  apply sublist_inserts_l. apply IH. intros i p. apply Hf.
Qed.

Lemma new_path_coord_snoc path_coord p :
  new_path_coord (path_coord ++ [p])
  = concat (imap (pushed (path_coord ++ [p])) path_coord)
    ++ pushed (path_coord ++ [p]) (length path_coord) p.
Proof.
  unfold new_path_coord. rewrite imap_app, concat_app. simpl.
  by rewrite Nat.add_0_r, app_nil_r.
Qed.

(** X29: the dummy nodes are inserted between the positions of the
    path: the positions of the path stay, in their order; the path still
    starts and ends where it did; and a path of fewer than three
    positions gets no dummy node. *)
Theorem new_path_coord_keeps (path_coord : list position) :
  sublist path_coord (new_path_coord path_coord)
  ∧ head (new_path_coord path_coord) = head path_coord
  ∧ last (new_path_coord path_coord) = last path_coord
  ∧ ((length path_coord < 3)%nat → new_path_coord path_coord = path_coord).
Proof.
  split; [apply sublist_concat_imap, pushed_keeps|]. split; [|split].
  - destruct path_coord as [|p l]; [done|]. unfold new_path_coord.
    rewrite imap_cons. done.
  - destruct path_coord as [|p l _] using rev_ind; [done|].
    rewrite new_path_coord_snoc, last_snoc.
    assert (pushed (l ++ [p]) (length l) p = [p]) as ->.
    { unfold pushed. destruct (length l) as [|j] eqn:E; [done|].
      rewrite (lookup_ge_None_2 (l ++ [p]) (S (S j))); [by destruct (_ !! j)|].
      rewrite length_app. simpl. lia. }
    apply last_snoc.
  - intros Hlen. destruct path_coord as [|a [|b [|c l]]]; simpl in Hlen; try lia; done.
Qed.

(** The two inserted points for a segment whose ends differ. *)
Lemma segment_length (a b : position) :
  (p_x a, p_y a) ≠ (p_x b, p_y b) →
  0 < sqrt ((p_x a - p_x b) * (p_x a - p_x b) + (p_y a - p_y b) * (p_y a - p_y b)).
Proof.
  intros Hne. apply sqrt_lt_R0.
  pose proof (Rle_0_sqr (p_x a - p_x b)) as Hx0.
  pose proof (Rle_0_sqr (p_y a - p_y b)) as Hy0. unfold Rsqr in *.
  destruct (Req_dec (p_x a) (p_x b)) as [Hx|Hx].
  - destruct (Req_dec (p_y a) (p_y b)) as [Hy|Hy]; [exfalso; apply Hne; congruence|].
    pose proof (Rsqr_pos_lt (p_y a - p_y b) ltac:(lra)) as Hp. unfold Rsqr in Hp. lra.
  - pose proof (Rsqr_pos_lt (p_x a - p_x b) ltac:(lra)) as Hp. unfold Rsqr in Hp. lra.
Qed.

Lemma inserted_geometry (a b : position) :
  (p_x a, p_y a) ≠ (p_x b, p_y b) →
  let mx := (p_x a + p_x b) / 2 in
  let my := (p_y a + p_y b) / 2 in
  let p1 := insert_plus a b in
  let p2 := insert_minus a b in
  (p_x p1 + p_x p2) / 2 = mx ∧ (p_y p1 + p_y p2) / 2 = my
  ∧ (p_x p1 - mx) * (p_x p1 - mx) + (p_y p1 - my) * (p_y p1 - my) = offset * offset
  ∧ (p_x p2 - mx) * (p_x p2 - mx) + (p_y p2 - my) * (p_y p2 - my) = offset * offset
  ∧ (p_x p1 - p_x p2) * (p_x a - p_x b) + (p_y p1 - p_y p2) * (p_y a - p_y b) = 0.
Proof.
  intros Hne. pose proof (segment_length a b Hne) as Hlen.
  cbn zeta. unfold insert_plus, insert_minus. simpl.
  set (dx := p_x a - p_x b) in *. set (dy := p_y a - p_y b) in *.
  set (c := sqrt (dx * dx + dy * dy)) in *.
  assert (c * c = dx * dx + dy * dy) as Hc by (apply sqrt_sqrt; nra).
  assert (dy / c * (dy / c) + - dx / c * (- dx / c) = 1) as Hunit.
  { replace (dy / c * (dy / c) + - dx / c * (- dx / c))
      with ((dx * dx + dy * dy) / (c * c)) by (field; lra).
    rewrite Hc. field. nra. }
  split; [lra|]. split; [lra|]. split; [|split].
  - replace ((p_x a + p_x b) / 2 + offset * (dy / c) - (p_x a + p_x b) / 2)
      with (offset * (dy / c)) by lra.
    replace ((p_y a + p_y b) / 2 + offset * (- dx / c) - (p_y a + p_y b) / 2)
      with (offset * (- dx / c)) by lra.
    nra.
  - replace ((p_x a + p_x b) / 2 - offset * (dy / c) - (p_x a + p_x b) / 2)
      with (- (offset * (dy / c))) by lra.
    replace ((p_y a + p_y b) / 2 - offset * (- dx / c) - (p_y a + p_y b) / 2)
      with (- (offset * (- dx / c))) by lra.
    nra.
  - field. lra.
Qed.

(** X30: where a path turns back (the positions before and after a
    position are the same, and differ from it), the loop puts one dummy
    node before the position and one after it; the two lie on opposite
    sides of the middle of the segment that leads to the position, each
    at the distance 10 from that middle, on the perpendicular to the
    segment through it. *)
Theorem turn_back_dummies (path_coord : list position) (j : nat) (prev p next : position) :
  path_coord !! j = Some prev →
  path_coord !! S (S j) = Some next →
  p_x prev = p_x next → p_y prev = p_y next →
  (p_x prev, p_y prev) ≠ (p_x p, p_y p) →
  let mx := (p_x prev + p_x p) / 2 in
  let my := (p_y prev + p_y p) / 2 in
  ∃ p1 p2, pushed path_coord (S j) p = [p1; p; p2]
    ∧ (p_x p1 + p_x p2) / 2 = mx ∧ (p_y p1 + p_y p2) / 2 = my
    ∧ (p_x p1 - mx) * (p_x p1 - mx) + (p_y p1 - my) * (p_y p1 - my) = 10 * 10
    ∧ (p_x p2 - mx) * (p_x p2 - mx) + (p_y p2 - my) * (p_y p2 - my) = 10 * 10
    ∧ (p_x p1 - p_x p2) * (p_x prev - p_x p) + (p_y p1 - p_y p2) * (p_y prev - p_y p) = 0.
Proof.
  intros Hprev Hnext Hx Hy Hne. cbn zeta.
  exists (insert_plus prev p), (insert_minus prev p). split.
  - unfold pushed. rewrite Hprev, Hnext.
    destruct (Req_dec_T (p_x prev) (p_x next)); [|done].
    destruct (Req_dec_T (p_y prev) (p_y next)); done.
  - apply (inserted_geometry prev p Hne).
Qed.

(** X30 on the path from (0, 0) to (6, 8) and back. *)
Lemma turn_back_dummies_witness :
  ∃ p1 p2,
    pushed [Position 0 0; Position 6 8; Position 0 0] 1 (Position 6 8)
    = [p1; Position 6 8; p2]
    ∧ (p_x p1 + p_x p2) / 2 = (0 + 6) / 2
    ∧ (p_x p1 - p_x p2) * (0 - 6) + (p_y p1 - p_y p2) * (0 - 8) = 0.
Proof.
  assert ((0, 0) ≠ (6, 8)) as Hne by (intros [= H _]; lra).
  destruct (turn_back_dummies [Position 0 0; Position 6 8; Position 0 0] 0
              (Position 0 0) (Position 6 8) (Position 0 0) eq_refl eq_refl eq_refl eq_refl Hne)
    as (p1 & p2 & Hpush & Hx & _ & _ & _ & Hp).
  exists p1, p2. split; [exact Hpush|]. split; [exact Hx|exact Hp].
Defined.

End SplineFacts.
